(** * Low-frequency component analysis (LFCA): the notebook's numeric core

    A shallow embedding of the four functions of
    [notebooks/ForceSMIP_LFCA_simple.ipynb] that carry the analysis:
    [low_pass_weights], [filter_padding], [filter_ts] and [lfca].

    - NumPy [float64] values are modelled in exact arithmetic: a finite value
      is a real number (no rounding, no overflow) and the IEEE special values
      [inf], [-inf] and [nan], which NumPy's division produces instead of
      raising, are kept.  Signed zeros are not distinguished.  What is proved
      of finite values is therefore proved of the exact results; a statement
      that needs this says so.
    - Python exceptions are an explicit error result.
    - Calls into NumPy's and SciPy's numeric solvers and into the [eofs]
      package ([np.polyfit], [np.cov], [np.linalg.eigh], [convolve],
      [butter], [filtfilt], [Eof]) are operations of a library interface;
      array plumbing (slices, broadcasting, [np.dot]) is defined here, and so
      is [np.argsort] up to the order it gives to equal keys in long
      arrays.
    - [lfca] is modelled on the arguments the notebook passes: the data as a
      two-dimensional xarray DataArray, the weights as a 1 by N array. *)

From Stdlib Require Import String.
From Stdlib Require Import Reals Lra Lia ZArith Bool List Permutation Sorted.
Import ListNotations.

(** ** Python exceptions and fallible computations *)

Inductive exn : Type :=
| ValueError (msg : string)
| TypeError (msg : string)
| IndexError (msg : string)
| ZeroDivisionError (msg : string)
| LinAlgError (msg : string).

Inductive result (A : Type) : Type :=
| Ok (a : A)
| Raise (e : exn).

Arguments Ok {A} a.
Arguments Raise {A} e.

Definition bind {A B : Type} (m : result A) (k : A -> result B) : result B :=
  match m with
  | Ok a => k a
  | Raise e => Raise e
  end.

Notation "x <- m ;; k" := (bind m (fun x => k))
  (at level 61, m at next level, right associativity).
Notation "' p <- m ;; k" := (bind m (fun p => k))
  (at level 61, p pattern, m at next level, right associativity).

Definition raises {A : Type} (m : result A) : Prop := exists e, m = Raise e.

Definition is_ValueError (e : exn) : bool :=
  match e with ValueError _ => true | _ => false end.

(** The error class of an argument that is not acceptable: Python's
    [ValueError]. *)
Definition invalid_parameter {A : Type} (m : result A) : Prop :=
  exists msg, m = Raise (ValueError msg).

(** ** float64 in exact arithmetic *)

Inductive float : Type :=
| Fin (r : R)
| PInf
| NInf
| NaN.

Definition is_finite (a : float) : Prop :=
  match a with Fin _ => True | _ => False end.

Local Open Scope R_scope.

(** Sign of a real as a three-way choice, used by the special-value rules. *)
Inductive sign : Type := Neg | Zero | Pos.

Definition Rsign (r : R) : sign :=
  if Rlt_dec r 0 then Neg else if Rlt_dec 0 r then Pos else Zero.

Definition fneg (a : float) : float :=
  match a with
  | Fin r => Fin (- r)
  | PInf => NInf
  | NInf => PInf
  | NaN => NaN
  end.

Definition fadd (a b : float) : float :=
  match a, b with
  | NaN, _ | _, NaN => NaN
  | Fin x, Fin y => Fin (x + y)
  | PInf, NInf | NInf, PInf => NaN
  | PInf, _ | _, PInf => PInf
  | NInf, _ | _, NInf => NInf
  end.

Definition fsub (a b : float) : float := fadd a (fneg b).

(** [inf] with the sign of a finite factor; [0 * inf] is [nan]. *)
Definition inf_signed (s : sign) : float :=
  match s with Pos => PInf | Neg => NInf | Zero => NaN end.

Definition sign_opp (s : sign) : sign :=
  match s with Pos => Neg | Neg => Pos | Zero => Zero end.

Definition fmul (a b : float) : float :=
  match a, b with
  | NaN, _ | _, NaN => NaN
  | Fin x, Fin y => Fin (x * y)
  | Fin x, PInf | PInf, Fin x => inf_signed (Rsign x)
  | Fin x, NInf | NInf, Fin x => inf_signed (sign_opp (Rsign x))
  | PInf, PInf | NInf, NInf => PInf
  | PInf, NInf | NInf, PInf => NInf
  end.

(** NumPy's true division: dividing by zero gives [inf] or [nan] (with a
    RuntimeWarning), never an exception. *)
Definition fdiv (a b : float) : float :=
  match a, b with
  | NaN, _ | _, NaN => NaN
  | Fin x, Fin y =>
      match Rsign y with
      | Zero => inf_signed (Rsign x)
      | _ => Fin (x / y)
      end
  | Fin _, _ => Fin 0
  | PInf, Fin y =>
      match Rsign y with Neg => NInf | _ => PInf end
  | NInf, Fin y =>
      match Rsign y with Neg => PInf | _ => NInf end
  | _, _ => NaN
  end.

Definition fsqrt (a : float) : float :=
  match a with
  | Fin x => if Rlt_dec x 0 then NaN else Fin (sqrt x)
  | PInf => PInf
  | _ => NaN
  end.

Definition fsin (a : float) : float :=
  match a with
  | Fin x => Fin (sin x)
  | _ => NaN
  end.

(** Comparison [a < b]; any comparison with [nan] is false. *)
Definition fltb (a b : float) : bool :=
  match a, b with
  | NaN, _ | _, NaN => false
  | Fin x, Fin y => if Rlt_dec x y then true else false
  | NInf, NInf | PInf, PInf => false
  | NInf, _ | _, PInf => true
  | _, _ => false
  end.

(** Comparison [a >= b]. *)
Definition fgeb (a b : float) : bool :=
  match a, b with
  | NaN, _ | _, NaN => false
  | Fin x, Fin y => if Rle_dec y x then true else false
  | PInf, _ | _, NInf => true
  | _, _ => false
  end.

(** [np.isnan(a)] *)
Definition np_isnan (a : float) : bool :=
  match a with NaN => true | _ => false end.

(** [a != 0]; [nan != 0] is true. *)
Definition fneb_zero (a : float) : bool :=
  match a with
  | Fin r => if Req_dec_T r 0 then false else true
  | _ => true
  end.

(** [a == 0] *)
Definition feqb_zero (a : float) : bool :=
  match a with
  | Fin r => if Req_dec_T r 0 then true else false
  | _ => false
  end.

Definition of_int (z : Z) : float := Fin (IZR z).
Definition of_nat (n : nat) : float := Fin (INR n).

Definition fzero : float := Fin 0.
Definition np_pi : float := Fin PI.

Definition vector := list float.
Definition matrix := list (list float).

Local Close Scope R_scope.

(** ** Array plumbing: NumPy indexing on one-dimensional arrays *)

Definition map2 {A B C : Type} (f : A -> B -> C) (u : list A) (v : list B) : list C :=
  map (fun p => f (fst p) (snd p)) (combine u v).

(** [range(a, b)] *)
Definition py_range (a b : Z) : list Z :=
  map (fun k => (a + Z.of_nat k)%Z) (seq 0 (Z.to_nat (b - a))).

(** [np.arange(a, b)] read as floats. *)
Definition np_arange (a b : Z) : vector := map of_int (py_range a b).

(** [np.zeros(n)] *)
Definition np_zeros (n : Z) : result vector :=
  if (n <? 0)%Z then Raise (ValueError "negative dimensions are not allowed")
  else Ok (repeat fzero (Z.to_nat n)).

(** A bound [i] of a slice with step 1 on an array of length [len]:
    negative bounds count from the end, and the result is clipped to
    [0 .. len]. *)
Definition slice_bound (len : nat) (i : Z) : nat :=
  if (i <? 0)%Z then Z.to_nat (Z.of_nat len + i)
  else Nat.min (Z.to_nat i) len.

Definition slice_start (len : nat) (o : option Z) : nat :=
  match o with None => 0 | Some i => slice_bound len i end.

Definition slice_stop (len : nat) (o : option Z) : nat :=
  match o with None => len | Some i => slice_bound len i end.

(** [l[lo:hi]]; [None] is an omitted bound. *)
Definition slice {A : Type} (l : list A) (lo hi : option Z) : list A :=
  let a := slice_start (length l) lo in
  let b := slice_stop (length l) hi in
  firstn (b - a) (skipn a l).

(** Assignment of [v] to the positions [a .. b-1] of [l].  NumPy accepts a
    value of the slice's length, or of length 1 (broadcast over the slice);
    anything else is a ValueError. *)
Definition assign_range (l : vector) (a b : nat) (v : vector) : result vector :=
  let s := b - a in
  if Nat.eqb (length v) s then Ok (firstn a l ++ v ++ skipn (a + s) l)
  else match v with
       | [c] => Ok (firstn a l ++ repeat c s ++ skipn (a + s) l)
       | _ => Raise (ValueError "could not broadcast input array")
       end.

(** [l[lo:hi] = v] *)
Definition set_slice (l : vector) (lo hi : option Z) (v : vector) : result vector :=
  assign_range l (slice_start (length l) lo) (slice_stop (length l) hi) v.

(** A bound of a slice with step -1: clipped to [-1 .. len-1]. *)
Definition rev_bound (len : nat) (i : Z) : Z :=
  let j := if (i <? 0)%Z then (i + Z.of_nat len)%Z else i in
  if (j <? 0)%Z then (-1)%Z else Z.min j (Z.of_nat len - 1).

(** [l[start:stop:-1] = v]: the positions [start, start-1, .., stop+1]
    receive [v] in that order. *)
Definition set_slice_rev (l : vector) (start stop : Z) (v : vector) : result vector :=
  let s := rev_bound (length l) start in
  let e := rev_bound (length l) stop in
  assign_range l (Z.to_nat (e + 1)) (Z.to_nat (s + 1)) (rev v).

(** [l[i] = c] for an integer index. *)
Definition set_item (l : vector) (i : Z) (c : float) : result vector :=
  let j := if (i <? 0)%Z then (i + Z.of_nat (length l))%Z else i in
  if ((j <? 0) || (Z.of_nat (length l) <=? j))%Z
  then Raise (IndexError "index out of bounds")
  else Ok (firstn (Z.to_nat j) l ++ c :: skipn (S (Z.to_nat j)) l).

(** ** [low_pass_weights] *)

(** [np.sin(np.pi * k / n) * n / (np.pi * k)] *)
Definition lanczos_sigma (n : Z) (k : float) : float :=
  fdiv (fmul (fsin (fdiv (fmul np_pi k) (of_int n))) (of_int n)) (fmul np_pi k).

(** [np.sin(2. * np.pi * cutoff * k) / (np.pi * k)] *)
Definition lanczos_firstfactor (cutoff k : float) : float :=
  fdiv (fsin (fmul (fmul (fmul (Fin 2) np_pi) cutoff) k)) (fmul np_pi k).

Definition low_pass_weights (window : Z) (cutoff : float) : result vector :=
  let order := ((window - 1) / 2 + 1)%Z in
  let nwts := (2 * order + 1)%Z in
  w <- np_zeros nwts ;;
  let n := (nwts / 2)%Z in
  w <- set_item w n (fmul (Fin 2) cutoff) ;;
  let k := np_arange 1 n in
  let sigma := map (lanczos_sigma n) k in
  let firstfactor := map (lanczos_firstfactor cutoff) k in
  w <- set_slice_rev w (n - 1) 0 (map2 fmul firstfactor sigma) ;;
  w <- set_slice w (Some (n + 1)%Z) (Some (-1)%Z) (map2 fmul firstfactor sigma) ;;
  Ok (slice w (Some 1%Z) (Some (-1)%Z)).

(** ** The numeric libraries the notebook calls

    What NumPy's and SciPy's solvers and the [eofs] package compute is not
    part of the notebook; each call is an operation of this interface and
    may raise.  [eof_pcs s k] is [s.pcs(npcs=k, pcscaling=1)] and
    [eof_eofs s k c] is [s.eofs(neofs=k, eofscaling=c)] for a solver
    [s = Eof(xs, center=False, ddof=1)].  [np_cov m] is the covariance
    matrix that [np.cov(m, rowvar=False)] computes, before the squeeze that
    ends [np.cov], and [np_linalg_eigh] is [np.linalg.eigh] on a
    two-dimensional array.  [np_quicksort_order v] is the index order that
    NumPy's default sort leaves on more than 16 keys, where it partitions
    and the order among equal keys is no longer the original one. *)
Class NumLib : Type := {
  np_polyfit : vector -> vector -> Z -> result vector;
  sp_convolve_same : vector -> vector -> result vector;
  sp_butter : Z -> float -> result (vector * vector);
  sp_filtfilt : vector -> vector -> vector -> result vector;
  eof_solver : Type;
  Eof : matrix -> result eof_solver;
  eof_pcs : eof_solver -> Z -> result matrix;
  eof_eofs : eof_solver -> Z -> Z -> result matrix;
  np_cov : matrix -> result matrix;
  np_linalg_eigh : matrix -> result (vector * matrix);
  np_quicksort_order : vector -> list nat
}.

(** [np.poly1d(z)(x)]: Horner's rule, coefficients from the highest degree. *)
Definition np_polyval (z : vector) (x : float) : float :=
  fold_left (fun y c => fadd (fmul y x) c) z fzero.

(** ** [filter_padding] *)

Definition filter_padding `{NumLib} (ts : vector) (window : Z) (ftype : string)
    (detrend : bool) (detrend_poly : Z) : result vector :=
  ts_pad <- np_zeros (2 * window + Z.of_nat (length ts)) ;;
  let t := np_arange 0 (Z.of_nat (length ts)) in
  '(ts_in, p) <-
     (if detrend
      then z <- np_polyfit t ts detrend_poly ;;
           Ok (map2 fsub ts (map (np_polyval z) t), z)
      else Ok (ts, [])) ;;
  ts_pad <- set_slice ts_pad (Some window) (Some (- window)%Z) ts_in ;;
  ts_pad <-
     (if String.eqb ftype "mirror" then
        ts_pad <- set_slice ts_pad None (Some window)
                    (rev (slice ts_in None (Some window))) ;;
        set_slice ts_pad (Some (- window)%Z) None
          (rev (slice ts_in (Some (- window)%Z) None))
      else if String.eqb ftype "periodic" then
        ts_pad <- set_slice ts_pad None (Some window)
                    (slice ts_in (Some (- window)%Z) None) ;;
        set_slice ts_pad (Some (- window)%Z) None
          (slice ts_in None (Some window))
      else
        Raise (ValueError
          "in filter_padding: ftype must be one of 'mirror' or 'periodic'.")) ;;
  if detrend then
    let t_pad := np_arange (- window) (Z.of_nat (length ts) + window) in
    Ok (map2 fadd ts_pad (map (np_polyval p) t_pad))
  else Ok ts_pad.

(** ** [filter_ts] *)

(** [int(np.ceil(len(w) / 2))] *)
Definition ceil_half (n : nat) : Z := Z.of_nat ((n + 1) / 2).

Definition filter_ts `{NumLib} (ts : vector) (cutoff : Z) (filter_type padding_type : string)
    (detrend : bool) (detrend_poly : Z) : result vector :=
  inv_cutoff <-
     (if (cutoff =? 0)%Z then Raise (ZeroDivisionError "float division by zero")
      else Ok (fdiv (Fin 1) (of_int cutoff))) ;;
  lanczos_weights <- low_pass_weights (cutoff * 2 + 1) inv_cutoff ;;
  let n_pad := ceil_half (length lanczos_weights) in
  ts_mirr <- filter_padding ts n_pad padding_type detrend detrend_poly ;;
  if String.eqb filter_type "lanczos" then
    y <- sp_convolve_same ts_mirr lanczos_weights ;;
    Ok (slice y (Some n_pad) (Some (- n_pad)%Z))
  else if String.eqb filter_type "butter" then
    '(b, a) <- sp_butter 3 (fdiv (Fin 1) (fdiv (of_int cutoff) (Fin 2))) ;;
    y <- sp_filtfilt b a ts_mirr ;;
    Ok (slice y (Some n_pad) (Some (- n_pad)%Z))
  else
    Raise (ValueError
      "in filter_ts: filter_type must be one of 'lanczos' or 'butter'.").

(** The keyword arguments [lfca] forwards to [filter_ts], with the defaults
    of its signature. *)
Record filter_kwargs : Type := {
  filter_type : string;
  padding_type : string;
  detrend : bool;
  detrend_poly : Z
}.

Definition default_kwargs : filter_kwargs :=
  {| filter_type := "lanczos"; padding_type := "mirror";
     detrend := true; detrend_poly := 1 |}.

(** ** Array plumbing: two-dimensional arrays as lists of rows *)

Inductive ndarray : Type :=
| Arr1 (v : vector)
| Arr2 (m : matrix)
| Arr3 (c : list matrix).

Definition ndim (x : ndarray) : nat :=
  match x with Arr1 _ => 1 | Arr2 _ => 2 | Arr3 _ => 3 end.

Definition nrows (m : matrix) : nat := length m.
Definition ncols (m : matrix) : nat := length (hd [] m).

(** [m] is a [t] by [n] array. *)
Definition has_shape (m : matrix) (t n : nat) : Prop :=
  length m = t /\ Forall (fun row => length row = n) m.

Fixpoint mapM {A B : Type} (f : A -> result B) (l : list A) : result (list B) :=
  match l with
  | [] => Ok []
  | a :: l' => b <- f a ;; bs <- mapM f l' ;; Ok (b :: bs)
  end.

Fixpoint foldM {A S : Type} (f : S -> A -> result S) (l : list A) (s : S) : result S :=
  match l with
  | [] => Ok s
  | a :: l' => s' <- f s a ;; foldM f l' s'
  end.

(** NumPy's broadcasting rule for two one-dimensional operands. *)
Definition broadcast2 (f : float -> float -> float) (u v : vector) : result vector :=
  if Nat.eqb (length u) (length v) then Ok (map2 f u v)
  else match u, v with
       | [a], _ => Ok (map (f a) v)
       | _, [b] => Ok (map (fun a => f a b) u)
       | _, _ => Raise (ValueError "operands could not be broadcast together")
       end.

(** [np.sum(v)] *)
Definition np_sum (v : vector) : float := fold_left fadd v fzero.

(** [np.dot(u, v)] for one-dimensional operands. *)
Definition np_dot (u v : vector) : result float :=
  if Nat.eqb (length u) (length v) then Ok (np_sum (map2 fmul u v))
  else Raise (ValueError "shapes not aligned").

Definition column (j : nat) (m : matrix) : vector := map (fun row => nth j row fzero) m.

(** [m[:, j]] *)
Definition get_col (m : matrix) (j : nat) : result vector :=
  if Nat.ltb j (ncols m) then Ok (column j m)
  else Raise (IndexError "index is out of bounds for axis 1").

Definition set_nth (j : nat) (c : float) (row : vector) : vector :=
  firstn j row ++ c :: skipn (S j) row.

(** [m[:, j] = v] *)
Definition set_col (m : matrix) (j : nat) (v : vector) : result matrix :=
  if negb (Nat.ltb j (ncols m)) then Raise (IndexError "index is out of bounds for axis 1")
  else if Nat.eqb (length v) (nrows m) then Ok (map2 (fun row c => set_nth j c row) m v)
  else match v with
       | [c] => Ok (map (set_nth j c) m)
       | _ => Raise (ValueError "could not broadcast input array")
       end.

(** [np.transpose(m)] *)
Definition np_transpose (m : matrix) : matrix :=
  map (fun j => column j m) (seq 0 (ncols m)).

(** [a @ b], also [np.dot(a, b)] for two-dimensional operands. *)
Definition matmul (a b : matrix) : result matrix :=
  if Nat.eqb (ncols a) (nrows b)
  then Ok (map (fun row => map (fun j => np_sum (map2 fmul row (column j b)))
                               (seq 0 (ncols b))) a)
  else Raise (ValueError "matmul: mismatch in core dimension").

(** The mean of a column that skips [nan]: the sum of the entries that are
    not [nan] over their number, [nan] (from 0 / 0) when there is none. *)
Definition nanmean (col : vector) : float :=
  let kept := filter (fun a => negb (np_isnan a)) col in
  fdiv (np_sum kept) (of_nat (length kept)).

(** [np.mean(m, axis=0)] for the xarray DataArray [m] that [lfca] receives
    (the function reads [xs.values]): NumPy hands the call to the array's
    own [mean], and xarray's skips [nan]. *)
Definition np_mean_axis0 (m : matrix) : vector :=
  map (fun j => nanmean (column j m)) (seq 0 (ncols m)).

(** [np.mean(m, axis=0)] for a NumPy array: [nan] is not skipped. *)
Definition ndarray_mean_axis0 (m : matrix) : vector :=
  map (fun j => fdiv (np_sum (column j m)) (of_nat (nrows m))) (seq 0 (ncols m)).

(** [l[idx]] for an integer index array. *)
Definition take_idx (l : vector) (idx : list nat) : result vector :=
  mapM (fun i => if Nat.ltb i (length l) then Ok (nth i l fzero)
                 else Raise (IndexError "index out of bounds")) idx.

(** [m[:, idx]] *)
Definition take_cols (m : matrix) (idx : list nat) : result matrix :=
  mapM (fun row => take_idx row idx) m.

(** ** [np.argsort]

    The order NumPy sorts by puts [nan] last.  NumPy's default sort (an
    introsort) is a plain insertion sort on at most 16 keys, which keeps
    equal keys in their original order.  On more keys it partitions, and
    the order among equal keys depends on the implementation: there the
    index order is taken from the library interface, of which only the
    contract of [argsort] is relied on (every position listed once, keys
    ascending); an order that broke the contract would not be used. *)
Definition sort_le (a b : float) : bool :=
  match a, b with
  | _, NaN => true
  | NaN, _ => false
  | NInf, _ => true
  | _, NInf => false
  | _, PInf => true
  | PInf, _ => false
  | Fin x, Fin y => if Rle_dec x y then true else false
  end.

Fixpoint insert_idx (key : nat -> float) (i : nat) (l : list nat) : list nat :=
  match l with
  | [] => [i]
  | j :: l' => if sort_le (key i) (key j) then i :: l else j :: insert_idx key i l'
  end.

(** The stable ascending order of the positions: insertion sort. *)
Definition stable_argsort (v : vector) : list nat :=
  fold_right (insert_idx (fun i => nth i v fzero)) [] (seq 0 (length v)).

(** The keys at the positions [p] are in ascending order. *)
Fixpoint ascending (key : nat -> float) (p : list nat) : bool :=
  match p with
  | [] => true
  | i :: p' =>
      match p' with
      | [] => true
      | j :: _ => sort_le (key i) (key j) && ascending key p'
      end
  end.

(** [p] is an index array that sorts [v]: it lists every position of [v]
    once, and the keys are ascending along it. *)
Definition is_argsort (v : vector) (p : list nat) : bool :=
  Nat.eqb (length p) (length v)
  && forallb (fun i => existsb (Nat.eqb i) p) (seq 0 (length v))
  && ascending (fun i => nth i v fzero) p.

Definition np_argsort `{NumLib} (v : vector) : list nat :=
  if Nat.leb (length v) 16 then stable_argsort v
  else if is_argsort v (np_quicksort_order v) then np_quicksort_order v
  else stable_argsort v.

(** ** [lfca] *)

(** [range(n)] as array positions. *)
Definition range_nat (n : Z) : list nat := seq 0 (Z.to_nat n).

(** [np.sqrt(np.transpose(weights) / np.sum(weights))] for the 1 by N array
    of weights the notebook passes; the result is the N by 1 column, kept as
    the list of its entries. *)
Definition scale_vector (weights : vector) : vector :=
  map fsqrt (map (fun w => fdiv w (np_sum weights)) weights).

(** [x - np.mean(x, axis=0)] *)
Definition center (x : matrix) : matrix :=
  map (fun row => map2 fsub row (np_mean_axis0 x)) x.

(** [m / scale] for [m] of shape (N, K) and the column [scale] of shape
    (N', 1). *)
Definition div_rows (m : matrix) (scale : vector) : result matrix :=
  if Nat.eqb (nrows m) (length scale)
  then Ok (map2 (fun row s => map (fun a => fdiv a s) row) m scale)
  else match m, scale with
       | [row], _ => Ok (map (fun s => map (fun a => fdiv a s) row) scale)
       | _, [s] => Ok (map (map (fun a => fdiv a s)) m)
       | _, _ => Raise (ValueError "operands could not be broadcast together")
       end.

(** One pass of the loop that filters the principal components. *)
Definition filter_step `{NumLib} (cutoff : Z) (kw : filter_kwargs) (pcs : matrix)
    (pcs_filt : matrix) (i : nat) : result matrix :=
  pci <- get_col pcs i ;;
  pci_filt <- filter_ts pci cutoff kw.(filter_type) kw.(padding_type)
                kw.(detrend) kw.(detrend_poly) ;;
  set_col pcs_filt i pci_filt.

(** The reordering of the eigenpairs: [np.argsort(eig)[::-1]], then
    [eig[eig_argsort]] and [eigv[:, eig_argsort]]. *)
Definition eig_argsort `{NumLib} (eig : vector) : list nat := rev (np_argsort eig).

Definition sort_eig `{NumLib} (eig : vector) (eigv : matrix) : result (vector * matrix) :=
  eig' <- take_idx eig (eig_argsort eig) ;;
  eigv' <- take_cols eigv (eig_argsort eig) ;;
  Ok (eig', eigv').

(** One pass of the loop that chooses the sign of component [j]. *)
Definition sign_step (scale : vector) (st : matrix * matrix) (j : nat)
    : result (matrix * matrix) :=
  let '(lfps, lfcs) := st in
  pj <- get_col lfps j ;;
  d <- np_dot pj scale ;;
  if fltb d fzero then
    lfps' <- set_col lfps j (map fneg pj) ;;
    cj <- get_col lfcs j ;;
    lfcs' <- set_col lfcs j (map fneg cj) ;;
    Ok (lfps', lfcs')
  else Ok st.

(** What [np.cov] returns: its last step is [c.squeeze()], which turns the
    1 by 1 covariance of a single variable into a 0-dimensional array. *)
Inductive cov_array : Type :=
| Cov0 (a : float)
| Cov2 (c : matrix).

Definition np_squeeze (c : matrix) : cov_array :=
  match c with
  | [[a]] => Cov0 a
  | _ => Cov2 c
  end.

(** [np.linalg.eigh(a)]: an array of fewer than two dimensions is refused
    before the solver runs. *)
Definition linalg_eigh `{NumLib} (a : cov_array) : result (vector * matrix) :=
  match a with
  | Cov0 _ =>
      Raise (LinAlgError
        "0-dimensional array given. Array must be at least two-dimensional")
  | Cov2 c => np_linalg_eigh c
  end.

Definition lfca `{NumLib} (x : ndarray) (cutoff truncation : Z) (weights : vector)
    (kw : filter_kwargs) : result (matrix * matrix) :=
  match x with
  | Arr2 x =>
      let scale := scale_vector weights in
      let x := center x in
      xs <- mapM (fun row => broadcast2 fmul row scale) x ;;
      eofs_xr <- Eof xs ;;
      pcs <- eof_pcs eofs_xr truncation ;;
      pcs_filt <- foldM (filter_step cutoff kw pcs) (range_nat truncation)
                    (map (map (fun _ => fzero)) pcs) ;;
      cov_lowfreq <- np_cov pcs_filt ;;
      '(eig_lowfreq, eigv_lowfreq) <- linalg_eigh (np_squeeze cov_lowfreq) ;;
      '(eig_lowfreq, eigv_lowfreq) <- sort_eig eig_lowfreq eigv_lowfreq ;;
      e1 <- eof_eofs eofs_xr truncation 1 ;;
      uvec <- matmul (np_transpose e1) eigv_lowfreq ;;
      lfcs <- matmul xs uvec ;;
      e2 <- eof_eofs eofs_xr truncation 2 ;;
      lfps <- matmul (np_transpose e2) eigv_lowfreq ;;
      '(lfps, lfcs) <- foldM (sign_step scale) (seq 0 (ncols lfps)) (lfps, lfcs) ;;
      lfps <- div_rows lfps scale ;;
      Ok (lfcs, np_transpose lfps)
  | _ => Raise (ValueError "x must have dimension 2 for LFCA")
  end.

(** ** Vocabulary of the statements *)

Definition supported_filter (s : string) : Prop :=
  s = "lanczos"%string \/ s = "butter"%string.

Definition supported_padding (s : string) : Prop :=
  s = "mirror"%string \/ s = "periodic"%string.

(** SciPy's 'same' convolution and [filtfilt] return an array as long as
    the filtered input. *)
Definition keeps_length `{NumLib} : Prop :=
  (forall a w y, sp_convolve_same a w = Ok y -> length y = length a)
  /\ (forall b a x y, sp_filtfilt b a x = Ok y -> length y = length x).

(** The library calls that one run of [filter_ts] makes do not fail: the
    fit of the trend to [ts], and the filter on the padded series that this
    run builds. *)
Definition filter_calls_ok `{NumLib} (ts : vector) (cutoff : Z)
    (ftype ptype : string) (detrend : bool) (detrend_poly : Z) : Prop :=
  (detrend = true ->
     exists z, np_polyfit (np_arange 0 (Z.of_nat (length ts))) ts detrend_poly = Ok z)
  /\ forall taps ts_mirr,
       low_pass_weights (cutoff * 2 + 1) (fdiv (Fin 1) (of_int cutoff)) = Ok taps ->
       filter_padding ts (ceil_half (length taps)) ptype detrend detrend_poly = Ok ts_mirr ->
       (ftype = "lanczos"%string -> exists y, sp_convolve_same ts_mirr taps = Ok y)
       /\ (ftype = "butter"%string ->
           exists b a y,
             sp_butter 3 (fdiv (Fin 1) (fdiv (of_int cutoff) (Fin 2))) = Ok (b, a)
             /\ sp_filtfilt b a ts_mirr = Ok y).

(** The padded series before the trend is added back: the series between
    its reflected (mirror) or wrapped (periodic) ends. *)
Definition padded (ftype : string) (w : nat) (ts_in : vector) : vector :=
  if String.eqb ftype "mirror"
  then rev (firstn w ts_in) ++ ts_in ++ rev (skipn (length ts_in - w) ts_in)
  else skipn (length ts_in - w) ts_in ++ ts_in ++ firstn w ts_in.

(** [i] may stand before [j] in a stable ascending argsort by [key]: its key
    is not larger, and among equal keys the smaller index comes first. *)
Definition before (key : nat -> float) (i j : nat) : Prop :=
  sort_le (key i) (key j) = true /\ (sort_le (key j) (key i) = true -> i < j).

(** The order the specification describes for the eigenpairs: a stable sort
    on the negated eigenvalues. *)
Definition spec_eig_order (eig : vector) : list nat := stable_argsort (map fneg eig).


Definition finite_matrix (m : matrix) : Prop := Forall (Forall is_finite) m.

(** The matrix [lfca] hands to the EOF solver: the centered data times the
    scale vector. *)
Definition weighted_anomalies (x : matrix) (weights : vector) : result matrix :=
  mapM (fun row => broadcast2 fmul row (scale_vector weights)) (center x).

(** The library calls that one run of [lfca] makes, on the T by N array [x]
    with truncation K, succeed and return arrays of the documented shapes.
    Only the arrays of this run are concerned: the weighted matrix, its
    principal components, their filtered series and the covariance of
    these. *)
Definition library_calls_ok `{NumLib} (x : matrix) (T N K : nat) (cutoff : Z)
    (weights : vector) (kw : filter_kwargs) : Prop :=
  forall xs, weighted_anomalies x weights = Ok xs ->
    exists s P E1 E2,
      Eof xs = Ok s
      /\ eof_pcs s (Z.of_nat K) = Ok P /\ has_shape P T K
      /\ eof_eofs s (Z.of_nat K) 1 = Ok E1 /\ has_shape E1 K N
      /\ eof_eofs s (Z.of_nat K) 2 = Ok E2 /\ has_shape E2 K N
      /\ (forall i, i < K ->
            filter_calls_ok (column i P) cutoff kw.(filter_type) kw.(padding_type)
              kw.(detrend) kw.(detrend_poly))
      /\ (forall pcs_filt,
            foldM (filter_step cutoff kw P) (range_nat (Z.of_nat K))
              (map (map (fun _ => fzero)) P) = Ok pcs_filt ->
            has_shape pcs_filt T K ->
            exists c eig eigv,
              np_cov pcs_filt = Ok c /\ has_shape c K K
              /\ np_linalg_eigh c = Ok (eig, eigv)
              /\ length eig = K /\ has_shape eigv K K).

(** The patterns and the eigenvectors that the library returns in one run
    of [lfca] are finite. *)
Definition finite_run `{NumLib} (x : matrix) (cutoff truncation : Z)
    (weights : vector) (kw : filter_kwargs) : Prop :=
  forall xs s P pcs_filt c eig eigv E2,
    weighted_anomalies x weights = Ok xs ->
    Eof xs = Ok s ->
    eof_pcs s truncation = Ok P ->
    foldM (filter_step cutoff kw P) (range_nat truncation)
      (map (map (fun _ => fzero)) P) = Ok pcs_filt ->
    np_cov pcs_filt = Ok c ->
    np_linalg_eigh c = Ok (eig, eigv) ->
    eof_eofs s truncation 2 = Ok E2 ->
    finite_matrix E2 /\ finite_matrix eigv.

(** ** A small instance of the library interface

    It lets the functions run on concrete inputs.  The convolution is the
    direct 'same' convolution and [sample_cov] the sample covariance; the
    polynomial fit is the least-squares fit of degree 0 or 1, which fails
    as NumPy's does when every sample point is 0 (the one point of a series
    of one sample); the EOF solver refuses a matrix that holds no number,
    and with [eigh] it is exact only for data with a diagonal covariance
    (patterns along the coordinate axes); the sort order on long arrays is
    the stable one; no IIR filter design is provided. *)

Definition direct_convolve_same (a w : vector) : vector :=
  let off := (length w - 1) / 2 in
  map (fun i =>
         np_sum (map (fun j =>
                        if Nat.leb j (i + off) && Nat.ltb (i + off - j) (length a)
                        then fmul (nth (i + off - j) a fzero) (nth j w fzero)
                        else fzero)
                     (seq 0 (length w))))
      (seq 0 (length a)).

Definition lstsq_polyfit (x y : vector) (deg : Z) : result vector :=
  if (deg <? 0)%Z then Raise (ValueError "expected deg >= 0")
  else if Nat.eqb (length x) 0 then Raise (TypeError "expected non-empty vector for x")
  else if negb (Nat.eqb (length x) (length y))
       then Raise (TypeError "expected x and y to have same length")
  else
    let n := of_nat (length x) in
    let sx := np_sum x in
    let sy := np_sum y in
    if (deg =? 0)%Z then Ok [fdiv sy n]
    else if (deg =? 1)%Z then
      let sxy := np_sum (map2 fmul x y) in
      let sxx := np_sum (map2 fmul x x) in
      if feqb_zero sxx
      then Raise (LinAlgError "SVD did not converge in Linear Least Squares")
      else
        let slope :=
          fdiv (fsub (fmul n sxy) (fmul sx sy)) (fsub (fmul n sxx) (fmul sx sx)) in
        Ok [slope; fdiv (fsub sy (fmul slope sx)) n]
    else Raise (ValueError "degree not provided by this instance").

Definition sample_cov (m : matrix) : result matrix :=
  let d := map (fun row => map2 fsub row (ndarray_mean_axis0 m)) m in
  c <- matmul (np_transpose d) d ;;
  Ok (map (map (fun a => fdiv a (of_nat (nrows m - 1)))) c).

Definition unit_row (n i : nat) : vector :=
  map (fun j => if Nat.eqb i j then Fin 1 else fzero) (seq 0 n).

Definition axis_eofs (xs : matrix) (k : Z) : matrix :=
  map (unit_row (ncols xs)) (seq 0 (Nat.min (Z.to_nat k) (ncols xs))).

Definition diagonal_eigh (c : matrix) : vector * matrix :=
  (map (fun i => nth i (nth i c []) fzero) (seq 0 (nrows c)),
   map (unit_row (nrows c)) (seq 0 (nrows c))).

Definition all_nan (m : matrix) : bool := forallb (forallb np_isnan) m.

Definition small_lib : NumLib := {|
  np_polyfit := lstsq_polyfit;
  sp_convolve_same := fun a w => Ok (direct_convolve_same a w);
  sp_butter := fun _ _ => Raise (ValueError "filter design not provided by this instance");
  sp_filtfilt := fun _ _ x => Ok x;
  eof_solver := matrix;
  Eof := fun xs =>
    if all_nan xs
    then Raise (ValueError "all input data is missing")
    else Ok xs;
  eof_pcs := fun xs k => Ok (map (firstn (Z.to_nat k)) xs);
  eof_eofs := fun xs k _ => Ok (axis_eofs xs k);
  np_cov := sample_cov;
  np_linalg_eigh := fun c => Ok (diagonal_eigh c);
  np_quicksort_order := stable_argsort
|}.

(** The dot product of two real vectors, summed as [np_sum] does. *)
Definition rdot (a b : list R) : R := fold_left Rplus (map2 Rmult a b) 0%R.

(** Column [j] of the patterns has a non-negative dot product with the
    scale vector. *)
Definition sign_fixed (scale : vector) (lfps : matrix) (j : nat) : Prop :=
  exists d, np_dot (column j lfps) scale = Ok (Fin d) /\ (0 <= d)%R.

(** A 3 by 2 data matrix for the runs on concrete inputs. *)
Definition sample_data : matrix :=
  [[Fin 1; Fin 2]; [Fin 3; Fin 4]; [Fin 5; Fin 7]].

(** A 3 by 3 data matrix whose middle column belongs to a grid cell of
    weight 0. *)
Definition sample_masked : matrix :=
  [[Fin 1; Fin 9; Fin 2]; [Fin 3; Fin 9; Fin 4]; [Fin 5; Fin 9; Fin 7]].

(** Column [j] of both arrays is kept, or negated in both. *)
Definition flipped_together (l c l' c' : matrix) (j : nat) : Prop :=
  (column j l' = column j l /\ column j c' = column j c)
  \/ (column j l' = map fneg (column j l) /\ column j c' = map fneg (column j c)).

(** ** The evaluation loop of the notebook: masking, [lfca], re-insertion *)

(** [np.where(test(v))[0]] for the one-column array [v]: the positions
    where the test holds, in increasing order. *)
Definition np_where (test : float -> bool) (v : vector) : list nat :=
  filter (fun i => test (nth i v fzero)) (seq 0 (length v)).

(** [np.zeros((n, w))] followed by [a[:] = np.nan]. *)
Definition nan_matrix (n w : nat) : matrix := repeat (repeat NaN w) n.

(** The writes [row[idx[0]] = vals[0]], [row[idx[1]] = vals[1]], ... *)
Definition assign_at (row : vector) (idx : list nat) (vals : vector) : vector :=
  fold_left (fun r p => set_nth (fst p) (snd p) r) (combine idx vals) row.

(** NumPy's broadcasting of a value array to [n] rows of [k] entries. *)
Definition broadcast_rows (m : matrix) (n : nat) : result matrix :=
  if Nat.eqb (nrows m) n then Ok m
  else match m with
       | [row] => Ok (repeat row n)
       | _ => Raise (ValueError "shape mismatch: value array could not be broadcast")
       end.

Definition broadcast_entries (vals : vector) (k : nat) : result vector :=
  if Nat.eqb (length vals) k then Ok vals
  else match vals with
       | [c] => Ok (repeat c k)
       | _ => Raise (ValueError "shape mismatch: value array could not be broadcast")
       end.

(** [a[:, idx] = m] for an integer index array [idx]: the value is broadcast
    to one row per row of [a] and one entry per index, then written; an
    index beyond the width is an IndexError. *)
Definition set_cols (a : matrix) (idx : list nat) (m : matrix) : result matrix :=
  rows <- broadcast_rows m (nrows a) ;;
  vals <- mapM (fun row => broadcast_entries row (length idx)) rows ;;
  if forallb (fun i => Nat.ltb i (ncols a)) idx
  then Ok (map2 (fun row v => assign_at row idx v) a vals)
  else Raise (IndexError "index is out of bounds for axis 1").

(** [a @ b] where [b] is known to have [w] columns: a list of rows does not
    record the width of an array without rows, and the product over an
    empty inner dimension is the array of zeros. *)
Definition matmul_wide (a b : matrix) (w : nat) : result matrix :=
  match b with
  | [] =>
      if Nat.eqb (ncols a) 0 then Ok (map (fun _ => repeat fzero w) a)
      else Raise (ValueError "matmul: mismatch in core dimension")
  | _ => matmul a b
  end.

(** The body of the loop over the evaluation members, from the stacked data
    matrix [x_all] and the flattened area weights to the forced-response
    estimate: columns with zero weight are dropped, [lfca] runs on the rest
    with its default filter options, the patterns are put back between
    [nan] columns, and the leading [N_LFC] components are multiplied out. *)
Definition lfca_evaluation `{NumLib} (x_all : matrix) (area_weights : vector)
    (cutoff truncation N_LFC : Z) : result (matrix * matrix * matrix) :=
  let icol_ret := np_where fneb_zero area_weights in
  let icol_disc := np_where feqb_zero area_weights in
  x <- take_cols x_all icol_ret ;;
  area_weights <- take_idx area_weights icol_ret ;;
  '(lfcs, lfps) <- lfca (Arr2 x) cutoff truncation area_weights default_kwargs ;;
  let nins := length icol_disc in
  lfps_aug <- set_cols (nan_matrix (nrows lfps) (ncols lfps + nins)) icol_ret lfps ;;
  X_forced <- matmul_wide (map (fun row => slice row (Some 0%Z) (Some N_LFC)) lfcs)
                          (slice lfps_aug (Some 0%Z) (Some N_LFC))
                          (ncols lfps + nins) ;;
  Ok (lfcs, lfps_aug, X_forced).

(** ** The area weights of the evaluation loop *)

Definition fcos (a : float) : float :=
  match a with
  | Fin r => Fin (cos r)
  | _ => NaN
  end.

(** The largest finite float64. *)
Definition float64_max : R := ((2 - / 2 ^ 52) * 2 ^ 1023)%R.

(** [np.nan_to_num(a, nan=v)]: infinities become the largest finite values. *)
Definition np_nan_to_num (v : float) (a : float) : float :=
  match a with
  | NaN => v
  | PInf => Fin float64_max
  | NInf => Fin (- float64_max)
  | Fin r => Fin r
  end.

(** [np.where(np.isnan(tmp), np.nan, 1)] *)
Definition missing_mask_of (tmp : matrix) : matrix :=
  map (map (fun a => if np_isnan a then NaN else Fin 1)) tmp.

(** [np.meshgrid(xs, ys)] with the default [indexing='xy']: both arrays have
    one row per entry of [ys] and one column per entry of [xs]. *)
Definition np_meshgrid (xs ys : vector) : matrix * matrix :=
  (map (fun _ => xs) ys, map (fun y => map (fun _ => y) xs) ys).

(** An elementwise operation on two-dimensional arrays, with broadcasting
    along either axis. *)
Definition broadcast2_matrix (f : float -> float -> float) (a b : matrix) : result matrix :=
  if Nat.eqb (nrows a) (nrows b)
  then mapM (fun p => broadcast2 f (fst p) (snd p)) (combine a b)
  else match a, b with
       | [r], _ => mapM (fun row => broadcast2 f r row) b
       | _, [r] => mapM (fun row => broadcast2 f row r) a
       | _, _ => Raise (ValueError "operands could not be broadcast together")
       end.

(** The entries of a two-dimensional array in column-major order. *)
Definition ravel_F (m : matrix) : vector := concat (np_transpose m).

(** [np.reshape(m, (n, 1), order='F')], as the vector of its one column. *)
Definition np_reshape_F_column (m : matrix) (n : nat) : result vector :=
  if Nat.eqb (nrows m * ncols m) n then Ok (ravel_F m)
  else Raise (ValueError "cannot reshape array").

(** [np.reshape(v, (r, c), order='F')]: entry [(a, b)] is [v[a + r * b]]. *)
Definition np_reshape_F (v : vector) (r c : nat) : result matrix :=
  if Nat.eqb (length v) (r * c)
  then Ok (map (fun a => map (fun b => nth (a + r * b) v fzero) (seq 0 c)) (seq 0 r))
  else Raise (ValueError "cannot reshape array").

(** The weights of the evaluation loop: the missing-data mask with [nan]
    turned into 0, times the cosine of the latitude, on the (lon, lat) grid
    of [np.meshgrid], flattened in column-major order. *)
Definition masked_area_weights (missing_data_mask : matrix) (lat_axis lon_axis : vector)
    (nlat nlon : nat) : result vector :=
  let mask := map (map (np_nan_to_num (Fin 0))) missing_data_mask in
  let nfeatures := nlat * nlon in
  let '(y, x) := np_meshgrid lat_axis lon_axis in
  area <- broadcast2_matrix fmul
            (map (map (fun v => fcos (fdiv (fmul v np_pi) (Fin 180)))) y)
            (np_transpose mask) ;;
  np_reshape_F_column area nfeatures.

(** [sst_anomalies.stack(shape=['lat','lon'])] on a (time, lat, lon) array. *)
Definition stack_lat_lon (a : list matrix) : matrix := map (@concat float) a.

(** ** The maps of the plotting cell *)

Definition fabs (a : float) : float :=
  match a with
  | Fin r => Fin (Rabs r)
  | PInf | NInf => PInf
  | NaN => NaN
  end.

(** [pattern[np.where(np.abs(pattern) > 1.e5)] = np.nan] on one entry. *)
Definition blank_large (a : float) : float :=
  if fltb (Fin 100000) (fabs a) then NaN else a.

(** The map drawn for one pattern: the row reshaped to (lon, lat) in
    column-major order, large values blanked, then transposed. *)
Definition map_plot (pattern_row : vector) (nlat nlon : nat) : result matrix :=
  pattern <- np_reshape_F pattern_row nlon nlat ;;
  let pattern := map (map blank_large) pattern in
  Ok (np_transpose pattern).

(** ** The time axis of the plots *)

Record date : Type := { year : Z; month : Z }.

(** [[t.year + t.month/12 for t in time.values]] *)
Definition time_plot (time : list date) : vector :=
  map (fun t => fadd (of_int t.(year)) (fdiv (of_int t.(month)) (Fin 12))) time.

Definition valid_month (t : date) : Prop := (1 <= t.(month) <= 12)%Z.

(** [a] is an earlier month than [b]. *)
Definition date_lt (a b : date) : Prop :=
  (a.(year) < b.(year))%Z \/ (a.(year) = b.(year) /\ (a.(month) < b.(month))%Z).

(** ** The choice of the grid cell in the last plotting cell

    The cell reads the global [ftype], which no cell of the notebook binds. *)

Inductive cell_exn : Type :=
| NameError (msg : string)
| Builtin (e : exn).

Definition select_location (ftype : option string) (ncvar location : string)
    : cell_exn + option (float * float) :=
  if String.eqb ncvar "tos" then inr None
  else if String.eqb location "Zurich" then inr (Some (Fin (474 / 10), Fin (85 / 10)))
  else match ftype with
       | None => inl (NameError "name 'ftype' is not defined")
       | Some f =>
           if String.eqb f "Boulder" then inr (Some (Fin (4002 / 100), Fin (2547 / 10)))
           else inl (Builtin (ValueError "Only has options for Zurich and Boulder."))
       end.

(** ** The identifier of an evaluation file *)

(** The character of a one-character string literal. *)
Definition char_of (s : string) : Ascii.ascii :=
  match s with
  | String c _ => c
  | EmptyString => Ascii.zero
  end.

(** [s.split(sep)] for a separator of one character. *)
Fixpoint split_on (sep : Ascii.ascii) (s : string) : list string :=
  match s with
  | EmptyString => [EmptyString]
  | String c s' =>
      if Ascii.eqb c sep then EmptyString :: split_on sep s'
      else match split_on sep s' with
           | h :: t => String c h :: t
           | [] => [String c EmptyString]
           end
  end.

Fixpoint has_char (c : Ascii.ascii) (s : string) : bool :=
  match s with
  | EmptyString => false
  | String a s' => Ascii.eqb a c || has_char c s'
  end.

(** [fn.split("/")[-1].split("_")[2].split(".")[0]] *)
Definition model_of_filename (fn : string) : result string :=
  let base := last (split_on (char_of "/") fn) EmptyString in
  match nth_error (split_on (char_of "_") base) 2 with
  | None => Raise (IndexError "list index out of range")
  | Some field => Ok (hd EmptyString (split_on (char_of ".") field))
  end.

(** * Proofs

    ** Slice assignment and the taps of [low_pass_weights] *)

Lemma firstn_app_exact {A} (p q : list A) n : n = length p -> firstn n (p ++ q) = p.
Proof. intros ->. rewrite firstn_app, firstn_all, Nat.sub_diag, firstn_O. apply app_nil_r. Qed.

Lemma skipn_app_exact {A} (p q : list A) n : n = length p -> skipn n (p ++ q) = q.
Proof. intros ->. rewrite skipn_app, skipn_all, Nat.sub_diag. reflexivity. Qed.

Lemma assign_range_mid (p q r v : vector) a b :
  a = length p -> b = length p + length q ->
  length v = length q ->
  assign_range (p ++ q ++ r) a b v = Ok (p ++ v ++ r).
Proof.
  intros -> -> Hv. unfold assign_range.
  replace (length p + length q - length p) with (length q) by lia.
  rewrite Hv, Nat.eqb_refl.
  rewrite firstn_app_exact by reflexivity.
  rewrite (app_assoc p q r).
  rewrite (skipn_app_exact (p ++ q) r) by (rewrite length_app; reflexivity).
  reflexivity.
Qed.


Lemma set_item_mid (p r : vector) (c0 c : float) (i : Z) :
  i = Z.of_nat (length p) ->
  set_item (p ++ c0 :: r) i c = Ok (p ++ c :: r).
Proof.
  intros ->. unfold set_item. cbv zeta.
  repeat (rewrite (proj2 (Z.ltb_ge (Z.of_nat (length p)) 0)) by lia; cbv iota).
  rewrite (proj2 (Z.leb_gt _ _)) by (rewrite length_app; simpl; lia).
  cbn [orb]. rewrite Nat2Z.id.
  rewrite firstn_app_exact by reflexivity.
  change (p ++ c0 :: r) with (p ++ [c0] ++ r). rewrite app_assoc.
  rewrite skipn_app_exact by (rewrite length_app; simpl; lia).
  reflexivity.
Qed.

Lemma set_slice_rev_inner (z : float) (q r v : vector) (start : Z) :
  start = Z.of_nat (length q) -> r <> [] -> length v = length q ->
  set_slice_rev (z :: q ++ r) start 0 v = Ok (z :: rev v ++ r).
Proof.
  intros -> Hr Hv. unfold set_slice_rev, rev_bound.
  assert (0 < length r) by (destruct r; [congruence | simpl; lia]).
  cbn [length]. rewrite length_app. cbv zeta.
  repeat (rewrite (proj2 (Z.ltb_ge (Z.of_nat (length q)) 0)) by lia; cbv iota).
  repeat (rewrite (proj2 (Z.ltb_ge 0 0)) by lia; cbv iota).
  rewrite !Z.min_l by lia.
  change (z :: q ++ r) with ([z] ++ q ++ r).
  change (z :: rev v ++ r) with ([z] ++ rev v ++ r).
  apply assign_range_mid; simpl; try lia.
  rewrite length_rev. exact Hv.
Qed.

Lemma set_slice_inner (p q v : vector) (z : float) (lo : Z) :
  lo = Z.of_nat (length p) -> length v = length q ->
  set_slice (p ++ q ++ [z]) (Some lo) (Some (-1)%Z) v = Ok (p ++ v ++ [z]).
Proof.
  intros -> Hv. unfold set_slice, slice_start, slice_stop, slice_bound.
  rewrite (proj2 (Z.ltb_ge (Z.of_nat (length p)) 0)) by lia.
  change (-1 <? 0)%Z with true. cbv iota.
  apply assign_range_mid; rewrite ?length_app; simpl; lia.
Qed.

Lemma slice_strip_ends {A} (z z' : A) (q : list A) :
  slice (z :: q ++ [z']) (Some 1%Z) (Some (-1)%Z) = q.
Proof.
  unfold slice, slice_start, slice_stop, slice_bound.
  change (1 <? 0)%Z with false. change (-1 <? 0)%Z with true. cbv iota.
  cbn [length]. rewrite length_app. cbn [length].
  replace (Nat.min (Z.to_nat 1) (S (length q + 1))) with 1 by lia.
  cbn [skipn].
  apply firstn_app_exact. lia.
Qed.

Lemma low_pass_weights_taps (window : Z) (cutoff : float) :
  (1 <= window)%Z ->
  let n := ((window - 1) / 2 + 1)%Z in
  let k := np_arange 1 n in
  let ff := map2 fmul (map (lanczos_firstfactor cutoff) k) (map (lanczos_sigma n) k) in
  low_pass_weights window cutoff = Ok (rev ff ++ fmul (Fin 2) cutoff :: ff).
Proof.
  intros Hw n k ff.
  assert (Hn : (1 <= n)%Z) by (unfold n; pose proof (Z.div_pos (window - 1) 2); lia).
  assert (Hff : length ff = Z.to_nat (n - 1)).
  { unfold ff, map2, k, np_arange, py_range.
    rewrite length_map, length_combine, !length_map, length_seq. lia. }
  unfold low_pass_weights. fold n. fold k. fold ff.
  set (m := Z.to_nat (n - 1)) in *.
  unfold np_zeros.
  rewrite (proj2 (Z.ltb_ge _ _)) by lia. cbn [bind].
  replace ((2 * n + 1) / 2)%Z with n by (apply Z.div_unique with 1%Z; lia).
  replace (Z.to_nat (2 * n + 1)) with (S m + S (S m)) by lia.
  rewrite repeat_app.
  change (repeat fzero (S (S m))) with (fzero :: repeat fzero (S m)).
  rewrite set_item_mid by (rewrite repeat_length; lia). cbn [bind].
  change (repeat fzero (S m)) with (fzero :: repeat fzero m) at 1.
  replace (repeat fzero (S m)) with (repeat fzero m ++ [fzero])
    by (rewrite <- repeat_cons; reflexivity).
  cbn [app].
  rewrite (set_slice_rev_inner fzero (repeat fzero m) _ ff);
    [ | rewrite repeat_length; lia | discriminate | rewrite repeat_length; exact Hff ].
  cbn [bind].
  fold k. fold ff.
  set (c := fmul (Fin 2) cutoff).
  replace (fzero :: rev ff ++ c :: repeat fzero m ++ [fzero])
    with ((fzero :: rev ff ++ [c]) ++ repeat fzero m ++ [fzero])
    by (cbn [app]; rewrite <- app_assoc; reflexivity).
  rewrite set_slice_inner;
    [ | cbn [length]; rewrite length_app, length_rev; cbn [length]; lia
      | rewrite repeat_length; exact Hff ].
  cbn [bind].
  replace ((fzero :: rev ff ++ [c]) ++ ff ++ [fzero])
    with (fzero :: (rev ff ++ c :: ff) ++ [fzero])
    by (cbn [app]; rewrite <- !app_assoc; reflexivity).
  rewrite slice_strip_ends. reflexivity.
Qed.

(** ** Slice bounds *)

Lemma slice_bound_nonneg len i : (0 <= i)%Z -> slice_bound len i = Nat.min (Z.to_nat i) len.
Proof. intros. unfold slice_bound. rewrite (proj2 (Z.ltb_ge i 0)) by lia. reflexivity. Qed.

Lemma slice_bound_neg len i : (i < 0)%Z -> slice_bound len i = Z.to_nat (Z.of_nat len + i).
Proof. intros. unfold slice_bound. rewrite (proj2 (Z.ltb_lt i 0)) by lia. reflexivity. Qed.

Lemma slice_bound_le len i : slice_bound len i <= len.
Proof. unfold slice_bound. destruct (Z.ltb_spec i 0); lia. Qed.

Lemma assign_range_length (l v l' : vector) a b :
  a <= length l -> b <= length l ->
  assign_range l a b v = Ok l' -> length l' = length l.
Proof.
  unfold assign_range. intros Ha Hb.
  destruct (Nat.eqb_spec (length v) (b - a)) as [E|E].
  - intros [= <-]. rewrite !length_app, length_firstn, length_skipn. lia.
  - destruct v as [|c [|]]; try discriminate.
    intros [= <-]. rewrite !length_app, length_firstn, length_skipn, repeat_length. lia.
Qed.

Lemma set_slice_length (l v l' : vector) lo hi :
  set_slice l lo hi v = Ok l' -> length l' = length l.
Proof.
  unfold set_slice. apply assign_range_length.
  - destruct lo; simpl; [apply slice_bound_le | lia].
  - destruct hi; simpl; [apply slice_bound_le | lia].
Qed.

Lemma set_slice_prefix (q r v : vector) w :
  w = length q -> length v = length q ->
  set_slice (q ++ r) None (Some (Z.of_nat w)) v = Ok (v ++ r).
Proof.
  intros -> Hv. unfold set_slice. cbn [slice_start slice_stop].
  rewrite slice_bound_nonneg by lia.
  apply (assign_range_mid [] q r v); simpl; try lia.
  rewrite length_app. lia.
Qed.

Lemma set_slice_suffix (p q v : vector) w :
  0 < w -> w = length q -> length v = length q ->
  set_slice (p ++ q) (Some (- Z.of_nat w)%Z) None v = Ok (p ++ v).
Proof.
  intros Hw -> Hv. unfold set_slice. cbn [slice_start slice_stop].
  rewrite slice_bound_neg by lia.
  pose proof (assign_range_mid p q [] v
                (Z.to_nat (Z.of_nat (length (p ++ q)) + - Z.of_nat (length q)))
                (length (p ++ q))) as E.
  rewrite !app_nil_r in E. apply E; rewrite ?length_app; lia.
Qed.

Lemma set_slice_middle (p q r v : vector) w :
  0 < w -> w = length p -> w = length r -> length v = length q ->
  set_slice (p ++ q ++ r) (Some (Z.of_nat w)) (Some (- Z.of_nat w)%Z) v = Ok (p ++ v ++ r).
Proof.
  intros Hw Hp Hr Hv. unfold set_slice. cbn [slice_start slice_stop].
  rewrite slice_bound_nonneg by lia. rewrite slice_bound_neg by lia.
  apply assign_range_mid; rewrite ?length_app; simpl; lia.
Qed.

Lemma slice_prefix {A} (l : list A) w : slice l None (Some (Z.of_nat w)) = firstn w l.
Proof.
  unfold slice. cbn [slice_start slice_stop]. rewrite slice_bound_nonneg by lia.
  rewrite skipn_O, Nat.sub_0_r, Nat2Z.id.
  destruct (Nat.le_gt_cases w (length l)).
  - rewrite Nat.min_l by lia. reflexivity.
  - rewrite Nat.min_r by lia. rewrite !firstn_all2 by lia. reflexivity.
Qed.

Lemma slice_suffix {A} (l : list A) w :
  0 < w -> slice l (Some (- Z.of_nat w)%Z) None = skipn (length l - w) l.
Proof.
  intros. unfold slice. cbn [slice_start slice_stop]. rewrite slice_bound_neg by lia.
  replace (Z.to_nat (Z.of_nat (length l) + - Z.of_nat w)) with (length l - w) by lia.
  apply firstn_all2. rewrite length_skipn. lia.
Qed.

(** ** The padding block of [filter_padding] *)

Lemma pad_block {B : Type} (k : vector -> result B) (ft : string) (w : nat) (ts_in : vector) :
  0 < w <= length ts_in -> ft = "mirror"%string \/ ft = "periodic"%string ->
  (ts_pad <- set_slice (repeat fzero (Z.to_nat (2 * Z.of_nat w + Z.of_nat (length ts_in))))
               (Some (Z.of_nat w)) (Some (- Z.of_nat w)%Z) ts_in ;;
   ts_pad <-
     (if String.eqb ft "mirror" then
        ts_pad <- set_slice ts_pad None (Some (Z.of_nat w))
                    (rev (slice ts_in None (Some (Z.of_nat w)))) ;;
        set_slice ts_pad (Some (- Z.of_nat w)%Z) None
          (rev (slice ts_in (Some (- Z.of_nat w)%Z) None))
      else if String.eqb ft "periodic" then
        ts_pad <- set_slice ts_pad None (Some (Z.of_nat w))
                    (slice ts_in (Some (- Z.of_nat w)%Z) None) ;;
        set_slice ts_pad (Some (- Z.of_nat w)%Z) None
          (slice ts_in None (Some (Z.of_nat w)))
      else
        Raise (ValueError
          "in filter_padding: ftype must be one of 'mirror' or 'periodic'.")) ;;
   k ts_pad)
  = k (padded ft w ts_in).
Proof.
  intros [Hw Hl] Hft.
  replace (Z.to_nat (2 * Z.of_nat w + Z.of_nat (length ts_in)))
    with (w + (length ts_in + w)) by lia.
  rewrite !repeat_app.
  rewrite set_slice_middle; rewrite ?repeat_length; try lia.
  cbn [bind]. rewrite slice_prefix, slice_suffix by lia.
  assert (Hf : length (firstn w ts_in) = w) by (rewrite length_firstn; lia).
  assert (Hs : length (skipn (length ts_in - w) ts_in) = w) by (rewrite length_skipn; lia).
  unfold padded.
  destruct Hft as [-> | ->]; cbn [String.eqb Ascii.eqb Bool.eqb].
  - rewrite set_slice_prefix; rewrite ?repeat_length, ?length_rev; try lia.
    cbn [bind]. rewrite app_assoc.
    rewrite set_slice_suffix; rewrite ?repeat_length, ?length_rev; try lia.
    cbn [bind]. rewrite <- app_assoc. reflexivity.
  - rewrite set_slice_prefix; rewrite ?repeat_length; try lia.
    cbn [bind]. rewrite app_assoc.
    rewrite set_slice_suffix; rewrite ?repeat_length; try lia.
    cbn [bind]. rewrite <- app_assoc. reflexivity.
Qed.

Lemma filter_padding_eq `{NumLib} (ts : vector) (w : nat) (ft : string) (d : bool) (dp : Z) :
  0 < w <= length ts -> ft = "mirror"%string \/ ft = "periodic"%string ->
  filter_padding ts (Z.of_nat w) ft d dp =
  if d then
    z <- np_polyfit (np_arange 0 (Z.of_nat (length ts))) ts dp ;;
    Ok (map2 fadd
          (padded ft w (map2 fsub ts (map (np_polyval z) (np_arange 0 (Z.of_nat (length ts))))))
          (map (np_polyval z) (np_arange (- Z.of_nat w) (Z.of_nat (length ts) + Z.of_nat w))))
  else Ok (padded ft w ts).
Proof.
  intros Hw Hft. unfold filter_padding, np_zeros.
  rewrite (proj2 (Z.ltb_ge _ 0)) by lia. cbn [bind].
  destruct d.
  - destruct (np_polyfit _ ts dp) as [z|e]; cbn [bind]; [|reflexivity].
    set (ts_in := map2 fsub ts _).
    assert (Hl : length ts_in = length ts).
    { unfold ts_in, map2, np_arange, py_range.
      rewrite length_map, length_combine, !length_map, length_seq. lia. }
    rewrite <- Hl. rewrite pad_block by (rewrite ?Hl; auto). rewrite Hl. reflexivity.
  - cbn [bind]. rewrite pad_block by auto. reflexivity.
Qed.

(** ** Element access *)

Lemma length_map2 {A B C} (f : A -> B -> C) u v :
  length (map2 f u v) = Nat.min (length u) (length v).
Proof. unfold map2. rewrite length_map, length_combine. reflexivity. Qed.

Lemma nth_map2 {A B C} (f : A -> B -> C) u v i da db dc :
  i < length u -> i < length v ->
  nth i (map2 f u v) dc = f (nth i u da) (nth i v db).
Proof.
  unfold map2. revert v i. induction u as [|a u IH]; intros v i Hu Hv; [simpl in Hu; lia|].
  destruct v as [|b v]; [simpl in Hv; lia|].
  destruct i as [|i]; [reflexivity|].
  cbn [combine map nth]. apply IH; simpl in *; lia.
Qed.

Lemma length_np_arange a b : length (np_arange a b) = Z.to_nat (b - a).
Proof. unfold np_arange, py_range. rewrite !length_map, length_seq. reflexivity. Qed.

Lemma nth_np_arange a b i d :
  i < Z.to_nat (b - a) -> nth i (np_arange a b) d = of_int (a + Z.of_nat i).
Proof.
  intros Hi. unfold np_arange, py_range.
  rewrite (nth_indep _ d (of_int 0)) by (rewrite !length_map, length_seq; lia).
  rewrite (map_nth of_int), (nth_indep _ 0%Z ((fun k => (a + Z.of_nat k)%Z) 0))
    by (rewrite length_map, length_seq; lia).
  rewrite (map_nth (fun k => (a + Z.of_nat k)%Z)), seq_nth by lia. reflexivity.
Qed.

Lemma np_polyval_finite z x :
  Forall is_finite z -> is_finite x -> is_finite (np_polyval z x).
Proof.
  intros Hz Hx. unfold np_polyval.
  assert (Hacc : is_finite fzero) by exact I.
  revert Hacc. generalize fzero as acc.
  induction Hz as [|c z Hc Hz IH]; intros acc Hacc; cbn [fold_left]; [exact Hacc|].
  apply IH. destruct acc, x, c; simpl in *; tauto.
Qed.

Lemma fsub_fadd_cancel a b : is_finite b -> fadd (fsub a b) b = a.
Proof.
  destruct b as [y| | |]; simpl; try tauto. intros _.
  destruct a as [x| | |]; simpl; try reflexivity.
  f_equal. ring.
Qed.

Lemma length_padded ft w l : w <= length l -> length (padded ft w l) = w + length l + w.
Proof.
  intros. unfold padded.
  destruct (String.eqb ft "mirror");
    rewrite !length_app, ?length_rev, length_firstn, length_skipn; lia.
Qed.

Lemma nth_padded_middle ft w l i d :
  w <= length l -> i < length l -> nth (w + i) (padded ft w l) d = nth i l d.
Proof.
  intros Hw Hi. unfold padded.
  destruct (String.eqb ft "mirror").
  - rewrite app_nth2; rewrite length_rev, length_firstn; [|lia].
    replace (w + i - Nat.min w (length l)) with i by lia.
    apply app_nth1. lia.
  - rewrite app_nth2; rewrite length_skipn; [|lia].
    replace (w + i - (length l - (length l - w))) with i by lia.
    apply app_nth1. lia.
Qed.

(** ** The middle of the padded series *)

(** C10 (as amended): for a padding length [0 < window <= len(ts)], both
    padding kinds and both detrend settings, when the polynomial fit (if
    detrending) succeeds with finite coefficients, [filter_padding] returns
    a series of length [len(ts) + 2 * window] whose entries
    [window .. window + len(ts) - 1] are the input series, in exact
    arithmetic: the trend subtracted before padding is added back over the
    same positions. *)
Theorem filter_padding_middle `{NumLib} (ts : vector) (window : Z) (ftype : string)
    (detrend : bool) (detrend_poly : Z) :
  (0 < window <= Z.of_nat (length ts))%Z ->
  ftype = "mirror"%string \/ ftype = "periodic"%string ->
  (detrend = true ->
   exists z, np_polyfit (np_arange 0 (Z.of_nat (length ts))) ts detrend_poly = Ok z
             /\ Forall is_finite z) ->
  exists ts_pad,
    filter_padding ts window ftype detrend detrend_poly = Ok ts_pad
    /\ length ts_pad = length ts + 2 * Z.to_nat window
    /\ firstn (length ts) (skipn (Z.to_nat window) ts_pad) = ts.
Proof.
  intros Hw Hft Hfit.
  set (w := Z.to_nat window).
  replace window with (Z.of_nat w) by lia.
  assert (Hw' : 0 < w <= length ts) by lia.
  rewrite filter_padding_eq by assumption.
  assert (Hmid : forall pad : vector,
            length pad = length ts + 2 * w ->
            (forall i, i < length ts -> nth (w + i) pad fzero = nth i ts fzero) ->
            firstn (length ts) (skipn w pad) = ts).
  { intros pad Hlen Hnth.
    apply (nth_ext _ _ fzero fzero).
    - rewrite length_firstn, length_skipn. lia.
    - intros i Hi. rewrite length_firstn, length_skipn in Hi.
      rewrite nth_firstn.
      destruct (Nat.ltb_spec i (length ts)); [|lia].
      rewrite nth_skipn. apply Hnth. assumption. }
  destruct detrend.
  - destruct (Hfit eq_refl) as (z & -> & Hz). cbn [bind].
    set (t := np_arange 0 (Z.of_nat (length ts))).
    set (ts_in := map2 fsub ts (map (np_polyval z) t)).
    set (t_pad := np_arange (- Z.of_nat w) (Z.of_nat (length ts) + Z.of_nat w)).
    assert (Ht : length t = length ts) by (unfold t; rewrite length_np_arange; lia).
    assert (Hin : length ts_in = length ts)
      by (unfold ts_in; rewrite length_map2, length_map; lia).
    assert (Htp : length t_pad = length ts + 2 * w)
      by (unfold t_pad; rewrite length_np_arange; lia).
    assert (Hlen : length (map2 fadd (padded ftype w ts_in) (map (np_polyval z) t_pad))
                   = length ts + 2 * w)
      by (rewrite length_map2, length_map, length_padded; lia).
    eexists. split; [reflexivity|]. split; [exact Hlen|].
    apply Hmid; [exact Hlen|].
    intros i Hi.
    rewrite (nth_map2 fadd _ _ _ fzero fzero)
      by (rewrite ?length_map, ?length_padded; lia).
    rewrite nth_padded_middle by lia.
    unfold ts_in.
    rewrite (nth_map2 fsub _ _ _ fzero fzero) by (rewrite ?length_map; lia).
    rewrite (nth_indep (map (np_polyval z) t) fzero (np_polyval z fzero)) by (rewrite length_map; lia).
    rewrite (nth_indep (map (np_polyval z) t_pad) fzero (np_polyval z fzero)) by (rewrite length_map; lia).
    rewrite !map_nth.
    unfold t, t_pad. rewrite !nth_np_arange by lia.
    replace (- Z.of_nat w + Z.of_nat (w + i))%Z with (0 + Z.of_nat i)%Z by lia.
    apply fsub_fadd_cancel.
    apply np_polyval_finite; [exact Hz | exact I].
  - eexists. split; [reflexivity|].
    assert (Hlen : length (padded ftype w ts) = length ts + 2 * w)
      by (rewrite length_padded; lia).
    split; [exact Hlen|].
    apply Hmid; [exact Hlen|].
    intros i Hi. apply nth_padded_middle; lia.
Qed.

(** ** Error propagation and lengths in [filter_ts] *)

Lemma bind_Ok {A B} (m : result A) (k : A -> result B) y :
  bind m k = Ok y -> exists a, m = Ok a /\ k a = Ok y.
Proof. destruct m; simpl; [eauto | discriminate]. Qed.

Lemma bind_raises_l {A B} (m : result A) (k : A -> result B) :
  raises m -> raises (bind m k).
Proof. intros [e ->]. exists e. reflexivity. Qed.

Lemma bind_raises_r {A B} (m : result A) (k : A -> result B) :
  (forall a, raises (k a)) -> raises (bind m k).
Proof. intros Hk. destruct m as [a|e]; simpl; [apply Hk | exists e; reflexivity]. Qed.

Lemma filter_padding_length `{NumLib} ts window ft d dp ts_pad :
  filter_padding ts window ft d dp = Ok ts_pad ->
  length ts_pad = Z.to_nat (2 * window + Z.of_nat (length ts)).
Proof.
  unfold filter_padding, np_zeros. intros Hr.
  destruct (Z.ltb_spec (2 * window + Z.of_nat (length ts)) 0); [discriminate|].
  cbn [bind] in Hr.
  apply bind_Ok in Hr as ([ts_in p] & _ & Hr).
  apply bind_Ok in Hr as (p1 & H1 & Hr).
  apply set_slice_length in H1. rewrite repeat_length in H1.
  apply bind_Ok in Hr as (p2 & H2 & Hr).
  assert (Hp2 : length p2 = length p1).
  { destruct (String.eqb ft "mirror").
    - apply bind_Ok in H2 as (p3 & H3 & H2).
      apply set_slice_length in H3, H2. congruence.
    - destruct (String.eqb ft "periodic"); [|discriminate].
      apply bind_Ok in H2 as (p3 & H3 & H2).
      apply set_slice_length in H3, H2. congruence. }
  destruct d; injection Hr as <-.
  - rewrite length_map2, length_map, length_np_arange. lia.
  - lia.
Qed.

Lemma filter_padding_bad_ftype `{NumLib} ts window ft d dp :
  ft <> "mirror"%string -> ft <> "periodic"%string ->
  raises (filter_padding ts window ft d dp).
Proof.
  intros H1 H2. unfold filter_padding.
  apply bind_raises_r; intros p0.
  apply bind_raises_r; intros [ts_in p].
  apply bind_raises_r; intros p1.
  apply bind_raises_l.
  rewrite (proj2 (String.eqb_neq _ _) H1), (proj2 (String.eqb_neq _ _) H2).
  eexists; reflexivity.
Qed.

Lemma taps_for_cutoff (cutoff : Z) (c : float) :
  (1 <= cutoff)%Z ->
  exists taps, low_pass_weights (cutoff * 2 + 1) c = Ok taps
               /\ length taps = Z.to_nat (2 * cutoff + 1)
               /\ ceil_half (length taps) = (cutoff + 1)%Z.
Proof.
  intros Hc. rewrite low_pass_weights_taps by lia.
  replace ((cutoff * 2 + 1 - 1) / 2 + 1)%Z with (cutoff + 1)%Z
    by (rewrite Z.add_simpl_r, Z.div_mul; lia).
  eexists. split; [reflexivity|].
  match goal with |- length ?l = _ /\ _ => assert (Hl : length l = Z.to_nat (2 * cutoff + 1)) end.
  { rewrite length_app, length_rev. cbn [length].
    rewrite length_map2, !length_map, length_np_arange. lia. }
  split; [exact Hl|]. rewrite Hl. unfold ceil_half.
  replace (Z.to_nat (2 * cutoff + 1) + 1) with (Z.to_nat (cutoff + 1) * 2) by lia.
  rewrite Nat.div_mul by lia. lia.
Qed.

Lemma slice_middle_length {A} (y : list A) (w : Z) (len : nat) :
  (0 < w)%Z -> length y = len + 2 * Z.to_nat w ->
  length (slice y (Some w) (Some (- w)%Z)) = len.
Proof.
  intros Hw Hy. unfold slice. cbn [slice_start slice_stop].
  rewrite (slice_bound_nonneg _ w), (slice_bound_neg _ (- w)) by lia.
  rewrite length_firstn, length_skipn. lia.
Qed.

Lemma filter_ts_length `{NumLib} ts cutoff ft pt d dp out :
  (1 <= cutoff)%Z -> keeps_length ->
  filter_ts ts cutoff ft pt d dp = Ok out -> length out = length ts.
Proof.
  intros Hc [Hconv Hff] Hr. unfold filter_ts in Hr.
  rewrite (proj2 (Z.eqb_neq cutoff 0)) in Hr by lia. cbn [bind] in Hr.
  destruct (taps_for_cutoff cutoff (fdiv (Fin 1) (of_int cutoff)) Hc) as (taps & Ht & _ & Hn).
  rewrite Ht in Hr. cbn [bind] in Hr. rewrite Hn in Hr.
  apply bind_Ok in Hr as (ts_mirr & Hpad & Hr).
  apply filter_padding_length in Hpad.
  assert (Hy : forall y : vector, length y = length ts_mirr ->
                 length (slice y (Some (cutoff + 1)%Z) (Some (- (cutoff + 1))%Z)) = length ts).
  { intros y Hy. apply slice_middle_length; lia. }
  destruct (String.eqb ft "lanczos").
  - apply bind_Ok in Hr as (y & Hcv & [= <-]). apply Hy. eapply Hconv; eassumption.
  - destruct (String.eqb ft "butter"); [|discriminate].
    apply bind_Ok in Hr as ([b a] & _ & Hr).
    apply bind_Ok in Hr as (y & Hf & [= <-]). apply Hy. eapply Hff; eassumption.
Qed.

Lemma filter_ts_unsupported `{NumLib} ts cutoff ft pt d dp :
  ~ supported_filter ft \/ ~ supported_padding pt ->
  raises (filter_ts ts cutoff ft pt d dp).
Proof.
  intros Hbad. unfold filter_ts.
  apply bind_raises_r; intros inv.
  apply bind_raises_r; intros taps.
  destruct Hbad as [Hft | Hpt].
  - apply bind_raises_r; intros ts_mirr.
    assert (ft <> "lanczos"%string) as H1 by (intros ->; apply Hft; left; reflexivity).
    assert (ft <> "butter"%string) as H2 by (intros ->; apply Hft; right; reflexivity).
    rewrite (proj2 (String.eqb_neq _ _) H1), (proj2 (String.eqb_neq _ _) H2).
    eexists; reflexivity.
  - apply bind_raises_l. apply filter_padding_bad_ftype.
    + intros ->; apply Hpt; left; reflexivity.
    + intros ->; apply Hpt; right; reflexivity.
Qed.

Lemma filter_ts_returns_run `{NumLib} ts cutoff ft pt d dp :
  (1 <= cutoff)%Z -> (cutoff + 1 <= Z.of_nat (length ts))%Z ->
  supported_filter ft -> supported_padding pt ->
  filter_calls_ok ts cutoff ft pt d dp ->
  exists out, filter_ts ts cutoff ft pt d dp = Ok out.
Proof.
  intros Hc Hlen Hft Hpt (Hfit & Hrun). unfold filter_ts.
  rewrite (proj2 (Z.eqb_neq cutoff 0)) by lia. cbn [bind].
  destruct (taps_for_cutoff cutoff (fdiv (Fin 1) (of_int cutoff)) Hc) as (taps & Ht & _ & Hn).
  specialize (Hrun taps). rewrite Ht. cbn [bind]. rewrite Hn in *.
  set (w := Z.to_nat (cutoff + 1)) in *.
  replace (cutoff + 1)%Z with (Z.of_nat w) in * by lia.
  assert (exists ts_mirr, filter_padding ts (Z.of_nat w) pt d dp = Ok ts_mirr)
    as (ts_mirr & Hpad).
  { rewrite filter_padding_eq by (auto; lia).
    destruct d; [|eauto]. destruct (Hfit eq_refl) as (z & ->). cbn [bind]. eauto. }
  rewrite Hpad. cbn [bind].
  destruct (Hrun ts_mirr Ht Hpad) as (Hconv & Hbut).
  destruct Hft as [-> | ->]; cbn [String.eqb Ascii.eqb Bool.eqb].
  - destruct (Hconv eq_refl) as (y & ->). cbn [bind]. eauto.
  - destruct (Hbut eq_refl) as (b & a & y & -> & Hf). cbn [bind].
    rewrite Hf. cbn [bind]. eauto.
Qed.

Lemma assign_range_mismatch (l v : vector) a b :
  length v <> b - a -> length v <> 1 ->
  assign_range l a b v = Raise (ValueError "could not broadcast input array").
Proof.
  intros H1 H2. unfold assign_range.
  rewrite (proj2 (Nat.eqb_neq _ _) H1).
  destruct v as [|c [|]]; try reflexivity. simpl in H2. lia.
Qed.

Lemma filter_padding_too_long `{NumLib} (ts : vector) (window : Z)
    (ftype : string) (detrend : bool) (detrend_poly : Z) :
  (2 <= length ts) -> (Z.of_nat (length ts) < window)%Z ->
  supported_padding ftype ->
  (detrend = true ->
   exists z, np_polyfit (np_arange 0 (Z.of_nat (length ts))) ts detrend_poly = Ok z) ->
  filter_padding ts window ftype detrend detrend_poly
  = Raise (ValueError "could not broadcast input array").
Proof.
  intros Hlen Hw Hft Hfit. unfold filter_padding, np_zeros.
  rewrite (proj2 (Z.ltb_ge _ 0)) by lia. cbn [bind].
  set (w := Z.to_nat window). replace window with (Z.of_nat w) by (unfold w; lia).
  assert (Hgo : forall (k : vector -> result vector) (ts_in : vector),
    length ts_in = length ts ->
    (ts_pad <- set_slice (repeat fzero (Z.to_nat (2 * Z.of_nat w + Z.of_nat (length ts))))
                 (Some (Z.of_nat w)) (Some (- Z.of_nat w)%Z) ts_in ;;
     ts_pad <-
     (if String.eqb ftype "mirror" then
        ts_pad <- set_slice ts_pad None (Some (Z.of_nat w))
                    (rev (slice ts_in None (Some (Z.of_nat w)))) ;;
        set_slice ts_pad (Some (- Z.of_nat w)%Z) None
          (rev (slice ts_in (Some (- Z.of_nat w)%Z) None))
      else if String.eqb ftype "periodic" then
        ts_pad <- set_slice ts_pad None (Some (Z.of_nat w))
                    (slice ts_in (Some (- Z.of_nat w)%Z) None) ;;
        set_slice ts_pad (Some (- Z.of_nat w)%Z) None
          (slice ts_in None (Some (Z.of_nat w)))
      else
        Raise (ValueError
          "in filter_padding: ftype must be one of 'mirror' or 'periodic'.")) ;;
     k ts_pad)
    = Raise (ValueError "could not broadcast input array")).
  { intros k ts_in Hin.
    replace (Z.to_nat (2 * Z.of_nat w + Z.of_nat (length ts)))
      with (w + (length ts + w)) by lia.
    rewrite !repeat_app.
    rewrite set_slice_middle; rewrite ?repeat_length; try (unfold w; lia).
    cbn [bind].
    assert (Hs : forall pad v, length pad = w + (length ts + w) -> length v = length ts ->
               set_slice pad None (Some (Z.of_nat w)) v
               = Raise (ValueError "could not broadcast input array")).
    { intros pad v Hp Hv. unfold set_slice. cbn [slice_start slice_stop].
      rewrite slice_bound_nonneg by lia.
      apply assign_range_mismatch; rewrite ?Hv, ?Hp; unfold w; lia. }
    destruct Hft as [-> | ->]; cbn [String.eqb Ascii.eqb Bool.eqb].
    - rewrite Hs; [reflexivity | rewrite !length_app, !repeat_length; lia|].
      rewrite length_rev, slice_prefix, firstn_all2 by (unfold w; lia). exact Hin.
    - rewrite Hs; [reflexivity | rewrite !length_app, !repeat_length; lia|].
      rewrite slice_suffix by (unfold w; lia).
      replace (length ts_in - w) with 0 by (unfold w; lia). exact Hin. }
  destruct detrend.
  - destruct (Hfit eq_refl) as (z & ->). cbn [bind].
    apply Hgo. rewrite length_map2, length_map, length_np_arange. lia.
  - cbn [bind]. apply Hgo. reflexivity.
Qed.

Lemma filter_ts_short_series `{NumLib} ts cutoff ft pt d dp :
  (1 <= cutoff)%Z -> 2 <= length ts -> (Z.of_nat (length ts) < cutoff + 1)%Z ->
  supported_padding pt ->
  (d = true ->
   exists z, np_polyfit (np_arange 0 (Z.of_nat (length ts))) ts dp = Ok z) ->
  filter_ts ts cutoff ft pt d dp = Raise (ValueError "could not broadcast input array").
Proof.
  intros Hc Hl Hlt Hpt Hfit. unfold filter_ts.
  rewrite (proj2 (Z.eqb_neq cutoff 0)) by lia. cbn [bind].
  destruct (taps_for_cutoff cutoff (fdiv (Fin 1) (of_int cutoff)) Hc) as (taps & -> & _ & Hn).
  cbn [bind]. rewrite Hn.
  rewrite filter_padding_too_long by assumption. reflexivity.
Qed.

Lemma filter_padding_unsupported `{NumLib} ts window ft d dp :
  (0 < window)%Z -> ~ supported_padding ft ->
  (d = true ->
   exists z, np_polyfit (np_arange 0 (Z.of_nat (length ts))) ts dp = Ok z) ->
  filter_padding ts window ft d dp
  = Raise (ValueError "in filter_padding: ftype must be one of 'mirror' or 'periodic'.").
Proof.
  intros Hw Hft Hfit. unfold filter_padding, np_zeros.
  rewrite (proj2 (Z.ltb_ge _ 0)) by lia. cbn [bind].
  assert (H1 : String.eqb ft "mirror" = false).
  { apply String.eqb_neq. intros ->. apply Hft. left. reflexivity. }
  assert (H2 : String.eqb ft "periodic" = false).
  { apply String.eqb_neq. intros ->. apply Hft. right. reflexivity. }
  rewrite H1, H2.
  set (w := Z.to_nat window). replace window with (Z.of_nat w) by (unfold w; lia).
  assert (Hgo : forall (ts_in : vector), length ts_in = length ts ->
    exists p1, set_slice (repeat fzero (Z.to_nat (2 * Z.of_nat w + Z.of_nat (length ts))))
                 (Some (Z.of_nat w)) (Some (- Z.of_nat w)%Z) ts_in = Ok p1).
  { intros ts_in Hin.
    replace (Z.to_nat (2 * Z.of_nat w + Z.of_nat (length ts)))
      with (w + (length ts + w)) by lia.
    rewrite !repeat_app.
    rewrite set_slice_middle; rewrite ?repeat_length; try (unfold w; lia). eauto. }
  destruct d.
  - destruct (Hfit eq_refl) as (z & ->). cbn [bind].
    destruct (Hgo (map2 fsub ts (map (np_polyval z) (np_arange 0 (Z.of_nat (length ts))))))
      as (p1 & ->); [|reflexivity].
    rewrite length_map2, length_map, length_np_arange. lia.
  - cbn [bind]. destruct (Hgo ts eq_refl) as (p1 & ->). reflexivity.
Qed.

Lemma filter_ts_unsupported_padding `{NumLib} ts cutoff ft pt d dp :
  (1 <= cutoff)%Z -> ~ supported_padding pt ->
  (d = true ->
   exists z, np_polyfit (np_arange 0 (Z.of_nat (length ts))) ts dp = Ok z) ->
  filter_ts ts cutoff ft pt d dp
  = Raise (ValueError "in filter_padding: ftype must be one of 'mirror' or 'periodic'.").
Proof.
  intros Hc Hpt Hfit. unfold filter_ts.
  rewrite (proj2 (Z.eqb_neq cutoff 0)) by lia. cbn [bind].
  destruct (taps_for_cutoff cutoff (fdiv (Fin 1) (of_int cutoff)) Hc) as (taps & -> & _ & Hn).
  cbn [bind]. rewrite Hn.
  rewrite filter_padding_unsupported by (auto; lia). reflexivity.
Qed.

Lemma filter_ts_unsupported_filter `{NumLib} ts cutoff ft pt d dp :
  (1 <= cutoff)%Z -> (cutoff + 1 <= Z.of_nat (length ts))%Z ->
  ~ supported_filter ft -> supported_padding pt ->
  (d = true ->
   exists z, np_polyfit (np_arange 0 (Z.of_nat (length ts))) ts dp = Ok z) ->
  filter_ts ts cutoff ft pt d dp
  = Raise (ValueError "in filter_ts: filter_type must be one of 'lanczos' or 'butter'.").
Proof.
  intros Hc Hlen Hft Hpt Hfit. unfold filter_ts.
  rewrite (proj2 (Z.eqb_neq cutoff 0)) by lia. cbn [bind].
  destruct (taps_for_cutoff cutoff (fdiv (Fin 1) (of_int cutoff)) Hc) as (taps & -> & _ & Hn).
  cbn [bind]. rewrite Hn.
  set (w := Z.to_nat (cutoff + 1)).
  replace (cutoff + 1)%Z with (Z.of_nat w) by lia.
  assert (exists ts_mirr, filter_padding ts (Z.of_nat w) pt d dp = Ok ts_mirr)
    as (ts_mirr & ->).
  { rewrite filter_padding_eq by (auto; lia).
    destruct d; [|eauto]. destruct (Hfit eq_refl) as (z & ->). cbn [bind]. eauto. }
  cbn [bind].
  assert (H1 : String.eqb ft "lanczos" = false).
  { apply String.eqb_neq. intros ->. apply Hft. left. reflexivity. }
  assert (H2 : String.eqb ft "butter" = false).
  { apply String.eqb_neq. intros ->. apply Hft. right. reflexivity. }
  rewrite H1, H2. reflexivity.
Qed.

(** ** Shapes of two-dimensional arrays *)

Lemma ncols_shape {m t n} : has_shape m t n -> 0 < t -> ncols m = n.
Proof.
  intros [Hl Hr] Ht. unfold ncols. destruct m as [|row m]; [simpl in Hl; lia|].
  inversion Hr; assumption.
Qed.

Lemma length_column j m : length (column j m) = length m.
Proof. unfold column. apply length_map. Qed.

Lemma nth_column j m i :
  i < length m -> nth i (column j m) fzero = nth j (nth i m []) fzero.
Proof.
  intros Hi. unfold column.
  rewrite (nth_indep _ fzero ((fun row => nth j row fzero) [])) by (rewrite length_map; lia).
  rewrite (map_nth (fun row => nth j row fzero)). reflexivity.
Qed.

Lemma has_shape_map_rows (f : vector -> vector) m t n n' :
  has_shape m t n -> (forall row, length row = n -> length (f row) = n') ->
  has_shape (map f m) t n'.
Proof.
  intros [Hl Hr] Hf. split; [rewrite length_map; exact Hl|].
  apply Forall_map. eapply Forall_impl; [|exact Hr]. exact Hf.
Qed.

Lemma transpose_shape m t n :
  has_shape m t n -> 0 < t -> has_shape (np_transpose m) n t.
Proof.
  intros Hm Ht. unfold np_transpose. rewrite (ncols_shape Hm Ht).
  split; [rewrite length_map, length_seq; reflexivity|].
  apply Forall_map, Forall_forall. intros j _. rewrite length_column. apply Hm.
Qed.

Lemma matmul_ok a b t n k :
  has_shape a t n -> has_shape b n k -> 0 < t -> 0 < n ->
  exists c, matmul a b = Ok c /\ has_shape c t k.
Proof.
  intros Ha Hb Ht Hn. unfold matmul.
  rewrite (ncols_shape Ha Ht), (ncols_shape Hb Hn).
  unfold nrows. rewrite (proj1 Hb), Nat.eqb_refl.
  eexists. split; [reflexivity|].
  eapply has_shape_map_rows; [exact Ha|].
  intros row _. rewrite length_map, length_seq. reflexivity.
Qed.

Lemma matmul_rect a b c :
  matmul a b = Ok c -> has_shape c (nrows a) (ncols b).
Proof.
  unfold matmul. destruct (Nat.eqb _ _); [|discriminate]. intros [= <-].
  split; [apply length_map|].
  apply Forall_map, Forall_forall. intros row _.
  rewrite length_map, length_seq. reflexivity.
Qed.

Lemma get_col_ok m t n j :
  has_shape m t n -> 0 < t -> j < n -> get_col m j = Ok (column j m).
Proof.
  intros Hm Ht Hj. unfold get_col. rewrite (ncols_shape Hm Ht).
  rewrite (proj2 (Nat.ltb_lt j n) Hj). reflexivity.
Qed.

Lemma length_set_nth j c row : j < length row -> length (set_nth j c row) = length row.
Proof.
  intros Hj. unfold set_nth. rewrite length_app, length_firstn. cbn [length].
  rewrite length_skipn. lia.
Qed.

Lemma nth_set_nth_eq j c row : j < length row -> nth j (set_nth j c row) fzero = c.
Proof.
  intros Hj. unfold set_nth. rewrite app_nth2; rewrite length_firstn; [|lia].
  replace (j - Nat.min j (length row)) with 0 by lia. reflexivity.
Qed.

Lemma nth_set_nth_neq j j' c row :
  j < length row -> j' <> j -> nth j' (set_nth j c row) fzero = nth j' row fzero.
Proof.
  intros Hj Hne. unfold set_nth.
  destruct (Nat.lt_ge_cases j' j).
  - rewrite app_nth1 by (rewrite length_firstn; lia).
    rewrite nth_firstn. rewrite (proj2 (Nat.ltb_lt j' j)) by lia. reflexivity.
  - rewrite app_nth2; rewrite length_firstn; [|lia].
    replace (j' - Nat.min j (length row)) with (S (j' - S j)) by lia.
    cbn [nth]. rewrite nth_skipn. f_equal. lia.
Qed.

Lemma set_col_ok m t k j v :
  has_shape m t k -> 0 < t -> j < k -> length v = t ->
  exists m', set_col m j v = Ok m' /\ has_shape m' t k
             /\ column j m' = v
             /\ forall j', j' <> j -> column j' m' = column j' m.
Proof.
  intros Hm Ht Hj Hv. unfold set_col. rewrite (ncols_shape Hm Ht).
  rewrite (proj2 (Nat.ltb_lt j k) Hj). cbn [negb].
  unfold nrows. destruct Hm as [Hl Hr]. rewrite Hl, Hv, Nat.eqb_refl.
  eexists. split; [reflexivity|].
  subst t. clear Ht. revert v Hv.
  induction Hr as [|row m Hrow Hr IH]; intros v Hv.
  - destruct v; [|discriminate]. repeat split; auto; try constructor.
  - destruct v as [|c v]; [discriminate|]. injection Hv as Hv.
    destruct (IH v Hv) as ((Hl' & Hr') & Hc & Hc').
    unfold map2, column in *. cbn [combine map fst snd] in *.
    repeat split.
    + cbn [length]. f_equal. exact Hl'.
    + constructor; [rewrite length_set_nth; lia | exact Hr'].
    + f_equal; [apply nth_set_nth_eq; lia | exact Hc].
    + intros j' Hne. f_equal; [apply nth_set_nth_neq; lia | apply Hc'; exact Hne].
Qed.

(** ** The stable argsort *)

Lemma sort_le_total a b : sort_le a b = false -> sort_le b a = true.
Proof.
  destruct a as [x| | |], b as [y| | |]; simpl; try reflexivity; try discriminate.
  destruct (Rle_dec x y), (Rle_dec y x); try reflexivity; try discriminate.
  intros _. exfalso. lra.
Qed.

Lemma sort_le_trans a b c : sort_le a b = true -> sort_le b c = true -> sort_le a c = true.
Proof.
  destruct a as [x| | |], b as [y| | |], c as [z| | |]; simpl;
    try reflexivity; try discriminate.
  destruct (Rle_dec x y), (Rle_dec y z), (Rle_dec x z);
    try reflexivity; try discriminate.
  intros _ _. exfalso. lra.
Qed.

Lemma insert_idx_perm key i l : Permutation (insert_idx key i l) (i :: l).
Proof.
  induction l as [|j l IH]; cbn [insert_idx]; [reflexivity|].
  destruct (sort_le (key i) (key j)); [reflexivity|].
  rewrite IH. apply perm_swap.
Qed.

Lemma insert_idx_sorted key i l :
  StronglySorted (before key) l -> Forall (fun x => i < x) l ->
  StronglySorted (before key) (insert_idx key i l).
Proof.
  intros Hs Hi. induction Hs as [|j l Hs IH Hj]; cbn [insert_idx].
  - constructor; constructor.
  - inversion Hi as [|? ? Hij Hil]; subst.
    destruct (sort_le (key i) (key j)) eqn:E.
    + constructor; [constructor; assumption|].
      constructor; [split; auto|].
      rewrite Forall_forall in Hj, Hil |- *. intros x Hx. split.
      * eapply sort_le_trans; [exact E | apply (Hj x Hx)].
      * intros _. apply Hil; exact Hx.
    + constructor; [apply IH; exact Hil|].
      eapply Permutation_Forall; [apply Permutation_sym, insert_idx_perm|].
      constructor; [|exact Hj].
      split; [apply sort_le_total; exact E | rewrite E; discriminate].
Qed.

Lemma argsort_seq_sorted key a n :
  let l := fold_right (insert_idx key) [] (seq a n) in
  StronglySorted (before key) l /\ Forall (fun x => a <= x) l /\ Permutation l (seq a n).
Proof.
  revert a. induction n as [|n IH]; intros a; cbn [seq fold_right].
  - repeat split; constructor.
  - destruct (IH (S a)) as (Hs & Hge & Hp). repeat split.
    + apply insert_idx_sorted; [exact Hs|].
      eapply Forall_impl; [|exact Hge]. intros; simpl in *; lia.
    + eapply Permutation_Forall; [apply Permutation_sym, insert_idx_perm|].
      constructor; [lia|]. eapply Forall_impl; [|exact Hge]. intros; simpl in *; lia.
    + rewrite insert_idx_perm. constructor. exact Hp.
Qed.

Lemma strongly_sorted_nth {A} (R : A -> A -> Prop) l d p q :
  StronglySorted R l -> p < q < length l -> R (nth p l d) (nth q l d).
Proof.
  intros Hs. revert p q. induction Hs as [|a l Hs IH Ha]; intros p q Hpq.
  - simpl in Hpq. lia.
  - destruct q as [|q]; [lia|]. cbn [length] in Hpq. destruct p as [|p]; cbn [nth].
    + rewrite Forall_forall in Ha. apply Ha, nth_In. lia.
    + apply IH. lia.
Qed.

Lemma stable_argsort_spec v :
  StronglySorted (before (fun i => nth i v fzero)) (stable_argsort v)
  /\ Permutation (stable_argsort v) (seq 0 (length v)).
Proof.
  destruct (argsort_seq_sorted (fun i => nth i v fzero) 0 (length v)) as (Hs & _ & Hp).
  split; assumption.
Qed.

(** ** [np.argsort] on arrays of any length *)

Lemma strongly_sorted_weaken {A} (R R' : A -> A -> Prop) l :
  (forall a b, R a b -> R' a b) -> StronglySorted R l -> StronglySorted R' l.
Proof.
  intros Himp. induction 1 as [|a l Hs IH Ha]; constructor; [exact IH|].
  eapply Forall_impl; [|exact Ha]. intros b. apply Himp.
Qed.

Lemma ascending_sorted key p :
  ascending key p = true ->
  StronglySorted (fun i j => sort_le (key i) (key j) = true) p.
Proof.
  induction p as [|i p IH]; intros Ha; [constructor|].
  destruct p as [|j p]; [constructor; constructor|].
  cbn [ascending] in Ha. apply andb_true_iff in Ha as [Hij Hrest].
  specialize (IH Hrest). constructor; [exact IH|].
  constructor; [exact Hij|].
  apply StronglySorted_inv in IH as [_ Hj].
  eapply Forall_impl; [|exact Hj]. intros k Hjk. cbv beta in Hjk |- *.
  eapply sort_le_trans; eassumption.
Qed.

Lemma is_argsort_spec v p :
  is_argsort v p = true ->
  StronglySorted (fun i j => sort_le (nth i v fzero) (nth j v fzero) = true) p
  /\ Permutation p (seq 0 (length v)).
Proof.
  unfold is_argsort. intros Hc.
  apply andb_true_iff in Hc as [Hc Hasc]. apply andb_true_iff in Hc as [Hlen Hall].
  apply Nat.eqb_eq in Hlen. split.
  - apply (ascending_sorted (fun i => nth i v fzero)). exact Hasc.
  - apply Permutation_sym, NoDup_Permutation_bis.
    + apply seq_NoDup.
    + rewrite length_seq, Hlen. apply Nat.le_refl.
    + intros i Hi. rewrite forallb_forall in Hall. specialize (Hall i Hi).
      apply existsb_exists in Hall as (k & Hk & Hik). apply Nat.eqb_eq in Hik.
      subst k. exact Hk.
Qed.

Lemma np_argsort_short `{NumLib} v : length v <= 16 -> np_argsort v = stable_argsort v.
Proof.
  intros Hl. unfold np_argsort. rewrite (proj2 (Nat.leb_le _ _) Hl). reflexivity.
Qed.

Lemma np_argsort_spec `{NumLib} v :
  StronglySorted (fun i j => sort_le (nth i v fzero) (nth j v fzero) = true) (np_argsort v)
  /\ Permutation (np_argsort v) (seq 0 (length v)).
Proof.
  assert (Hst : StronglySorted (fun i j => sort_le (nth i v fzero) (nth j v fzero) = true)
                  (stable_argsort v)
                /\ Permutation (stable_argsort v) (seq 0 (length v))).
  { destruct (stable_argsort_spec v) as [Hs Hp]. split; [|exact Hp].
    eapply strongly_sorted_weaken; [|exact Hs]. intros a b [Hab _]. exact Hab. }
  unfold np_argsort. destruct (Nat.leb (length v) 16); [exact Hst|].
  destruct (is_argsort v (np_quicksort_order v)) eqn:E; [|exact Hst].
  apply is_argsort_spec. exact E.
Qed.

Lemma eig_argsort_perm `{NumLib} eig : Permutation (eig_argsort eig) (seq 0 (length eig)).
Proof.
  unfold eig_argsort. rewrite <- Permutation_rev. apply np_argsort_spec.
Qed.

Lemma eig_argsort_length `{NumLib} eig : length (eig_argsort eig) = length eig.
Proof. rewrite (Permutation_length (eig_argsort_perm eig)). apply length_seq. Qed.

Lemma eig_argsort_bound `{NumLib} eig : Forall (fun i => i < length eig) (eig_argsort eig).
Proof.
  eapply Permutation_Forall; [apply Permutation_sym, eig_argsort_perm|].
  apply Forall_forall. intros i Hi. apply in_seq in Hi. lia.
Qed.

(** Positions [p < q] of the reordering hold indices whose keys are in
    descending order. *)
Lemma eig_argsort_descending `{NumLib} eig p q :
  p < q < length eig ->
  sort_le (nth (nth q (eig_argsort eig) 0) eig fzero)
          (nth (nth p (eig_argsort eig) 0) eig fzero) = true.
Proof.
  intros Hpq. unfold eig_argsort.
  pose proof (proj1 (np_argsort_spec eig)) as Hs.
  assert (Hl : length (np_argsort eig) = length eig)
    by (rewrite (Permutation_length (proj2 (np_argsort_spec eig))); apply length_seq).
  rewrite !rev_nth by lia. rewrite Hl.
  apply (strongly_sorted_nth
           (fun i j => sort_le (nth i eig fzero) (nth j eig fzero) = true));
    [exact Hs | lia].
Qed.

(** Up to 16 keys, positions [p < q] of the reordering hold indices that an
    ascending stable argsort lists in the opposite order. *)
Lemma eig_argsort_before `{NumLib} eig p q :
  length eig <= 16 -> p < q < length eig ->
  before (fun i => nth i eig fzero) (nth q (eig_argsort eig) 0) (nth p (eig_argsort eig) 0).
Proof.
  intros Hshort Hpq. unfold eig_argsort. rewrite (np_argsort_short eig Hshort).
  pose proof (proj1 (stable_argsort_spec eig)) as Hs.
  assert (Hl : length (stable_argsort eig) = length eig)
    by (rewrite (Permutation_length (proj2 (stable_argsort_spec eig))); apply length_seq).
  rewrite !rev_nth by lia. rewrite Hl.
  apply strongly_sorted_nth; [exact Hs | lia].
Qed.

Lemma take_idx_ok l idx :
  Forall (fun i => i < length l) idx ->
  take_idx l idx = Ok (map (fun i => nth i l fzero) idx).
Proof.
  unfold take_idx. induction 1 as [|i idx Hi _ IH]; cbn [mapM map]; [reflexivity|].
  rewrite (proj2 (Nat.ltb_lt _ _) Hi). cbn [bind]. rewrite IH. reflexivity.
Qed.

Lemma take_cols_ok m t n idx :
  has_shape m t n -> Forall (fun i => i < n) idx ->
  take_cols m idx = Ok (map (fun row => map (fun i => nth i row fzero) idx) m)
  /\ has_shape (map (fun row => map (fun i => nth i row fzero) idx) m) t (length idx).
Proof.
  intros [Hl Hr] Hidx. split.
  - unfold take_cols. clear Hl. induction Hr as [|row m Hrow _ IH]; cbn [mapM map]; [reflexivity|].
    rewrite take_idx_ok by (rewrite Hrow; exact Hidx). cbn [bind]. rewrite IH. reflexivity.
  - split; [rewrite length_map; exact Hl|].
    apply Forall_map, Forall_forall. intros row _. apply length_map.
Qed.

Lemma sort_eig_ok `{NumLib} eig eigv t :
  has_shape eigv t (length eig) ->
  sort_eig eig eigv =
    Ok (map (fun i => nth i eig fzero) (eig_argsort eig),
        map (fun row => map (fun i => nth i row fzero) (eig_argsort eig)) eigv)
  /\ has_shape (map (fun row => map (fun i => nth i row fzero) (eig_argsort eig)) eigv)
       t (length eig).
Proof.
  intros Hv. unfold sort_eig.
  rewrite take_idx_ok by apply eig_argsort_bound. cbn [bind].
  destruct (take_cols_ok eigv t (length eig) (eig_argsort eig) Hv (eig_argsort_bound eig))
    as [-> Hs].
  cbn [bind]. rewrite eig_argsort_length in Hs. split; [reflexivity | exact Hs].
Qed.

(** ** The reordering of the eigenpairs *)

Lemma sort_le_fgeb a b :
  is_finite a -> is_finite b -> sort_le b a = true -> fgeb a b = true.
Proof.
  destruct a as [x| | |], b as [y| | |]; simpl; tauto.
Qed.

Lemma sort_le_refl a : sort_le a a = true.
Proof.
  destruct a as [x| | |]; simpl; try reflexivity.
  destruct (Rle_dec x x); [reflexivity | exfalso; lra].
Qed.

Lemma nth_map_idx (l : vector) idx p :
  p < length idx ->
  nth p (map (fun i => nth i l fzero) idx) fzero = nth (nth p idx 0) l fzero.
Proof.
  intros Hp.
  rewrite (nth_indep _ fzero ((fun i => nth i l fzero) 0)) by (rewrite length_map; lia).
  apply (map_nth (fun i => nth i l fzero)).
Qed.

(** C2 (as amended): the reordering of finite eigenvalues returns them in
    non-increasing order, with the eigenvector columns permuted alike, by
    the index array [np.argsort(eig)[::-1]].  That is the reverse of an
    ascending sort, not a stable sort on the negated eigenvalues: up to 16
    eigenvalues, where NumPy's ascending sort is stable, equal eigenvalues
    come out in descending order of their original index; on more, the
    order among equal eigenvalues is left to NumPy's sort. *)
Theorem sort_eig_descending `{NumLib} (eig : vector) (eigv : matrix) :
  Forall is_finite eig ->
  has_shape eigv (length eig) (length eig) ->
  exists eig' eigv',
    sort_eig eig eigv = Ok (eig', eigv')
    /\ eig' = map (fun i => nth i eig fzero) (eig_argsort eig)
    /\ eigv' = map (fun row => map (fun i => nth i row fzero) (eig_argsort eig)) eigv
    /\ Permutation (eig_argsort eig) (seq 0 (length eig))
    /\ (forall p q, p < q < length eig ->
          fgeb (nth p eig' fzero) (nth q eig' fzero) = true)
    /\ (length eig <= 16 ->
        forall p q, p < q < length eig ->
          nth p eig' fzero = nth q eig' fzero ->
          nth q (eig_argsort eig) 0 < nth p (eig_argsort eig) 0).
Proof.
  intros Hfin Hv.
  destruct (sort_eig_ok eig eigv (length eig) Hv) as [-> _].
  do 2 eexists. split; [reflexivity|]. split; [reflexivity|]. split; [reflexivity|].
  split; [apply eig_argsort_perm|].
  assert (Hin : forall p, p < length eig -> nth p (eig_argsort eig) 0 < length eig).
  { intros p Hp. pose proof (eig_argsort_bound eig) as Hb.
    rewrite Forall_forall in Hb. apply Hb, nth_In. rewrite eig_argsort_length. exact Hp. }
  split.
  - intros p q Hpq.
    rewrite !nth_map_idx by (rewrite eig_argsort_length; lia).
    pose proof (eig_argsort_descending eig p q Hpq) as Hle.
    rewrite Forall_forall in Hfin.
    apply sort_le_fgeb; [apply Hfin, nth_In, Hin; lia | apply Hfin, nth_In, Hin; lia | exact Hle].
  - intros Hshort p q Hpq.
    rewrite !nth_map_idx by (rewrite eig_argsort_length; lia).
    intros Heq. destruct (eig_argsort_before eig p q Hshort Hpq) as [_ Hlt].
    apply Hlt. cbv beta. rewrite Heq. apply sort_le_refl.
Qed.

Lemma sort_eig_descending_witness :
  exists eig' eigv',
    @sort_eig small_lib [Fin 1; Fin 3; Fin 2]
      [[Fin 1; Fin 0; Fin 0]; [Fin 0; Fin 1; Fin 0]; [Fin 0; Fin 0; Fin 1]] = Ok (eig', eigv')
    /\ forall p q, p < q < 3 -> fgeb (nth p eig' fzero) (nth q eig' fzero) = true.
Proof.
  destruct (@sort_eig_descending small_lib [Fin 1; Fin 3; Fin 2]
      [[Fin 1; Fin 0; Fin 0]; [Fin 0; Fin 1; Fin 0]; [Fin 0; Fin 0; Fin 1]])
    as (eig' & eigv' & H1 & _ & _ & _ & H2 & _).
  - repeat constructor.
  - split; [reflexivity | repeat constructor].
  - exists eig', eigv'. split; [exact H1 | exact H2].
Defined.

Lemma sort_eig_tie_order_counterexample :
  @sort_eig small_lib [Fin 1; Fin 1] [[Fin 1; Fin 0]; [Fin 0; Fin 1]]
    = Ok ([Fin 1; Fin 1], [[Fin 0; Fin 1]; [Fin 1; Fin 0]])
  /\ @eig_argsort small_lib [Fin 1; Fin 1] = [1; 0]
  /\ spec_eig_order [Fin 1; Fin 1] = [0; 1]
  /\ @eig_argsort small_lib [Fin 1; Fin 1] <> spec_eig_order [Fin 1; Fin 1].
Proof.
  assert (Ha : @eig_argsort small_lib [Fin 1; Fin 1] = [1; 0]).
  { unfold eig_argsort, np_argsort, stable_argsort.
    cbn [length Nat.leb seq fold_right insert_idx nth sort_le].
    destruct (Rle_dec 1 1) as [_|Hn]; [reflexivity | exfalso; lra]. }
  assert (Hs : spec_eig_order [Fin 1; Fin 1] = [0; 1]).
  { unfold spec_eig_order, stable_argsort.
    cbn [map fneg length seq fold_right insert_idx nth sort_le].
    destruct (Rle_dec (- (1)) (- (1))) as [_|Hn]; [reflexivity | exfalso; lra]. }
  repeat split; [ | exact Ha | exact Hs | rewrite Ha, Hs; discriminate ].
  unfold sort_eig. rewrite Ha. reflexivity.
Qed.

(** ** Properties of the Lanczos taps *)

Lemma nth_palindrome (ff : vector) (a : float) i :
  let l := rev ff ++ a :: ff in
  i < length l -> nth i l fzero = nth (length l - 1 - i) l fzero.
Proof.
  intros l Hi.
  assert (Hr : rev l = l).
  { unfold l. rewrite rev_app_distr. cbn [rev]. rewrite rev_involutive, <- app_assoc.
    reflexivity. }
  rewrite <- Hr at 1. rewrite rev_nth by exact Hi. f_equal. lia.
Qed.

Lemma length_taps (window : Z) (cutoff : float) :
  (1 <= window)%Z ->
  let n := ((window - 1) / 2 + 1)%Z in
  let k := np_arange 1 n in
  let ff := map2 fmul (map (lanczos_firstfactor cutoff) k) (map (lanczos_sigma n) k) in
  length (rev ff ++ fmul (Fin 2) cutoff :: ff) = Z.to_nat (2 * ((window - 1) / 2) + 1).
Proof.
  intros Hw n k ff. rewrite length_app, length_rev. cbn [length].
  unfold ff, k. rewrite length_map2, !length_map, length_np_arange. unfold n.
  pose proof (Z.div_pos (window - 1) 2). lia.
Qed.

(** C5 (as amended): [low_pass_weights] validates neither argument.  For
    every window length from 1 on and every cutoff, non-positive ones
    included, it returns 2 * ((window - 1) // 2) + 1 taps; for window
    length 1 that is the single tap [2 * cutoff]. *)
Theorem low_pass_weights_no_validation (window : Z) (cutoff : float) :
  (1 <= window)%Z ->
  exists taps,
    low_pass_weights window cutoff = Ok taps
    /\ length taps = Z.to_nat (2 * ((window - 1) / 2) + 1)
    /\ (window = 1%Z -> taps = [fmul (Fin 2) cutoff]).
Proof.
  intros Hw. rewrite low_pass_weights_taps by exact Hw.
  eexists. split; [reflexivity|]. split; [apply length_taps; exact Hw|].
  intros ->. reflexivity.
Qed.

Lemma low_pass_weights_no_validation_witness :
  exists taps,
    low_pass_weights 3 (Fin (-1)) = Ok taps
    /\ length taps = 3
    /\ (3%Z = 1%Z -> taps = [fmul (Fin 2) (Fin (-1))]).
Proof.
  apply (low_pass_weights_no_validation 3 (Fin (-1))). lia.
Defined.

Lemma low_pass_weights_error_counterexample :
  low_pass_weights 1 (Fin (1 / 4)) = Ok [Fin (2 * (1 / 4))]
  /\ ~ raises (low_pass_weights 1 (Fin (1 / 4)))
  /\ ~ raises (low_pass_weights 3 (Fin 0)).
Proof.
  assert (H1 : low_pass_weights 1 (Fin (1 / 4)) = Ok [Fin (2 * (1 / 4))]) by reflexivity.
  split; [exact H1|]. split.
  - intros [e He]. rewrite H1 in He. discriminate.
  - intros [e He]. rewrite low_pass_weights_taps in He by lia. discriminate.
Qed.

(** C9: for every odd window length [W >= 3] and every cutoff frequency
    [0 < c < 0.5], [low_pass_weights] returns [W] taps that read the same in
    both directions: tap [i] equals tap [L - 1 - i]. *)
Theorem low_pass_weights_symmetric (window : Z) (c : R) :
  (3 <= window)%Z -> Z.odd window = true -> (0 < c < 1 / 2)%R ->
  exists taps,
    low_pass_weights window (Fin c) = Ok taps
    /\ length taps = Z.to_nat window
    /\ forall i, i < length taps ->
         nth i taps fzero = nth (length taps - 1 - i) taps fzero.
Proof.
  intros Hw Hodd _. rewrite low_pass_weights_taps by lia.
  eexists. split; [reflexivity|]. split.
  - rewrite length_taps by lia. apply Z.odd_spec in Hodd. destruct Hodd as [m ->].
    replace (2 * m + 1 - 1)%Z with (m * 2)%Z by lia. rewrite Z.div_mul by lia. lia.
  - intros i Hi. apply nth_palindrome. exact Hi.
Qed.

Lemma low_pass_weights_symmetric_witness :
  exists taps,
    low_pass_weights 5 (Fin (1 / 4)) = Ok taps
    /\ length taps = 5
    /\ forall i, i < length taps ->
         nth i taps fzero = nth (length taps - 1 - i) taps fzero.
Proof.
  apply (low_pass_weights_symmetric 5 (1 / 4)); [lia | reflexivity | lra].
Defined.

(** ** Sums of finite values *)

Lemma fdiv_Fin a b : b <> 0%R -> fdiv (Fin a) (Fin b) = Fin (a / b).
Proof.
  intros Hb. unfold fdiv, Rsign.
  destruct (Rlt_dec b 0); [reflexivity|].
  destruct (Rlt_dec 0 b); [reflexivity|]. exfalso. lra.
Qed.

Lemma finite_as_reals (v : vector) : Forall is_finite v -> exists l, v = map Fin l.
Proof.
  induction 1 as [|a v Ha _ (l & ->)]; [exists []; reflexivity|].
  destruct a as [r| | |]; simpl in Ha; try tauto. exists (r :: l). reflexivity.
Qed.

Lemma fold_fadd_Fin (l : list R) (a : R) :
  fold_left fadd (map Fin l) (Fin a) = Fin (fold_left Rplus l a).
Proof. revert a. induction l as [|r l IH]; intros a; cbn [map fold_left fadd]; auto. Qed.

Lemma np_sum_Fin (l : list R) : np_sum (map Fin l) = Fin (fold_left Rplus l 0%R).
Proof. apply fold_fadd_Fin. Qed.

Lemma map2_fmul_Fin a b : map2 fmul (map Fin a) (map Fin b) = map Fin (map2 Rmult a b).
Proof.
  unfold map2. revert b. induction a as [|x a IH]; intros b; [reflexivity|].
  destruct b as [|y b]; [reflexivity|]. cbn [map combine fst snd fmul]. f_equal. apply IH.
Qed.

Lemma fold_Rplus_ge (l : list R) (u : R) :
  Forall (fun r => 0 <= r)%R l -> (u <= fold_left Rplus l u)%R.
Proof.
  intros Hl. revert u. induction Hl as [|r l Hr _ IH]; intros u; cbn [fold_left]; [lra|].
  specialize (IH (u + r)%R). lra.
Qed.

(** ** The polynomial fit of the small instance *)

Lemma np_arange_reals (n : nat) :
  np_arange 0 (Z.of_nat n) = map Fin (map (fun k => IZR (Z.of_nat k)) (seq 0 n)).
Proof.
  unfold np_arange, py_range, of_int. rewrite Z.sub_0_r, Nat2Z.id, !map_map.
  apply map_ext. intros k. reflexivity.
Qed.

Lemma map2_diag {A C} (f : A -> A -> C) (l : list A) : map2 f l l = map (fun a => f a a) l.
Proof.
  unfold map2. induction l as [|a l IH]; [reflexivity|].
  cbn [combine map fst snd]. rewrite IH. reflexivity.
Qed.

Lemma sample_points_nonzero (n : nat) :
  2 <= n ->
  feqb_zero (np_sum (map2 fmul (np_arange 0 (Z.of_nat n)) (np_arange 0 (Z.of_nat n)))) = false.
Proof.
  intros Hn. rewrite np_arange_reals, map2_fmul_Fin, np_sum_Fin, map2_diag.
  destruct n as [|[|n]]; try lia.
  cbn [seq map fold_left].
  set (rest := map (fun a : R => (a * a)%R) (map (fun k => IZR (Z.of_nat k)) (seq 2 n))).
  assert (Hge : (0 + IZR (Z.of_nat 0) * IZR (Z.of_nat 0) + IZR (Z.of_nat 1) * IZR (Z.of_nat 1)
                 <= fold_left Rplus rest
                      (0 + IZR (Z.of_nat 0) * IZR (Z.of_nat 0)
                       + IZR (Z.of_nat 1) * IZR (Z.of_nat 1)))%R).
  { apply fold_Rplus_ge. unfold rest. apply Forall_map, Forall_forall. intros a _.
    apply Rle_0_sqr. }
  cbn [feqb_zero].
  match goal with |- (if Req_dec_T ?r 0 then _ else _) = _ =>
    destruct (Req_dec_T r 0) as [E | _]; [|reflexivity] end.
  exfalso. rewrite E in Hge. simpl in Hge. lra.
Qed.

Lemma small_polyfit_ok (ts : vector) (deg : Z) :
  (deg = 0%Z /\ 1 <= length ts) \/ (deg = 1%Z /\ 2 <= length ts) ->
  exists z, lstsq_polyfit (np_arange 0 (Z.of_nat (length ts))) ts deg = Ok z.
Proof.
  intros Hd. unfold lstsq_polyfit.
  rewrite length_np_arange, Z.sub_0_r, Nat2Z.id, Nat.eqb_refl. cbn [negb].
  destruct Hd as [[-> Hn] | [-> Hn]]; cbn [Z.ltb Z.compare Z.eqb].
  - destruct (length ts); [lia|]. cbn [Nat.eqb]. eexists. reflexivity.
  - rewrite (sample_points_nonzero (length ts) Hn).
    destruct (length ts); [lia|]. cbn [Nat.eqb]. eexists. reflexivity.
Qed.

Lemma small_polyfit_single (a : float) :
  lstsq_polyfit (np_arange 0 1) [a] 1
  = Raise (LinAlgError "SVD did not converge in Linear Least Squares").
Proof.
  change (np_arange 0 1) with [Fin 0].
  unfold lstsq_polyfit. cbn [length Nat.eqb negb Z.ltb Z.compare Z.eqb Pos.eqb].
  unfold map2, np_sum, fzero. cbn [combine map fst snd fmul fold_left fadd feqb_zero].
  match goal with |- context [Req_dec_T ?r 0] =>
    destruct (Req_dec_T r 0) as [_ | E]; [reflexivity|] end.
  exfalso. apply E. simpl. lra.
Qed.

Lemma filter_padding_fit_error `{NumLib} ts window ft dp e :
  (0 <= window)%Z ->
  np_polyfit (np_arange 0 (Z.of_nat (length ts))) ts dp = Raise e ->
  filter_padding ts window ft true dp = Raise e.
Proof.
  intros Hw Hfit. unfold filter_padding, np_zeros.
  rewrite (proj2 (Z.ltb_ge _ 0)) by lia. cbn [bind].
  rewrite Hfit. reflexivity.
Qed.

Lemma filter_ts_fit_error `{NumLib} ts cutoff ft pt dp e :
  (1 <= cutoff)%Z ->
  np_polyfit (np_arange 0 (Z.of_nat (length ts))) ts dp = Raise e ->
  filter_ts ts cutoff ft pt true dp = Raise e.
Proof.
  intros Hc Hfit. unfold filter_ts.
  rewrite (proj2 (Z.eqb_neq cutoff 0)) by lia. cbn [bind].
  destruct (taps_for_cutoff cutoff (fdiv (Fin 1) (of_int cutoff)) Hc) as (taps & -> & _ & Hn).
  cbn [bind]. rewrite Hn.
  rewrite (filter_padding_fit_error ts (cutoff + 1) pt dp e) by (auto; lia). reflexivity.
Qed.

(** ** Length and errors of [filter_ts] *)

Lemma small_lib_keeps_length : @keeps_length small_lib.
Proof.
  split.
  - intros a w y [= <-]. unfold direct_convolve_same. rewrite length_map, length_seq.
    reflexivity.
  - intros b a x y [= <-]. reflexivity.
Qed.

(** C6: for a cutoff of at least one time step, both filter kinds and both
    padding kinds, a series returned by [filter_ts] is as long as the input
    series; and [filter_ts] does return when the series has at least
    [cutoff + 1] samples and the library calls of the run succeed. *)
Theorem filter_ts_keeps_length `{NumLib} (ts : vector) (cutoff : Z)
    (ftype ptype : string) (detrend : bool) (detrend_poly : Z) :
  (1 <= cutoff)%Z -> supported_filter ftype -> supported_padding ptype ->
  keeps_length ->
  (forall out, filter_ts ts cutoff ftype ptype detrend detrend_poly = Ok out ->
               length out = length ts)
  /\ ((cutoff + 1 <= Z.of_nat (length ts))%Z ->
      filter_calls_ok ts cutoff ftype ptype detrend detrend_poly ->
      exists out, filter_ts ts cutoff ftype ptype detrend detrend_poly = Ok out
                  /\ length out = length ts).
Proof.
  intros Hc Hft Hpt Hk. split.
  - intros out Hout. eapply filter_ts_length; eassumption.
  - intros Hlen Hcalls.
    destruct (filter_ts_returns_run ts cutoff ftype ptype detrend detrend_poly
                Hc Hlen Hft Hpt Hcalls) as (out & Hout).
    exists out. split; [exact Hout|]. eapply filter_ts_length; eassumption.
Qed.

Lemma filter_ts_keeps_length_witness :
  exists out,
    @filter_ts small_lib [Fin 1; Fin 2; Fin 4; Fin 8] 2 "lanczos" "mirror" true 1 = Ok out
    /\ length out = 4.
Proof.
  apply (@filter_ts_keeps_length small_lib [Fin 1; Fin 2; Fin 4; Fin 8] 2
           "lanczos" "mirror" true 1).
  - lia.
  - left; reflexivity.
  - left; reflexivity.
  - exact small_lib_keeps_length.
  - simpl; lia.
  - split.
    + intros _. apply (small_polyfit_ok [Fin 1; Fin 2; Fin 4; Fin 8] 1).
      right. split; [reflexivity | simpl; lia].
    + intros taps ts_mirr _ _. split.
      * intros _. eexists. reflexivity.
      * discriminate.
Defined.

Lemma filter_padding_middle_witness :
  exists ts_pad,
    @filter_padding small_lib [Fin 1; Fin 2; Fin 4] 2 "periodic" true 0 = Ok ts_pad
    /\ length ts_pad = 7
    /\ firstn 3 (skipn 2 ts_pad) = [Fin 1; Fin 2; Fin 4].
Proof.
  apply (@filter_padding_middle small_lib [Fin 1; Fin 2; Fin 4] 2 "periodic" true 0).
  - simpl; lia.
  - right; reflexivity.
  - intros _. exists [fdiv (np_sum [Fin 1; Fin 2; Fin 4]) (of_nat 3)].
    split; [reflexivity|].
    constructor; [|constructor].
    unfold np_sum, of_nat, fzero. cbn [fold_left fadd].
    rewrite fdiv_Fin by (simpl; lra). exact I.
Defined.

Lemma filter_padding_fit_counterexample :
  (0 < 1 <= Z.of_nat (length [Fin 7]))%Z
  /\ @filter_padding small_lib [Fin 7] 1 "mirror" true 1
     = Raise (LinAlgError "SVD did not converge in Linear Least Squares").
Proof.
  split; [simpl; lia|].
  apply (@filter_padding_fit_error small_lib [Fin 7] 1 "mirror" 1); [lia|].
  apply small_polyfit_single.
Qed.

(** C8 (as amended): [filter_ts] returns no series when the filter kind or
    the padding kind is not a supported one.  For a cutoff of at least one
    time step and a trend fit that succeeds (or no detrending), the error
    is the [ValueError] that names the parameter: the one of
    [filter_padding] for an unsupported padding kind, and the one of
    [filter_ts] for an unsupported filter kind when the padding kind is
    supported and the series has at least [cutoff + 1] samples.  With
    supported kinds, a cutoff of at least one time step, at least
    [cutoff + 1] samples and library calls of the run that succeed,
    [filter_ts] raises nothing. *)
Theorem filter_ts_errors `{NumLib} (ts : vector) (cutoff : Z)
    (ftype ptype : string) (detrend : bool) (detrend_poly : Z) :
  (~ supported_filter ftype \/ ~ supported_padding ptype ->
   raises (filter_ts ts cutoff ftype ptype detrend detrend_poly))
  /\ (~ supported_padding ptype -> (1 <= cutoff)%Z ->
      (detrend = true ->
       exists z, np_polyfit (np_arange 0 (Z.of_nat (length ts))) ts detrend_poly = Ok z) ->
      filter_ts ts cutoff ftype ptype detrend detrend_poly
      = Raise (ValueError
          "in filter_padding: ftype must be one of 'mirror' or 'periodic'."))
  /\ (~ supported_filter ftype -> supported_padding ptype ->
      (1 <= cutoff)%Z -> (cutoff + 1 <= Z.of_nat (length ts))%Z ->
      (detrend = true ->
       exists z, np_polyfit (np_arange 0 (Z.of_nat (length ts))) ts detrend_poly = Ok z) ->
      filter_ts ts cutoff ftype ptype detrend detrend_poly
      = Raise (ValueError
          "in filter_ts: filter_type must be one of 'lanczos' or 'butter'."))
  /\ (supported_filter ftype -> supported_padding ptype ->
      (1 <= cutoff)%Z -> (cutoff + 1 <= Z.of_nat (length ts))%Z ->
      filter_calls_ok ts cutoff ftype ptype detrend detrend_poly ->
      ~ raises (filter_ts ts cutoff ftype ptype detrend detrend_poly)).
Proof.
  split; [|split; [|split]].
  - apply filter_ts_unsupported.
  - intros Hpt Hc Hfit. apply filter_ts_unsupported_padding; assumption.
  - intros Hft Hpt Hc Hlen Hfit. apply filter_ts_unsupported_filter; assumption.
  - intros Hft Hpt Hc Hlen Hcalls [e He].
    destruct (filter_ts_returns_run ts cutoff ftype ptype detrend detrend_poly
                Hc Hlen Hft Hpt Hcalls) as (out & Hout).
    rewrite Hout in He. discriminate.
Qed.

Lemma filter_ts_errors_witness :
  raises (@filter_ts small_lib [Fin 1; Fin 2; Fin 4; Fin 8] 2 "boxcar" "wrap" true 1)
  /\ @filter_ts small_lib [Fin 1; Fin 2; Fin 4; Fin 8] 2 "lanczos" "wrap" true 1
     = Raise (ValueError "in filter_padding: ftype must be one of 'mirror' or 'periodic'.")
  /\ @filter_ts small_lib [Fin 1; Fin 2; Fin 4; Fin 8] 2 "boxcar" "mirror" true 1
     = Raise (ValueError "in filter_ts: filter_type must be one of 'lanczos' or 'butter'.")
  /\ ~ raises (@filter_ts small_lib [Fin 1; Fin 2; Fin 4; Fin 8] 2 "lanczos" "mirror" true 1).
Proof.
  assert (Hfit : true = true ->
            exists z, @np_polyfit small_lib
                        (np_arange 0 (Z.of_nat (length [Fin 1; Fin 2; Fin 4; Fin 8])))
                        [Fin 1; Fin 2; Fin 4; Fin 8] 1 = Ok z).
  { intros _. apply (small_polyfit_ok [Fin 1; Fin 2; Fin 4; Fin 8] 1).
    right. split; [reflexivity | simpl; lia]. }
  split; [|split; [|split]].
  - apply (proj1 (@filter_ts_errors small_lib [Fin 1; Fin 2; Fin 4; Fin 8] 2
                    "boxcar" "wrap" true 1)).
    left. intros [H | H]; discriminate H.
  - apply (proj1 (proj2 (@filter_ts_errors small_lib [Fin 1; Fin 2; Fin 4; Fin 8] 2
                           "lanczos" "wrap" true 1))).
    + intros [H | H]; discriminate H.
    + lia.
    + exact Hfit.
  - apply (proj1 (proj2 (proj2 (@filter_ts_errors small_lib [Fin 1; Fin 2; Fin 4; Fin 8] 2
                                  "boxcar" "mirror" true 1)))).
    + intros [H | H]; discriminate H.
    + left; reflexivity.
    + lia.
    + simpl; lia.
    + exact Hfit.
  - apply (proj2 (proj2 (proj2 (@filter_ts_errors small_lib [Fin 1; Fin 2; Fin 4; Fin 8] 2
                                  "lanczos" "mirror" true 1)))).
    + left; reflexivity.
    + left; reflexivity.
    + lia.
    + simpl; lia.
    + split; [exact Hfit|].
      intros taps ts_mirr _ _. split.
      * intros _. eexists. reflexivity.
      * discriminate.
Defined.

Lemma filter_ts_error_class_counterexample :
  ~ (invalid_parameter (@filter_ts small_lib [Fin 1; Fin 2] 2 "lanczos" "mirror" false 1)
     <-> (~ supported_filter "lanczos" \/ ~ supported_padding "mirror"))
  /\ ~ (invalid_parameter (@filter_ts small_lib [Fin 1; Fin 2; Fin 4; Fin 8] 0
                             "boxcar" "mirror" false 1)
        <-> (~ supported_filter "boxcar" \/ ~ supported_padding "mirror"))
  /\ ~ (invalid_parameter (@filter_ts small_lib [Fin 7] 1 "lanczos" "wrap" true 1)
        <-> (~ supported_filter "lanczos" \/ ~ supported_padding "wrap")).
Proof.
  split; [|split].
  - intros [Hsome _].
    assert (Hr : @filter_ts small_lib [Fin 1; Fin 2] 2 "lanczos" "mirror" false 1
                 = Raise (ValueError "could not broadcast input array")) by reflexivity.
    destruct Hsome as [Hf | Hp].
    + exists "could not broadcast input array"%string. exact Hr.
    + apply Hf. left. reflexivity.
    + apply Hp. left. reflexivity.
  - intros [_ Hall].
    destruct Hall as (msg & Hmsg).
    + left. intros [H | H]; discriminate H.
    + discriminate Hmsg.
  - intros [_ Hall].
    destruct Hall as (msg & Hmsg).
    + right. intros [H | H]; discriminate H.
    + rewrite (@filter_ts_fit_error small_lib [Fin 7] 1 "lanczos" "wrap" 1
                 (LinAlgError "SVD did not converge in Linear Least Squares"))
        in Hmsg; [discriminate Hmsg | lia | apply small_polyfit_single].
Qed.

(** ** Centering *)

Lemma fold_Rplus_shift (l : list R) (c a : R) :
  fold_left Rplus (map (fun r => (r + c)%R) l) a
  = (fold_left Rplus l a + INR (length l) * c)%R.
Proof.
  revert a. induction l as [|r l IH]; intros a.
  - simpl. ring.
  - cbn [map fold_left]. rewrite IH. cbn [length]. rewrite S_INR.
    assert (E : forall u v : R, fold_left Rplus l u = (fold_left Rplus l v + (u - v))%R).
    { clear. induction l as [|r l IH]; intros u v; cbn [fold_left]; [ring|].
      rewrite (IH (u + r)%R (v + r)%R). ring. }
    rewrite (E (a + (r + c))%R (a + r)%R). ring.
Qed.

Lemma nth_map_seq {A} (f : nat -> A) n i d : i < n -> nth i (map f (seq 0 n)) d = f i.
Proof.
  intros Hi. rewrite (nth_indep _ d (f 0)) by (rewrite length_map, length_seq; lia).
  rewrite map_nth, seq_nth by lia. reflexivity.
Qed.

Lemma nanmean_Fin (l : list R) :
  nanmean (map Fin l) = fdiv (Fin (fold_left Rplus l 0%R)) (of_nat (length l)).
Proof.
  unfold nanmean.
  assert (E : filter (fun a => negb (np_isnan a)) (map Fin l) = map Fin l).
  { induction l as [|r l IH]; [reflexivity|]. cbn [map filter np_isnan negb].
    rewrite IH. reflexivity. }
  rewrite E, np_sum_Fin, length_map. reflexivity.
Qed.

Lemma finite_column j m : finite_matrix m -> Forall is_finite (column j m).
Proof.
  intros Hm. unfold column. apply Forall_map. eapply Forall_impl; [|exact Hm].
  intros row Hrow. cbv beta.
  destruct (Nat.lt_ge_cases j (length row)).
  - rewrite Forall_forall in Hrow. apply Hrow, nth_In. assumption.
  - rewrite nth_overflow by lia. exact I.
Qed.





Lemma mapM_ok {A B} (f : A -> result B) (g : A -> B) l :
  (forall a, In a l -> f a = Ok (g a)) -> mapM f l = Ok (map g l).
Proof.
  induction l as [|a l IH]; intros Hf; cbn [mapM map]; [reflexivity|].
  rewrite (Hf a (or_introl eq_refl)). cbn [bind].
  rewrite IH by (intros b Hb; apply Hf; right; exact Hb). reflexivity.
Qed.

Lemma center_shape x t n : has_shape x t n -> 0 < t -> has_shape (center x) t n.
Proof.
  intros Hx Ht. unfold center. eapply has_shape_map_rows; [exact Hx|].
  intros row Hrow. rewrite length_map2. unfold np_mean_axis0.
  rewrite length_map, length_seq, (ncols_shape Hx Ht). lia.
Qed.

Lemma column_center x t n j :
  has_shape x t n -> 0 < t -> j < n ->
  column j (center x)
  = map (fun a => fsub a (nth j (np_mean_axis0 x) fzero)) (column j x).
Proof.
  intros Hx Ht Hj. unfold column, center. rewrite !map_map.
  apply map_ext_in. intros row Hrow.
  destruct Hx as [Hl Hr]. rewrite Forall_forall in Hr.
  assert (Hml : length (np_mean_axis0 x) = n).
  { unfold np_mean_axis0. rewrite length_map, length_seq.
    apply (@ncols_shape x t n); [split; [exact Hl | apply Forall_forall; exact Hr] | exact Ht]. }
  apply (nth_map2 fsub row _ j fzero fzero fzero); rewrite ?(Hr row Hrow); lia.
Qed.

Lemma mean_entry_Fin x t n j :
  has_shape x t n -> 0 < t -> j < n -> finite_matrix x ->
  exists col, column j x = map Fin col /\ length col = t
    /\ nth j (np_mean_axis0 x) fzero = Fin (fold_left Rplus col 0%R / INR t).
Proof.
  intros Hx Ht Hj Hf.
  destruct (finite_as_reals _ (finite_column j x Hf)) as (col & Hcol).
  exists col. split; [exact Hcol|].
  assert (Hcl : length col = t).
  { rewrite <- (length_map Fin col), <- Hcol, length_column. apply Hx. }
  split; [exact Hcl|].
  unfold np_mean_axis0. rewrite (ncols_shape Hx Ht), nth_map_seq by exact Hj.
  rewrite Hcol, nanmean_Fin, Hcl. unfold of_nat.
  apply fdiv_Fin. apply not_0_INR. lia.
Qed.

Lemma finite_center x t n :
  has_shape x t n -> 0 < t -> finite_matrix x -> finite_matrix (center x).
Proof.
  intros Hx Ht Hf. unfold center, finite_matrix. apply Forall_map.
  destruct Hx as [Hl Hr].
  rewrite Forall_forall in Hr. unfold finite_matrix in Hf. rewrite Forall_forall in Hf.
  apply Forall_forall. intros row Hrow.
  apply Forall_forall. intros a Ha.
  apply (In_nth _ _ fzero) in Ha as (j & Hj & <-).
  rewrite length_map2 in Hj.
  assert (Hjn : j < n) by (rewrite (Hr row Hrow) in Hj; lia).
  rewrite (nth_map2 fsub row _ j fzero fzero fzero) by lia.
  assert (Hx : has_shape x t n) by (split; [exact Hl | apply Forall_forall; exact Hr]).
  destruct (mean_entry_Fin x t n j Hx Ht Hjn) as (col & _ & _ & ->).
  { unfold finite_matrix. apply Forall_forall. exact Hf. }
  pose proof (Hf row Hrow) as Hfrow. rewrite Forall_forall in Hfrow.
  assert (Hfa : is_finite (nth j row fzero)) by (apply Hfrow, nth_In; rewrite (Hr row Hrow); lia).
  destruct (nth j row fzero); simpl in Hfa |- *; tauto.
Qed.

Lemma scale_rows_ok x scale t n :
  has_shape x t n -> length scale = n ->
  mapM (fun row => broadcast2 fmul row scale) x = Ok (map (fun row => map2 fmul row scale) x)
  /\ has_shape (map (fun row => map2 fmul row scale) x) t n.
Proof.
  intros Hx Hs. split.
  - apply mapM_ok. intros row Hrow. unfold broadcast2.
    destruct Hx as [_ Hr]. rewrite Forall_forall in Hr.
    rewrite (Hr row Hrow), Hs, Nat.eqb_refl. reflexivity.
  - eapply has_shape_map_rows; [exact Hx|].
    intros row Hrow. rewrite length_map2. lia.
Qed.

Lemma length_scale_vector w : length (scale_vector w) = length w.
Proof. unfold scale_vector. rewrite !length_map. reflexivity. Qed.

Lemma filter_loop_ok `{NumLib} cutoff kw P T K js pf :
  has_shape P T K -> has_shape pf T K -> 0 < T ->
  Forall (fun j => j < K) js ->
  (1 <= cutoff)%Z -> (cutoff + 1 <= Z.of_nat T)%Z ->
  supported_filter kw.(filter_type) -> supported_padding kw.(padding_type) ->
  keeps_length ->
  (forall i, i < K ->
     filter_calls_ok (column i P) cutoff kw.(filter_type) kw.(padding_type)
       kw.(detrend) kw.(detrend_poly)) ->
  exists pf', foldM (filter_step cutoff kw P) js pf = Ok pf' /\ has_shape pf' T K.
Proof.
  intros HP Hpf HT Hjs Hc Hlen Hft Hpt Hkl Hcalls. revert pf Hpf.
  induction Hjs as [|j js Hj _ IH]; intros pf Hpf; cbn [foldM].
  - exists pf. split; [reflexivity | exact Hpf].
  - unfold filter_step at 1. rewrite (get_col_ok P T K j HP HT Hj). cbn [bind].
    assert (Hcl : length (column j P) = T) by (rewrite length_column; apply HP).
    destruct (filter_ts_returns_run (column j P) cutoff kw.(filter_type) kw.(padding_type)
                kw.(detrend) kw.(detrend_poly) Hc ltac:(rewrite Hcl; exact Hlen) Hft Hpt
                (Hcalls j Hj)) as (f & Hf).
    rewrite Hf. cbn [bind].
    pose proof (filter_ts_length _ _ _ _ _ _ _ Hc Hkl Hf) as Hfl.
    destruct (set_col_ok pf T K j f Hpf HT Hj ltac:(lia)) as (pf1 & -> & Hpf1 & _).
    cbn [bind]. apply IH. exact Hpf1.
Qed.

(** ** Real dot products *)

Lemma np_dot_Fin a b :
  length a = length b -> np_dot (map Fin a) (map Fin b) = Ok (Fin (rdot a b)).
Proof.
  intros Hl. unfold np_dot. rewrite !length_map, Hl, Nat.eqb_refl.
  rewrite map2_fmul_Fin, np_sum_Fin. reflexivity.
Qed.

Lemma np_dot_length u v d : np_dot u v = Ok d -> length u = length v.
Proof.
  unfold np_dot. destruct (Nat.eqb_spec (length u) (length v)); [auto | discriminate].
Qed.

Lemma fold_Rplus_acc (l : list R) (u : R) :
  fold_left Rplus l u = (fold_left Rplus l 0 + u)%R.
Proof.
  revert u. induction l as [|r l IH]; intros u; cbn [fold_left]; [ring|].
  rewrite (IH (u + r)%R), (IH (0 + r)%R). ring.
Qed.

Lemma rdot_cons x a y b : rdot (x :: a) (y :: b) = (x * y + rdot a b)%R.
Proof.
  unfold rdot, map2. cbn [combine map fst snd fold_left].
  rewrite fold_Rplus_acc. ring.
Qed.

Lemma rdot_nil_l b : rdot [] b = 0%R.
Proof. reflexivity. Qed.

Lemma rdot_nil_r a : rdot a [] = 0%R.
Proof. destruct a; reflexivity. Qed.

Lemma rdot_opp a b : rdot (map Ropp a) b = (- rdot a b)%R.
Proof.
  revert b. induction a as [|x a IH]; intros b; [rewrite !rdot_nil_l; ring|].
  destruct b as [|y b]; [rewrite !rdot_nil_r; ring|].
  cbn [map]. rewrite !rdot_cons, IH. ring.
Qed.

Lemma map_fneg_Fin a : map fneg (map Fin a) = map Fin (map Ropp a).
Proof. rewrite !map_map. reflexivity. Qed.

Lemma finite_map_Fin l : Forall is_finite (map Fin l).
Proof. apply Forall_map, Forall_forall. intros; exact I. Qed.

Lemma fltb_Fin_zero r : fltb (Fin r) fzero = true <-> (r < 0)%R.
Proof.
  unfold fltb, fzero. destruct (Rlt_dec r 0); split; auto; try discriminate; try tauto.
Qed.

(** ** The sign loop *)

Lemma finite_set_nth j c row :
  Forall is_finite row -> is_finite c -> Forall is_finite (set_nth j c row).
Proof.
  intros Hrow Hc. unfold set_nth. revert j.
  induction Hrow as [|a row Ha Hrow IH]; intros j.
  - destruct j; cbn; repeat constructor; exact Hc.
  - destruct j as [|j]; cbn [firstn skipn app].
    + constructor; [exact Hc | exact Hrow].
    + constructor; [exact Ha | apply IH].
Qed.

Lemma set_col_finite m j v m' :
  finite_matrix m -> Forall is_finite v -> set_col m j v = Ok m' -> finite_matrix m'.
Proof.
  intros Hm Hv. unfold set_col.
  destruct (negb (Nat.ltb j (ncols m))); [discriminate|].
  destruct (Nat.eqb (length v) (nrows m)).
  - intros [= <-]. unfold map2. clear -Hm Hv. revert v Hv.
    induction Hm as [|row m Hrow _ IH]; intros v Hv; [constructor|].
    destruct Hv as [|c v Hc Hv]; [constructor|].
    cbn [combine map fst snd]. constructor; [apply finite_set_nth; assumption | apply IH; exact Hv].
  - destruct v as [|c [|]]; try discriminate. intros [= <-].
    inversion Hv; subst. apply Forall_map. eapply Forall_impl; [|exact Hm].
    intros row Hrow. apply finite_set_nth; assumption.
Qed.

(** One pass of the sign loop fixes the sign of its column and leaves the
    others alone. *)
Lemma sign_step_inv scale lfps lfcs j lfps' lfcs' n k :
  sign_step scale (lfps, lfcs) j = Ok (lfps', lfcs') ->
  has_shape lfps n k -> finite_matrix lfps -> Forall is_finite scale ->
  has_shape lfps' n k /\ finite_matrix lfps'
  /\ sign_fixed scale lfps' j
  /\ forall j', j' <> j -> column j' lfps' = column j' lfps.
Proof.
  intros Hs Hsh Hfin Hsc. unfold sign_step in Hs.
  apply bind_Ok in Hs as (pj & Hpj & Hs).
  apply bind_Ok in Hs as (d & Hd & Hs).
  unfold get_col in Hpj. destruct (Nat.ltb_spec j (ncols lfps)) as [Hj|]; [|discriminate].
  injection Hpj as <-.
  assert (Hn : 0 < n).
  { destruct Hsh as [Hl _]. destruct lfps; [unfold ncols in Hj; simpl in Hj; lia | simpl in Hl; lia]. }
  rewrite (ncols_shape Hsh Hn) in Hj.
  destruct (finite_as_reals _ (finite_column j lfps Hfin)) as (a & Ha).
  destruct (finite_as_reals _ Hsc) as (b & ->).
  pose proof (np_dot_length _ _ _ Hd) as Hlen.
  rewrite Ha in Hd, Hlen. rewrite !length_map in Hlen.
  rewrite (np_dot_Fin a b Hlen) in Hd. injection Hd as <-.
  destruct (fltb (Fin (rdot a b)) fzero) eqn:Hlt.
  - apply fltb_Fin_zero in Hlt.
    apply bind_Ok in Hs as (l1 & Hset & Hs).
    apply bind_Ok in Hs as (cj & _ & Hs).
    apply bind_Ok in Hs as (c1 & _ & Hs). injection Hs as <- <-.
    assert (Hvl : length (map fneg (column j lfps)) = n)
      by (rewrite length_map, length_column; apply Hsh).
    destruct (set_col_ok lfps n k j _ Hsh Hn Hj Hvl) as (m' & Hm' & Hsh' & Hcol & Hoth).
    rewrite Hset in Hm'. injection Hm' as <-.
    split; [exact Hsh'|]. split.
    + eapply set_col_finite; [exact Hfin | | exact Hset].
      rewrite Ha, map_fneg_Fin. apply finite_map_Fin.
    + split; [|exact Hoth].
      exists (- rdot a b)%R. rewrite Hcol, Ha, map_fneg_Fin.
      rewrite np_dot_Fin by (rewrite length_map; exact Hlen).
      rewrite rdot_opp. split; [reflexivity | lra].
  - injection Hs as <- <-.
    split; [exact Hsh|]. split; [exact Hfin|]. split; [|reflexivity].
    exists (rdot a b). rewrite Ha, (np_dot_Fin a b Hlen). split; [reflexivity|].
    destruct (Rlt_dec (rdot a b) 0) as [Hneg|Hge]; [|lra].
    apply fltb_Fin_zero in Hneg. rewrite Hneg in Hlt. discriminate.
Qed.

Lemma sign_loop_inv scale js lfps lfcs lfps' lfcs' n k :
  foldM (sign_step scale) js (lfps, lfcs) = Ok (lfps', lfcs') ->
  has_shape lfps n k -> finite_matrix lfps -> Forall is_finite scale ->
  has_shape lfps' n k /\ finite_matrix lfps'
  /\ (forall j, In j js -> sign_fixed scale lfps' j)
  /\ (forall j, ~ In j js -> column j lfps' = column j lfps).
Proof.
  intros Hf Hsh Hfin Hsc. revert lfps lfcs Hf Hsh Hfin.
  induction js as [|j js IH]; intros lfps lfcs Hf Hsh Hfin; cbn [foldM] in Hf.
  - injection Hf as <- <-.
    split; [exact Hsh|]. split; [exact Hfin|]. split; [intros j []|reflexivity].
  - apply bind_Ok in Hf as ([l1 c1] & Hstep & Hf).
    destruct (sign_step_inv _ _ _ _ _ _ _ _ Hstep Hsh Hfin Hsc) as (Hsh1 & Hfin1 & Hfix1 & Hoth1).
    destruct (IH _ _ Hf Hsh1 Hfin1) as (Hsh' & Hfin' & Hfix' & Hoth').
    split; [exact Hsh'|]. split; [exact Hfin'|]. split.
    + intros j0 [<- | Hin]; [|apply Hfix'; exact Hin].
      destruct (in_dec Nat.eq_dec j js) as [Hin|Hnin]; [apply Hfix'; exact Hin|].
      unfold sign_fixed in *. rewrite (Hoth' j Hnin). exact Hfix1.
    + intros j0 Hnin. rewrite Hoth' by (intros Hin; apply Hnin; right; exact Hin).
      apply Hoth1. intros ->. apply Hnin. left; reflexivity.
Qed.

(** ** Finite arrays and the scale vector *)

Lemma finite_transpose m : finite_matrix m -> finite_matrix (np_transpose m).
Proof.
  intros Hm. unfold np_transpose, finite_matrix. apply Forall_map, Forall_forall.
  intros j _. apply finite_column. exact Hm.
Qed.

Lemma finite_matmul a b c :
  finite_matrix a -> finite_matrix b -> matmul a b = Ok c -> finite_matrix c.
Proof.
  intros Ha Hb. unfold matmul. destruct (Nat.eqb _ _); [|discriminate]. intros [= <-].
  unfold finite_matrix. apply Forall_map. eapply Forall_impl; [|exact Ha].
  intros row Hrow. apply Forall_map, Forall_forall. intros j _.
  destruct (finite_as_reals _ Hrow) as (r & ->).
  destruct (finite_as_reals _ (finite_column j b Hb)) as (cl & ->).
  rewrite map2_fmul_Fin, np_sum_Fin. exact I.
Qed.

Lemma take_idx_finite row idx r :
  Forall is_finite row -> take_idx row idx = Ok r -> Forall is_finite r.
Proof.
  intros Hrow. unfold take_idx. revert r.
  induction idx as [|i idx IH]; intros r; cbn [mapM].
  - intros [= <-]. constructor.
  - destruct (Nat.ltb_spec i (length row)) as [Hi|]; [|discriminate]. cbn [bind].
    intros Hr. apply bind_Ok in Hr as (bs & Hbs & [= <-]).
    constructor; [|apply IH; exact Hbs].
    rewrite Forall_forall in Hrow. apply Hrow, nth_In. exact Hi.
Qed.

Lemma take_cols_finite m idx m' :
  finite_matrix m -> take_cols m idx = Ok m' -> finite_matrix m'.
Proof.
  intros Hm. unfold take_cols. revert m'.
  induction Hm as [|row m Hrow _ IH]; intros m'; cbn [mapM].
  - intros [= <-]. constructor.
  - intros Hr. apply bind_Ok in Hr as (r & Hr1 & Hr).
    apply bind_Ok in Hr as (rs & Hrs & [= <-]).
    constructor; [eapply take_idx_finite; eassumption | apply IH; exact Hrs].
Qed.

Lemma fold_Rplus_pos (l : list R) (u : R) :
  Forall (fun w => 0 < w)%R l -> (0 <= u)%R -> l <> [] -> (0 < fold_left Rplus l u)%R.
Proof.
  intros Hl. revert u. induction Hl as [|w l Hw Hl IH]; intros u Hu Hne; [congruence|].
  cbn [fold_left]. destruct l as [|w' l].
  - simpl. lra.
  - apply IH; [lra | discriminate].
Qed.

Lemma fsqrt_Fin x : (0 <= x)%R -> fsqrt (Fin x) = Fin (sqrt x).
Proof. intros Hx. unfold fsqrt. destruct (Rlt_dec x 0); [exfalso; lra | reflexivity]. Qed.

Lemma scale_vector_Fin (ws : list R) :
  Forall (fun w => 0 < w)%R ws -> ws <> [] ->
  let S := fold_left Rplus ws 0%R in
  scale_vector (map Fin ws) = map Fin (map (fun w => sqrt (w / S)) ws).
Proof.
  intros Hpos Hne S.
  assert (HS : (0 < S)%R) by (apply fold_Rplus_pos; [exact Hpos | lra | exact Hne]).
  unfold scale_vector. rewrite np_sum_Fin. fold S. rewrite !map_map.
  apply map_ext_in. intros w Hw. rewrite Forall_forall in Hpos. specialize (Hpos w Hw).
  rewrite fdiv_Fin by lra. apply fsqrt_Fin.
  apply Rlt_le, Rdiv_lt_0_compat; assumption.
Qed.

Lemma map2_fdiv_Fin a s :
  Forall (fun x => x <> 0%R) s ->
  map2 fdiv (map Fin a) (map Fin s) = map Fin (map2 Rdiv a s).
Proof.
  intros Hs. unfold map2. revert a. induction Hs as [|y s Hy Hs IH]; intros a.
  - destruct a; reflexivity.
  - destruct a as [|x a]; [reflexivity|]. cbn [map combine fst snd].
    rewrite fdiv_Fin by exact Hy. f_equal. apply IH.
Qed.

Lemma rdot_unscale (a ws : list R) (S : R) :
  (0 < S)%R -> Forall (fun w => 0 < w)%R ws ->
  rdot (map2 Rdiv a (map (fun w => sqrt (w / S)) ws)) ws
  = (S * rdot a (map (fun w => sqrt (w / S)) ws))%R.
Proof.
  intros HS Hpos. revert a. induction Hpos as [|w ws Hw Hpos IH]; intros a.
  - cbn [map]. rewrite !rdot_nil_r. ring.
  - destruct a as [|x a]; [unfold rdot, map2; simpl; ring|].
    cbn [map]. unfold map2 at 1. cbn [combine map fst snd]. fold (map2 Rdiv a (map (fun w => sqrt (w / S)) ws)).
    rewrite !rdot_cons, IH.
    assert (Hq : (0 < w / S)%R) by (apply Rdiv_lt_0_compat; assumption).
    pose proof (sqrt_lt_R0 _ Hq) as Hs.
    pose proof (sqrt_sqrt (w / S) (Rlt_le _ _ Hq)) as Hss.
    set (s := sqrt (w / S)) in *.
    assert (Hw' : w = (S * (s * s))%R) by (rewrite Hss; field; lra).
    rewrite Hw' at 1. field. lra.
Qed.

(** ** Division by the scale vector; what a run of [lfca] went through *)

Lemma div_rows_regular m scale :
  nrows m = length scale ->
  div_rows m scale = Ok (map2 (fun row s => map (fun a => fdiv a s) row) m scale).
Proof. intros E. unfold div_rows. rewrite E, Nat.eqb_refl. reflexivity. Qed.

Lemma div_rows_shape m scale n k :
  has_shape m n k -> length scale = n ->
  has_shape (map2 (fun row s => map (fun a => fdiv a s) row) m scale) n k.
Proof.
  intros [Hl Hr] Hs. split; [rewrite length_map2; lia|].
  unfold map2. apply Forall_map, Forall_forall. intros [row s] Hin. cbn [fst snd].
  rewrite length_map. rewrite Forall_forall in Hr. apply Hr.
  eapply in_combine_l; exact Hin.
Qed.

Lemma column_div_rows m scale k j :
  Forall (fun row => length row = k) m -> j < k -> length m = length scale ->
  column j (map2 (fun row s => map (fun a => fdiv a s) row) m scale)
  = map2 fdiv (column j m) scale.
Proof.
  intros Hr Hj. unfold map2, column. revert scale.
  induction Hr as [|row m Hrow _ IH]; intros scale Hl; [reflexivity|].
  destruct scale as [|s scale]; [discriminate|]. cbn [combine map fst snd].
  f_equal; [|apply IH; simpl in Hl; lia].
  rewrite (nth_indep _ fzero (fdiv fzero s)) by (rewrite length_map; lia).
  apply (map_nth (fun a => fdiv a s)).
Qed.

Lemma div_rows_no_columns m scale dv n :
  has_shape m n 0 -> div_rows m scale = Ok dv -> np_transpose dv = [].
Proof.
  intros [_ Hr] Hd.
  assert (Hnil : forall row, In row m -> row = []).
  { rewrite Forall_forall in Hr. intros row Hin. apply length_zero_iff_nil, Hr, Hin. }
  assert (Hdv : ncols dv = 0).
  { unfold div_rows in Hd. destruct (Nat.eqb (nrows m) (length scale)).
    - injection Hd as <-. unfold ncols, map2.
      destruct m as [|row m]; [reflexivity|]. destruct scale as [|s scale]; [reflexivity|].
      cbn [combine map hd fst snd]. rewrite (Hnil row (or_introl eq_refl)). reflexivity.
    - destruct m as [|row [|row' m]].
      + destruct scale as [|s [|]]; try discriminate. injection Hd as <-. reflexivity.
      + injection Hd as <-. rewrite (Hnil row (or_introl eq_refl)).
        destruct scale; reflexivity.
      + destruct scale as [|s [|]]; try discriminate. injection Hd as <-.
        unfold ncols. cbn [map hd]. rewrite (Hnil row (or_introl eq_refl)). reflexivity. }
  unfold np_transpose. rewrite Hdv. reflexivity.
Qed.

Lemma sort_eig_finite `{NumLib} eig eigv eig' eigv' :
  finite_matrix eigv -> sort_eig eig eigv = Ok (eig', eigv') -> finite_matrix eigv'.
Proof.
  intros Hv Hs. unfold sort_eig in Hs.
  apply bind_Ok in Hs as (e & _ & Hs).
  apply bind_Ok in Hs as (v & Hv' & [= _ <-]).
  eapply take_cols_finite; eassumption.
Qed.

Lemma linalg_eigh_inv `{NumLib} c r :
  linalg_eigh (np_squeeze c) = Ok r -> np_linalg_eigh c = Ok r.
Proof.
  destruct c as [|[|a [|b row]] [|row' c]]; cbn [np_squeeze linalg_eigh];
    first [discriminate | auto].
Qed.

Lemma np_squeeze_wide c K : has_shape c K K -> 2 <= K -> np_squeeze c = Cov2 c.
Proof.
  intros [Hl _] HK.
  destruct c as [|[|a [|b row]] [|row' c]]; cbn [length] in Hl; try lia; reflexivity.
Qed.

Lemma np_squeeze_single c : has_shape c 1 1 -> exists a, c = [[a]].
Proof.
  intros [Hl Hr].
  destruct c as [|row [|row' c]]; try discriminate Hl.
  inversion Hr as [|? ? Hrow _]; subst.
  destruct row as [|a [|b row]]; try discriminate Hrow. exists a. reflexivity.
Qed.

(** What a successful run of [lfca] went through after the patterns were
    projected. *)
Lemma lfca_inv `{NumLib} x cutoff truncation weights kw lfcs lfps :
  finite_run x cutoff truncation weights kw ->
  lfca (Arr2 x) cutoff truncation weights kw = Ok (lfcs, lfps) ->
  exists l0 c0 l1 dv n k,
    has_shape l0 n k /\ finite_matrix l0
    /\ foldM (sign_step (scale_vector weights)) (seq 0 (ncols l0)) (l0, c0) = Ok (l1, lfcs)
    /\ div_rows l1 (scale_vector weights) = Ok dv
    /\ lfps = np_transpose dv.
Proof.
  intros Hfr Hr. unfold lfca in Hr.
  apply bind_Ok in Hr as (xs & Hxs & Hr).
  apply bind_Ok in Hr as (s & HEof & Hr).
  apply bind_Ok in Hr as (pcs & Hpcs & Hr).
  apply bind_Ok in Hr as (pf & Hpf & Hr).
  apply bind_Ok in Hr as (cv & Hcv & Hr).
  apply bind_Ok in Hr as ([eig eigv] & Heigh & Hr).
  apply linalg_eigh_inv in Heigh.
  apply bind_Ok in Hr as ([eig' eigv'] & Hsort & Hr).
  apply bind_Ok in Hr as (e1 & _ & Hr).
  apply bind_Ok in Hr as (uvec & _ & Hr).
  apply bind_Ok in Hr as (c0 & _ & Hr).
  apply bind_Ok in Hr as (e2 & He2 & Hr).
  apply bind_Ok in Hr as (l0 & Hl0 & Hr).
  apply bind_Ok in Hr as ([l1 c1] & Hloop & Hr).
  apply bind_Ok in Hr as (dv & Hdv & [= <- <-]).
  destruct (Hfr xs s pcs pf cv eig eigv e2 Hxs HEof Hpcs Hpf Hcv Heigh He2) as [Hfe Hfv].
  exists l0, c0, l1, dv, (nrows (np_transpose e2)), (ncols eigv').
  split; [apply matmul_rect; exact Hl0|].
  split.
  { eapply finite_matmul; [| |exact Hl0].
    - apply finite_transpose. exact Hfe.
    - eapply sort_eig_finite; [|exact Hsort]. exact Hfv. }
  auto.
Qed.

Lemma finite_scale_vector (ws : list R) :
  Forall (fun w => 0 < w)%R ws -> Forall is_finite (scale_vector (map Fin ws)).
Proof.
  intros Hpos. destruct ws as [|w ws]; [constructor|].
  rewrite scale_vector_Fin by (auto; discriminate). apply finite_map_Fin.
Qed.

(** The rows [lfca] returns are the columns of the patterns, each entry
    divided by its scale factor. *)
Lemma returned_rows (scale : vector) (l1 dv : matrix) (n k : nat) :
  has_shape l1 n k ->
  (0 < n -> 0 < k -> length scale = n) ->
  div_rows l1 scale = Ok dv ->
  forall row, In row (np_transpose dv) ->
    0 < n /\ 0 < k /\ exists j, j < k /\ row = map2 fdiv (column j l1) scale.
Proof.
  intros Hsh Hls Hdv row Hin.
  destruct n as [|n'].
  { destruct Hsh as [Hl _]. apply length_zero_iff_nil in Hl. subst l1.
    unfold div_rows in Hdv. destruct (Nat.eqb _ _).
    - injection Hdv as <-. destruct Hin.
    - destruct scale as [|s [|]]; try discriminate.
      injection Hdv as <-. destruct Hin. }
  destruct k as [|k'].
  { rewrite (div_rows_no_columns _ _ _ _ Hsh Hdv) in Hin. destruct Hin. }
  specialize (Hls (Nat.lt_0_succ n') (Nat.lt_0_succ k')).
  set (n := S n') in *. set (k := S k') in *.
  rewrite div_rows_regular in Hdv by (unfold nrows; rewrite Hls; apply Hsh).
  injection Hdv as <-.
  pose proof (div_rows_shape l1 scale n k Hsh Hls) as Hdsh.
  unfold np_transpose in Hin.
  rewrite (ncols_shape Hdsh ltac:(unfold n; lia)) in Hin.
  apply in_map_iff in Hin as (j & <- & Hj). apply in_seq in Hj.
  split; [unfold n; lia|]. split; [unfold k; lia|].
  exists j. split; [lia|].
  apply (column_div_rows l1 scale k j (proj2 Hsh)); [lia | rewrite Hls; apply Hsh].
Qed.

(** After the sign loop, dividing the rows by the scale vector and reading
    the columns as patterns gives rows whose dot product with the (strictly
    positive) weights is non-negative. *)
Lemma unscaled_rows_nonneg (ws : list R) (l1 dv : matrix) (n k : nat) :
  Forall (fun w => 0 < w)%R ws ->
  has_shape l1 n k -> finite_matrix l1 ->
  (0 < n -> forall j, j < k -> sign_fixed (scale_vector (map Fin ws)) l1 j) ->
  div_rows l1 (scale_vector (map Fin ws)) = Ok dv ->
  forall row, In row (np_transpose dv) ->
    exists d, np_dot row (map Fin ws) = Ok (Fin d) /\ (0 <= d)%R.
Proof.
  intros Hpos Hsh Hfin Hfix Hdv row Hin.
  assert (Hls : 0 < n -> 0 < k -> length (scale_vector (map Fin ws)) = n).
  { intros Hn Hk. destruct (Hfix Hn 0 Hk) as (d & Hd & _).
    apply np_dot_length in Hd. rewrite length_column in Hd. rewrite <- Hd. apply Hsh. }
  destruct (returned_rows _ l1 dv n k Hsh Hls Hdv row Hin) as (Hn & Hk & j & Hj & ->).
  specialize (Hls Hn Hk). specialize (Hfix Hn).
  assert (Hws : length ws = n)
    by (rewrite length_scale_vector, length_map in Hls; exact Hls).
  assert (Hne : ws <> []) by (intros ->; simpl in Hws; lia).
  set (S := fold_left Rplus ws 0%R).
  assert (HS : (0 < S)%R) by (apply fold_Rplus_pos; [exact Hpos | lra | exact Hne]).
  pose proof (scale_vector_Fin ws Hpos Hne) as Hsc. cbv zeta in Hsc. fold S in Hsc.
  set (sr := map (fun w => sqrt (w / S)) ws) in *.
  assert (Hsr : Forall (fun x => x <> 0%R) sr).
  { unfold sr. apply Forall_map. eapply Forall_impl; [|exact Hpos].
    intros w Hw. cbv beta.
    pose proof (sqrt_lt_R0 (w / S) (Rdiv_lt_0_compat _ _ Hw HS)). lra. }
  destruct (finite_as_reals _ (finite_column j l1 Hfin)) as (a & Ha).
  assert (Hal : length a = n).
  { rewrite <- (length_map Fin a), <- Ha, length_column. apply Hsh. }
  destruct (Hfix j Hj) as (d & Hd & Hd0).
  rewrite Ha, Hsc in Hd |- *.
  rewrite np_dot_Fin in Hd by (unfold sr; rewrite length_map; lia).
  injection Hd as <-.
  rewrite map2_fdiv_Fin by exact Hsr.
  rewrite np_dot_Fin by (rewrite length_map2; unfold sr; rewrite length_map; lia).
  eexists. split; [reflexivity|].
  unfold sr. rewrite rdot_unscale by assumption.
  apply Rmult_le_pos; [lra | exact Hd0].
Qed.

Lemma lfca_rows_nonneg `{NumLib} (x : matrix) (cutoff truncation : Z)
    (ws : list R) (kw : filter_kwargs) (lfcs lfps : matrix) :
  finite_run x cutoff truncation (map Fin ws) kw ->
  Forall (fun w => 0 < w)%R ws ->
  lfca (Arr2 x) cutoff truncation (map Fin ws) kw = Ok (lfcs, lfps) ->
  forall row, In row lfps ->
    exists d, np_dot row (map Fin ws) = Ok (Fin d) /\ (0 <= d)%R.
Proof.
  intros Hfs Hpos Hr.
  destruct (lfca_inv _ _ _ _ _ _ _ Hfs Hr)
    as (l0 & c0 & l1 & dv & n & k & Hsh0 & Hfin0 & Hloop & Hdv & ->).
  destruct (sign_loop_inv _ _ _ _ _ _ _ _ Hloop Hsh0 Hfin0 (finite_scale_vector ws Hpos))
    as (Hsh1 & Hfin1 & Hfix & _).
  apply (unscaled_rows_nonneg ws l1 dv n k Hpos Hsh1 Hfin1); [|exact Hdv].
  intros Hn j Hj. apply Hfix. apply in_seq.
  rewrite (ncols_shape Hsh0 Hn). lia.
Qed.

(** ** A run of [lfca] whose library calls succeed *)

Lemma sign_loop_ok scale js lfps lfcs T N K :
  has_shape lfps N K -> has_shape lfcs T K -> length scale = N ->
  0 < N -> 0 < T -> Forall (fun j => j < K) js ->
  exists lfps' lfcs',
    foldM (sign_step scale) js (lfps, lfcs) = Ok (lfps', lfcs')
    /\ has_shape lfps' N K /\ has_shape lfcs' T K.
Proof.
  intros Hp Hc Hs HN HT Hjs. revert lfps lfcs Hp Hc.
  induction Hjs as [|j js Hj _ IH]; intros lfps lfcs Hp Hc; cbn [foldM].
  - exists lfps, lfcs. auto.
  - unfold sign_step at 1. rewrite (get_col_ok lfps N K j Hp HN Hj). cbn [bind].
    unfold np_dot. rewrite length_column, (proj1 Hp), Hs, Nat.eqb_refl. cbn [bind].
    destruct (fltb _ fzero).
    + destruct (set_col_ok lfps N K j (map fneg (column j lfps)) Hp HN Hj
                  ltac:(rewrite length_map, length_column; apply Hp))
        as (l1 & -> & Hl1 & _).
      cbn [bind]. rewrite (get_col_ok lfcs T K j Hc HT Hj). cbn [bind].
      destruct (set_col_ok lfcs T K j (map fneg (column j lfcs)) Hc HT Hj
                  ltac:(rewrite length_map, length_column; apply Hc))
        as (c1 & -> & Hc1 & _).
      cbn [bind]. apply IH; assumption.
    + apply IH; assumption.
Qed.

Lemma weighted_anomalies_ok (x : matrix) (T N : nat) (weights : vector) :
  has_shape x T N -> 0 < T -> length weights = N ->
  weighted_anomalies x weights
  = Ok (map (fun row => map2 fmul row (scale_vector weights)) (center x))
  /\ has_shape (map (fun row => map2 fmul row (scale_vector weights)) (center x)) T N.
Proof.
  intros Hx HT Hw. unfold weighted_anomalies.
  apply scale_rows_ok; [apply center_shape; assumption|].
  rewrite length_scale_vector. exact Hw.
Qed.

(** The first part of a run: the weighted matrix, the solver, the principal
    components, their filtered series and the covariance of these. *)
Lemma lfca_to_cov `{NumLib} (x : matrix) (T N K : nat) (cutoff : Z)
    (weights : vector) (kw : filter_kwargs) :
  has_shape x T N -> length weights = N ->
  1 <= K -> K <= T -> K <= N ->
  (1 <= cutoff)%Z -> (cutoff + 1 <= Z.of_nat T)%Z ->
  supported_filter kw.(filter_type) -> supported_padding kw.(padding_type) ->
  keeps_length ->
  library_calls_ok x T N K cutoff weights kw ->
  exists xs s P E1 E2 pf c eig eigv,
    weighted_anomalies x weights = Ok xs /\ has_shape xs T N
    /\ Eof xs = Ok s
    /\ eof_pcs s (Z.of_nat K) = Ok P /\ has_shape P T K
    /\ eof_eofs s (Z.of_nat K) 1 = Ok E1 /\ has_shape E1 K N
    /\ eof_eofs s (Z.of_nat K) 2 = Ok E2 /\ has_shape E2 K N
    /\ foldM (filter_step cutoff kw P) (range_nat (Z.of_nat K))
         (map (map (fun _ => fzero)) P) = Ok pf
    /\ np_cov pf = Ok c /\ has_shape c K K
    /\ np_linalg_eigh c = Ok (eig, eigv) /\ length eig = K /\ has_shape eigv K K.
Proof.
  intros Hx Hw HK HKT HKN Hc Hlen Hft Hpt Hkl Hlib.
  assert (HT : 0 < T) by lia.
  destruct (weighted_anomalies_ok x T N weights Hx HT Hw) as [Hxs Hsh].
  set (xs := map (fun row => map2 fmul row (scale_vector weights)) (center x)) in *.
  destruct (Hlib xs Hxs)
    as (s & P & E1 & E2 & HEof & Hpcs & HP & He1 & HE1 & He2 & HE2 & Hcalls & Hcov).
  destruct (filter_loop_ok cutoff kw P T K (range_nat (Z.of_nat K))
              (map (map (fun _ => fzero)) P)) as (pf & Hpf & Hpfs); auto.
  { destruct HP as [HPl HPr]. split; [rewrite length_map; exact HPl|].
    apply Forall_map. eapply Forall_impl; [|exact HPr].
    intros row Hrow. rewrite length_map. exact Hrow. }
  { unfold range_nat. rewrite Nat2Z.id.
    apply Forall_forall. intros j Hj. apply in_seq in Hj. lia. }
  destruct (Hcov pf Hpf Hpfs) as (c & eig & eigv & Hc' & Hcs & Heigh & Hel & Hev).
  exists xs, s, P, E1, E2, pf, c, eig, eigv. repeat split; try assumption; try apply Hsh;
    try apply HP; try apply HE1; try apply HE2; try apply Hcs; try apply Hev.
Qed.

Lemma lfca_returns `{NumLib} (x : matrix) (T N K : nat) (cutoff : Z)
    (weights : vector) (kw : filter_kwargs) :
  has_shape x T N -> length weights = N ->
  2 <= K -> K <= T -> K <= N ->
  (1 <= cutoff)%Z -> (cutoff + 1 <= Z.of_nat T)%Z ->
  supported_filter kw.(filter_type) -> supported_padding kw.(padding_type) ->
  keeps_length ->
  library_calls_ok x T N K cutoff weights kw ->
  exists lfcs lfps,
    lfca (Arr2 x) cutoff (Z.of_nat K) weights kw = Ok (lfcs, lfps)
    /\ has_shape lfcs T K /\ has_shape lfps K N.
Proof.
  intros Hx Hw HK2 HKT HKN Hc Hlen Hft Hpt Hkl Hlib.
  assert (HK : 1 <= K) by lia.
  assert (HT : 0 < T) by lia. assert (HN : 0 < N) by lia.
  destruct (lfca_to_cov x T N K cutoff weights kw Hx Hw HK HKT HKN Hc Hlen Hft Hpt Hkl Hlib)
    as (xs & s & P & E1 & E2 & pf & c & eig & eigv & Hxs & Hsh & HEof & Hpcs & HP
        & He1 & HE1 & He2 & HE2 & Hpf & Hcov & Hcs & Heigh & Hel & Hev).
  unfold weighted_anomalies in Hxs. unfold lfca.
  set (scale := scale_vector weights) in *.
  assert (Hsl : length scale = N) by (unfold scale; rewrite length_scale_vector; exact Hw).
  rewrite Hxs. cbn [bind]. rewrite HEof. cbn [bind]. rewrite Hpcs. cbn [bind].
  rewrite Hpf. cbn [bind]. rewrite Hcov. cbn [bind].
  rewrite (np_squeeze_wide c K Hcs HK2). cbn [linalg_eigh]. rewrite Heigh. cbn [bind].
  rewrite <- Hel in Hev.
  destruct (sort_eig_ok eig eigv (length eig) Hev) as [-> Hev']. cbn [bind].
  rewrite Hel in Hev'.
  set (eigv' := map (fun row => map (fun i => nth i row fzero) (eig_argsort eig)) eigv) in *.
  rewrite He1. cbn [bind].
  destruct (matmul_ok (np_transpose E1) eigv' N K K (transpose_shape E1 K N HE1 HK) Hev' HN HK)
    as (uvec & -> & Hu). cbn [bind].
  destruct (matmul_ok xs uvec T N K Hsh Hu HT HN) as (lfcs & -> & Hlc). cbn [bind].
  rewrite He2. cbn [bind].
  destruct (matmul_ok (np_transpose E2) eigv' N K K (transpose_shape E2 K N HE2 HK) Hev' HN HK)
    as (lfps & -> & Hlp). cbn [bind].
  rewrite (ncols_shape Hlp HN).
  destruct (sign_loop_ok scale (seq 0 K) lfps lfcs T N K Hlp Hlc Hsl HN HT)
    as (lfps' & lfcs' & -> & Hlp' & Hlc').
  { apply Forall_forall. intros j Hj. apply in_seq in Hj. lia. }
  cbn [bind].
  rewrite div_rows_regular by (unfold nrows; rewrite Hsl; apply Hlp').
  cbn [bind].
  do 2 eexists. split; [reflexivity|]. split; [exact Hlc'|].
  apply transpose_shape; [|exact HN]. apply div_rows_shape; assumption.
Qed.

(** With one component the covariance that [np.cov] returns is
    0-dimensional, and [np.linalg.eigh] refuses it. *)
Lemma lfca_single_component `{NumLib} (x : matrix) (T N : nat) (cutoff : Z)
    (weights : vector) (kw : filter_kwargs) :
  has_shape x T N -> length weights = N ->
  1 <= T -> 1 <= N ->
  (1 <= cutoff)%Z -> (cutoff + 1 <= Z.of_nat T)%Z ->
  supported_filter kw.(filter_type) -> supported_padding kw.(padding_type) ->
  keeps_length ->
  library_calls_ok x T N 1 cutoff weights kw ->
  lfca (Arr2 x) cutoff 1 weights kw
  = Raise (LinAlgError
      "0-dimensional array given. Array must be at least two-dimensional").
Proof.
  intros Hx Hw HT HN Hc Hlen Hft Hpt Hkl Hlib.
  destruct (lfca_to_cov x T N 1 cutoff weights kw Hx Hw (le_n 1) HT HN Hc Hlen Hft Hpt Hkl Hlib)
    as (xs & s & P & E1 & E2 & pf & c & eig & eigv & Hxs & Hsh & HEof & Hpcs & HP
        & He1 & HE1 & He2 & HE2 & Hpf & Hcov & Hcs & Heigh & Hel & Hev).
  unfold weighted_anomalies in Hxs. unfold lfca.
  change (Z.of_nat 1) with 1%Z in *.
  rewrite Hxs. cbn [bind]. rewrite HEof. cbn [bind]. rewrite Hpcs. cbn [bind].
  rewrite Hpf. cbn [bind]. rewrite Hcov. cbn [bind].
  destruct (np_squeeze_single c Hcs) as (a & ->). reflexivity.
Qed.

(** [lfca] does not catch the errors of [filter_ts]. *)
Lemma lfca_filter_raises `{NumLib} (x : matrix) (cutoff truncation : Z)
    (weights : vector) (kw : filter_kwargs) (xs : matrix) (s : eof_solver)
    (P : matrix) (e : exn) :
  mapM (fun row => broadcast2 fmul row (scale_vector weights)) (center x) = Ok xs ->
  Eof xs = Ok s -> eof_pcs s truncation = Ok P ->
  (1 <= truncation)%Z -> 0 < ncols P ->
  filter_ts (column 0 P) cutoff kw.(filter_type) kw.(padding_type)
    kw.(detrend) kw.(detrend_poly) = Raise e ->
  lfca (Arr2 x) cutoff truncation weights kw = Raise e.
Proof.
  intros Hxs HEof Hpcs HK HP Hfilt. unfold lfca.
  rewrite Hxs. cbn [bind]. rewrite HEof. cbn [bind]. rewrite Hpcs. cbn [bind].
  unfold range_nat.
  destruct (Z.to_nat truncation) as [|k] eqn:Hk; [lia|].
  cbn [seq foldM]. unfold filter_step at 1. unfold get_col.
  rewrite (proj2 (Nat.ltb_lt 0 (ncols P)) HP). cbn [bind].
  rewrite Hfilt. reflexivity.
Qed.

(** ** Runs of the small instance *)

Lemma finite_unit_row n i : Forall is_finite (unit_row n i).
Proof.
  unfold unit_row. apply Forall_map, Forall_forall. intros j _.
  destruct (Nat.eqb i j); exact I.
Qed.

Lemma length_unit_row n i : length (unit_row n i) = n.
Proof. unfold unit_row. rewrite length_map, length_seq. reflexivity. Qed.

Lemma small_lib_finite_run (x : matrix) (cutoff truncation : Z) (weights : vector)
    (kw : filter_kwargs) :
  @finite_run small_lib x cutoff truncation weights kw.
Proof.
  intros xs s P pf c eig eigv E2 _ _ _ _ _ Heigh He2.
  cbn [np_linalg_eigh eof_eofs small_lib] in Heigh, He2.
  injection Heigh as _ <-. injection He2 as <-.
  split; unfold axis_eofs, finite_matrix;
    apply Forall_map, Forall_forall; intros i _; apply finite_unit_row.
Qed.

Lemma sample_cov_ok m T K :
  has_shape m T K -> 0 < T -> 0 < K ->
  exists c, sample_cov m = Ok c /\ has_shape c K K.
Proof.
  intros Hm HT HK. unfold sample_cov.
  set (d := map (fun row => map2 fsub row (ndarray_mean_axis0 m)) m).
  assert (Hd : has_shape d T K).
  { eapply has_shape_map_rows; [exact Hm|].
    intros row Hrow. rewrite length_map2. unfold ndarray_mean_axis0.
    rewrite length_map, length_seq, (ncols_shape Hm HT). lia. }
  destruct (matmul_ok (np_transpose d) d K T K
              (transpose_shape _ T K Hd HT) Hd HK HT) as (c & -> & Hcs).
  cbn [bind]. eexists. split; [reflexivity|].
  eapply has_shape_map_rows; [exact Hcs|]. intros row Hrow. rewrite length_map. exact Hrow.
Qed.

Lemma all_nan_finite (xs : matrix) (T N : nat) :
  has_shape xs T N -> 0 < T -> 0 < N -> finite_matrix xs -> all_nan xs = false.
Proof.
  intros [Hl Hr] HT HN Hf.
  destruct xs as [|row xs]; [simpl in Hl; lia|].
  inversion Hr as [|? ? Hrow _]; subst. inversion Hf as [|? ? Hfrow _]; subst.
  destruct row as [|a row]; [simpl in HN; lia|].
  inversion Hfrow as [|? ? Ha _]; subst.
  destruct a; simpl in Ha; try contradiction; reflexivity.
Qed.

Lemma finite_weighted (x : matrix) (T N : nat) (weights : vector) :
  has_shape x T N -> 0 < T -> finite_matrix x ->
  Forall is_finite (scale_vector weights) ->
  finite_matrix (map (fun row => map2 fmul row (scale_vector weights)) (center x)).
Proof.
  intros Hx HT Hf Hs. pose proof (finite_center x T N Hx HT Hf) as Hc.
  unfold finite_matrix in *. apply Forall_map. eapply Forall_impl; [|exact Hc].
  intros row Hrow. cbv beta.
  destruct (finite_as_reals _ Hrow) as (r & ->).
  destruct (finite_as_reals _ Hs) as (sr & ->).
  rewrite map2_fmul_Fin. apply finite_map_Fin.
Qed.

Lemma small_lib_solves (x : matrix) (T N K : nat) (weights : vector) :
  has_shape x T N -> length weights = N ->
  finite_matrix x -> Forall is_finite (scale_vector weights) ->
  0 < T -> 1 <= K -> K <= N ->
  let xs := map (fun row => map2 fmul row (scale_vector weights)) (center x) in
  weighted_anomalies x weights = Ok xs
  /\ has_shape xs T N
  /\ @Eof small_lib xs = Ok xs
  /\ has_shape (map (firstn K) xs) T K
  /\ has_shape (axis_eofs xs (Z.of_nat K)) K N.
Proof.
  intros Hx Hw Hfx Hfs HT HK HKN xs.
  destruct (weighted_anomalies_ok x T N weights Hx HT Hw) as [Hxs Hsh]. fold xs in Hxs, Hsh.
  split; [exact Hxs|]. split; [exact Hsh|]. split.
  { cbn [Eof small_lib].
    rewrite (all_nan_finite xs T N Hsh HT ltac:(lia) (finite_weighted x T N weights Hx HT Hfx Hfs)).
    reflexivity. }
  split.
  { split; [rewrite length_map; apply Hsh|].
    apply Forall_map. eapply Forall_impl; [|apply Hsh].
    intros row Hrow. cbv beta in Hrow |- *. rewrite length_firstn. lia. }
  unfold axis_eofs. rewrite (ncols_shape Hsh HT), Nat2Z.id. rewrite (Nat.min_l K N) by lia.
  split; [rewrite length_map, length_seq; reflexivity|].
  apply Forall_map, Forall_forall. intros i _. apply length_unit_row.
Qed.

Lemma small_lib_calls_ok (x : matrix) (T N K : nat) (cutoff : Z) (weights : vector)
    (kw : filter_kwargs) :
  has_shape x T N -> length weights = N ->
  finite_matrix x -> Forall is_finite (scale_vector weights) ->
  0 < T -> 1 <= K -> K <= N ->
  kw.(filter_type) = "lanczos"%string ->
  (kw.(detrend) = true ->
   (kw.(detrend_poly) = 0%Z /\ 1 <= T) \/ (kw.(detrend_poly) = 1%Z /\ 2 <= T)) ->
  @library_calls_ok small_lib x T N K cutoff weights kw.
Proof.
  intros Hx Hw Hfx Hfs HT HK HKN Hft Hdp xs0 Hxs0.
  destruct (small_lib_solves x T N K weights Hx Hw Hfx Hfs HT HK HKN)
    as (Hxs & Hsh & HEof & HP & Hax).
  set (xs := map (fun row => map2 fmul row (scale_vector weights)) (center x)) in *.
  rewrite Hxs in Hxs0. injection Hxs0 as <-.
  exists xs, (map (firstn K) xs), (axis_eofs xs (Z.of_nat K)), (axis_eofs xs (Z.of_nat K)).
  split; [exact HEof|].
  split; [cbn [eof_pcs small_lib]; rewrite Nat2Z.id; reflexivity|].
  split; [exact HP|].
  split; [reflexivity|]. split; [exact Hax|].
  split; [reflexivity|]. split; [exact Hax|].
  split.
  - intros i Hi. split.
    + intros Hd. cbn [np_polyfit small_lib]. apply small_polyfit_ok.
      rewrite length_column, length_map, (proj1 Hsh). exact (Hdp Hd).
    + intros taps ts_mirr _ _. split.
      * intros _. eexists. reflexivity.
      * rewrite Hft. discriminate.
  - intros pf _ Hpf.
    destruct (sample_cov_ok pf T K Hpf HT ltac:(lia)) as (c & Hc & Hcs).
    exists c, (fst (diagonal_eigh c)), (snd (diagonal_eigh c)).
    split; [exact Hc|]. split; [exact Hcs|].
    split; [cbn [np_linalg_eigh small_lib]; destruct (diagonal_eigh c); reflexivity|].
    unfold diagonal_eigh, nrows. cbn [fst snd]. rewrite (proj1 Hcs). split.
    + rewrite length_map, length_seq. reflexivity.
    + split; [rewrite length_map, length_seq; reflexivity|].
      apply Forall_map, Forall_forall. intros i _. apply length_unit_row.
Qed.

Lemma small_run_ok (x : matrix) (T N K : nat) (cutoff : Z) (weights : vector) :
  has_shape x T N -> length weights = N ->
  finite_matrix x -> Forall is_finite (scale_vector weights) ->
  2 <= K -> K <= T -> K <= N ->
  (1 <= cutoff)%Z -> (cutoff + 1 <= Z.of_nat T)%Z ->
  exists lfcs lfps,
    @lfca small_lib (Arr2 x) cutoff (Z.of_nat K) weights default_kwargs = Ok (lfcs, lfps)
    /\ has_shape lfcs T K /\ has_shape lfps K N.
Proof.
  intros Hx Hw Hfx Hfs HK HKT HKN Hc Hlen.
  apply (@lfca_returns small_lib x T N K cutoff weights default_kwargs);
    try assumption.
  - left; reflexivity.
  - left; reflexivity.
  - exact small_lib_keeps_length.
  - apply small_lib_calls_ok; try assumption; try lia.
    + reflexivity.
    + intros _. right. split; [reflexivity | lia].
Qed.

Lemma sample_data_shape : has_shape sample_data 3 2.
Proof. split; [reflexivity | repeat constructor]. Qed.

Lemma sample_data_finite : finite_matrix sample_data.
Proof. repeat constructor. Qed.

Lemma sample_run_ok (w0 w1 : R) :
  (0 < w0)%R -> (0 < w1)%R ->
  exists lfcs lfps,
    @lfca small_lib (Arr2 sample_data) 1 2 [Fin w0; Fin w1] default_kwargs = Ok (lfcs, lfps)
    /\ has_shape lfcs 3 2 /\ has_shape lfps 2 2.
Proof.
  intros H0 H1.
  apply (small_run_ok sample_data 3 2 2 1 [Fin w0; Fin w1]);
    [ exact sample_data_shape | reflexivity | exact sample_data_finite
    | apply (finite_scale_vector [w0; w1]); repeat constructor; assumption
    | lia | lia | lia | lia | simpl; lia ].
Qed.




(** ** Shapes and sign of the returned arrays *)

(** C3 (as amended): for a T by N data matrix, the weights as a 1 by N
    array, a truncation K with 2 <= K <= min(T, N), a cutoff of at least
    one time step that leaves the series at least [cutoff + 1] samples,
    supported filter options and library calls of the run that succeed with
    their documented shapes, [lfca] returns an LFC array of shape (T, K)
    and an LFP array of shape (K, N). *)
Theorem lfca_shapes `{NumLib} (x : matrix) (T N K : nat) (cutoff : Z)
    (weights : vector) (kw : filter_kwargs) :
  has_shape x T N -> length weights = N ->
  2 <= K -> K <= T -> K <= N ->
  (1 <= cutoff)%Z -> (cutoff + 1 <= Z.of_nat T)%Z ->
  supported_filter kw.(filter_type) -> supported_padding kw.(padding_type) ->
  keeps_length ->
  library_calls_ok x T N K cutoff weights kw ->
  exists lfcs lfps,
    lfca (Arr2 x) cutoff (Z.of_nat K) weights kw = Ok (lfcs, lfps)
    /\ has_shape lfcs T K /\ has_shape lfps K N.
Proof. apply lfca_returns. Qed.

Lemma lfca_shapes_witness :
  exists lfcs lfps,
    @lfca small_lib (Arr2 sample_data)
       1 2 [Fin 1; Fin 3] default_kwargs = Ok (lfcs, lfps)
    /\ has_shape lfcs 3 2 /\ has_shape lfps 2 2.
Proof.
  apply (@lfca_shapes small_lib sample_data 3 2 2 1 [Fin 1; Fin 3] default_kwargs).
  - exact sample_data_shape.
  - reflexivity.
  - lia.
  - lia.
  - lia.
  - lia.
  - simpl; lia.
  - left; reflexivity.
  - left; reflexivity.
  - exact small_lib_keeps_length.
  - apply small_lib_calls_ok.
    + exact sample_data_shape.
    + reflexivity.
    + exact sample_data_finite.
    + apply (finite_scale_vector [1; 3]%R). repeat constructor; lra.
    + lia.
    + lia.
    + lia.
    + reflexivity.
    + intros _. right. split; [reflexivity | lia].
Defined.

Lemma lfca_shapes_counterexample :
  @lfca small_lib (Arr2 sample_data) 1 1 [Fin 1; Fin 3] default_kwargs
  = Raise (LinAlgError
      "0-dimensional array given. Array must be at least two-dimensional")
  /\ @lfca small_lib (Arr2 sample_data) 3 2 [Fin 1; Fin 3] default_kwargs
     = Raise (ValueError "could not broadcast input array").
Proof.
  assert (Hfs : Forall is_finite (scale_vector [Fin 1; Fin 3])).
  { apply (finite_scale_vector [1; 3]%R). repeat constructor; lra. }
  split.
  - apply (@lfca_single_component small_lib sample_data 3 2 1 [Fin 1; Fin 3] default_kwargs).
    + exact sample_data_shape.
    + reflexivity.
    + lia.
    + lia.
    + lia.
    + simpl; lia.
    + left; reflexivity.
    + left; reflexivity.
    + exact small_lib_keeps_length.
    + apply small_lib_calls_ok;
        [ exact sample_data_shape | reflexivity | exact sample_data_finite | exact Hfs
        | lia | lia | lia | reflexivity
        | intros _; right; split; [reflexivity | lia] ].
  - destruct (small_lib_solves sample_data 3 2 2 [Fin 1; Fin 3] sample_data_shape eq_refl
                sample_data_finite Hfs ltac:(lia) ltac:(lia) ltac:(lia))
      as (Hxs & Hsh & HEof & HP & _).
    apply (@lfca_filter_raises small_lib sample_data 3 2 [Fin 1; Fin 3] default_kwargs
             _ _ _ _ Hxs HEof eq_refl).
    + lia.
    + change (Z.to_nat 2) with 2. rewrite (ncols_shape HP); lia.
    + change (Z.to_nat 2) with 2.
      apply filter_ts_short_series.
      * lia.
      * rewrite length_column, length_map, (proj1 Hsh). lia.
      * rewrite length_column, length_map, (proj1 Hsh). simpl; lia.
      * left; reflexivity.
      * intros _. cbn [np_polyfit small_lib detrend_poly default_kwargs].
        apply small_polyfit_ok. right. split; [reflexivity|].
        rewrite length_column, length_map, (proj1 Hsh). lia.
Qed.

(** C1 (as amended): in exact arithmetic, with strictly positive weights
    and finite patterns and eigenvectors from the library calls of the run,
    every LFP row that [lfca] returns has a non-negative dot product with
    the weight vector: the sign is chosen against the scale vector
    [sqrt(w / sum(w))] before the rows are divided by it, and the division
    keeps the sign of the dot product with [w]. *)
Theorem lfca_sign_convention `{NumLib} (x : matrix) (cutoff truncation : Z)
    (ws : list R) (kw : filter_kwargs) (lfcs lfps : matrix) :
  finite_run x cutoff truncation (map Fin ws) kw ->
  Forall (fun w => 0 < w)%R ws ->
  lfca (Arr2 x) cutoff truncation (map Fin ws) kw = Ok (lfcs, lfps) ->
  forall row, In row lfps ->
    exists d, np_dot row (map Fin ws) = Ok (Fin d) /\ (0 <= d)%R.
Proof. apply lfca_rows_nonneg. Qed.

Lemma lfca_sign_convention_witness :
  exists lfcs lfps,
    @lfca small_lib (Arr2 sample_data)
       1 2 [Fin 1; Fin 3] default_kwargs = Ok (lfcs, lfps)
    /\ length lfps = 2
    /\ forall row, In row lfps ->
         exists d, np_dot row [Fin 1; Fin 3] = Ok (Fin d) /\ (0 <= d)%R.
Proof.
  destruct (sample_run_ok 1 3 ltac:(lra) ltac:(lra)) as (lfcs & lfps & Hr & _ & Hlp).
  exists lfcs, lfps. split; [exact Hr|]. split; [apply Hlp|].
  apply (@lfca_sign_convention small_lib sample_data 1%Z 2%Z [1%R; 3%R] default_kwargs lfcs lfps).
  - apply small_lib_finite_run.
  - repeat constructor; lra.
  - exact Hr.
Defined.

Lemma fdiv_by_zero_times_zero (a : float) : fmul (fdiv a (Fin 0)) (Fin 0) = NaN.
Proof.
  assert (H0 : Rsign 0 = Zero).
  { unfold Rsign. destruct (Rlt_dec 0 0); [exfalso; lra | reflexivity]. }
  destruct a as [x| | |]; cbn [fdiv]; rewrite ?H0; cbn [fmul inf_signed]; try reflexivity.
  - destruct (Rsign x); cbn [inf_signed fmul]; rewrite ?H0; reflexivity.
  - rewrite H0. reflexivity.
  - rewrite H0. reflexivity.
Qed.

Lemma masked_scale :
  scale_vector [Fin 1; Fin 0; Fin 3]
  = [Fin (sqrt (1 / (0 + 1 + 0 + 3))); Fin 0; Fin (sqrt (3 / (0 + 1 + 0 + 3)))].
Proof.
  unfold scale_vector, np_sum, fzero. cbn [fold_left fadd map].
  rewrite !fdiv_Fin by lra. rewrite !fsqrt_Fin by lra.
  replace (0 / (0 + 1 + 0 + 3))%R with 0%R by lra. rewrite sqrt_0. reflexivity.
Qed.

Lemma masked_run_ok :
  exists lfcs lfps,
    @lfca small_lib (Arr2 sample_masked) 1 2 [Fin 1; Fin 0; Fin 3] default_kwargs
    = Ok (lfcs, lfps)
    /\ has_shape lfcs 3 2 /\ has_shape lfps 2 3.
Proof.
  apply (small_run_ok sample_masked 3 3 2 1 [Fin 1; Fin 0; Fin 3]);
    [ split; [reflexivity | repeat constructor] | reflexivity | repeat constructor
    | rewrite masked_scale; repeat constructor
    | lia | lia | lia | lia | simpl; lia ].
Qed.

Lemma lfca_zero_weight_counterexample :
  exists lfcs lfps row,
    @lfca small_lib (Arr2 sample_masked)
       1 2 [Fin 1; Fin 0; Fin 3] default_kwargs = Ok (lfcs, lfps)
    /\ In row lfps
    /\ np_dot row [Fin 1; Fin 0; Fin 3] = Ok NaN
    /\ fgeb NaN fzero = false.
Proof.
  destruct masked_run_ok as (lfcs & lfps & Hr & _ & Hlp).
  destruct (lfca_inv _ _ _ _ _ _ _
              (small_lib_finite_run sample_masked 1 2 [Fin 1; Fin 0; Fin 3] default_kwargs) Hr)
    as (l0 & c0 & l1 & dv & n & k & Hsh0 & Hfin0 & Hloop & Hdv & Heq).
  rewrite masked_scale in Hloop, Hdv.
  destruct (sign_loop_inv _ _ _ _ _ _ _ _ Hloop Hsh0 Hfin0 ltac:(repeat constructor))
    as (Hsh1 & Hfin1 & Hfix & _).
  destruct lfps as [|row lfps]; [destruct Hlp as [Hl _]; discriminate Hl|].
  exists lfcs, (row :: lfps), row. split; [exact Hr|]. split; [left; reflexivity|].
  split; [|reflexivity].
  assert (Hin : In row (np_transpose dv)) by (rewrite <- Heq; left; reflexivity).
  set (scale := [Fin (sqrt (1 / (0 + 1 + 0 + 3))); Fin 0; Fin (sqrt (3 / (0 + 1 + 0 + 3)))])
    in *.
  assert (Hls' : 0 < n -> 0 < k -> length scale = n).
  { intros Hn Hk.
    destruct (Hfix 0) as (d & Hd & _).
    - apply in_seq. rewrite (ncols_shape Hsh0 Hn). lia.
    - apply np_dot_length in Hd. rewrite length_column in Hd. rewrite <- Hd. apply Hsh1. }
  destruct (returned_rows _ l1 dv n k Hsh1 Hls' Hdv row Hin)
    as (Hn & Hk & j & Hj & ->).
  pose proof (Hls' Hn Hk) as Hls.
  pose proof (length_column j l1) as Hcl. rewrite (proj1 Hsh1), <- Hls in Hcl.
  destruct (column j l1) as [|a0 [|a1 [|a2 [|]]]]; try discriminate Hcl.
  unfold scale, np_dot, map2, np_sum. cbn [length Nat.eqb combine map fst snd fold_left].
  rewrite fdiv_by_zero_times_zero.
  destruct (fadd fzero (fmul (fdiv a0 (Fin (sqrt (1 / (0 + 1 + 0 + 3))))) (Fin 1)));
    reflexivity.
Qed.

(** ** All-zero weights

    [lfca] does not inspect the weights: an all-zero weight vector makes
    every scale factor [0 / 0 = nan], and nothing is raised before the
    weighted matrix reaches the EOF solver. *)
Lemma scale_vector_all_zero (n : nat) :
  scale_vector (repeat (Fin 0) n) = repeat NaN n.
Proof.
  assert (Hsum : forall m a, fold_left fadd (repeat (Fin 0) m) (Fin a) = Fin (a + INR m * 0)).
  { induction m as [|m IH]; intros a.
    - simpl. f_equal. ring.
    - cbn [repeat fold_left fadd]. rewrite IH, S_INR. f_equal. ring. }
  assert (H0 : Rsign 0 = Zero).
  { unfold Rsign. destruct (Rlt_dec 0 0); [exfalso; lra | reflexivity]. }
  unfold scale_vector, np_sum, fzero. rewrite Hsum.
  replace (0 + INR n * 0)%R with 0%R by ring.
  rewrite !map_map. induction n as [|n IH]; [reflexivity|].
  cbn [repeat map]. rewrite IH. f_equal.
  cbn [fdiv]. rewrite H0. reflexivity.
Qed.

Lemma map2_fmul_nan (row : vector) (n : nat) :
  length row = n -> map2 fmul row (repeat NaN n) = repeat NaN n.
Proof.
  intros <-. unfold map2. induction row as [|a row IH]; [reflexivity|].
  cbn [length repeat combine map fst snd]. rewrite IH.
  destruct a; reflexivity.
Qed.

(** With all-zero weights the matrix handed to the EOF solver is all [nan];
    an error of the solver on it is the error of [lfca], and [lfca] raises
    nothing of its own before that call. *)
Lemma lfca_zero_weights_solver_error `{NumLib} (x : matrix) (T N : nat)
    (cutoff truncation : Z) (kw : filter_kwargs) (e : exn) :
  has_shape x T N ->
  Eof (map (fun _ => repeat NaN N) x) = Raise e ->
  lfca (Arr2 x) cutoff truncation (repeat (Fin 0) N) kw = Raise e.
Proof.
  intros Hx He. unfold lfca. rewrite scale_vector_all_zero.
  assert (Hxs : mapM (fun row => broadcast2 fmul row (repeat NaN N)) (center x)
                = Ok (map (fun _ => repeat NaN N) x)).
  { destruct T as [|T'].
    - destruct Hx as [Hl _]. apply length_zero_iff_nil in Hl. subst x. reflexivity.
    - pose proof (center_shape x (S T') N Hx (Nat.lt_0_succ T')) as [_ Hc].
      unfold center in *. rewrite Forall_map in Hc.
      rewrite (mapM_ok _ (fun row => map2 fmul row (repeat NaN N))).
      + f_equal. rewrite map_map. apply map_ext_in. intros row Hrow.
        rewrite Forall_forall in Hc. apply map2_fmul_nan, Hc, Hrow.
      + intros row Hrow. apply in_map_iff in Hrow as (r0 & <- & Hr0).
        rewrite Forall_forall in Hc. unfold broadcast2.
        rewrite (Hc r0 Hr0), repeat_length, Nat.eqb_refl. reflexivity. }
  rewrite Hxs. cbn [bind]. rewrite He. reflexivity.
Qed.

(** * Further properties of the notebook *)

(** ** The Lanczos weights *)

Lemma low_pass_weights_negative (window : Z) (cutoff : float) :
  (window <= -2)%Z ->
  low_pass_weights window cutoff = Raise (ValueError "negative dimensions are not allowed").
Proof.
  intros Hw. unfold low_pass_weights, np_zeros.
  assert (Hq : ((window - 1) / 2 < -1)%Z) by (apply Z.div_lt_upper_bound; lia).
  rewrite (proj2 (Z.ltb_lt _ 0)) by lia. reflexivity.
Qed.

(** X1: low_pass_weights does not reject small windows by a check of its own:
    for a window of -2 or less the call np.zeros([nwts]) raises ValueError
    (negative dimensions are not allowed), and for a window of -1 or 0 the
    function returns an empty array of weights. *)
Theorem low_pass_weights_small_windows (window : Z) (cutoff : float) :
  ((window <= -2)%Z ->
     low_pass_weights window cutoff
     = Raise (ValueError "negative dimensions are not allowed"))
  /\ ((window = -1 \/ window = 0)%Z -> low_pass_weights window cutoff = Ok []).
Proof.
  split.
  - apply low_pass_weights_negative.
  - intros [-> | ->]; reflexivity.
Qed.

Lemma low_pass_weights_small_windows_witness :
  low_pass_weights (-3) (Fin (1 / 4))
  = Raise (ValueError "negative dimensions are not allowed")
  /\ low_pass_weights 0 (Fin (1 / 4)) = Ok [].
Proof.
  split.
  - apply (proj1 (low_pass_weights_small_windows (-3) (Fin (1 / 4)))). lia.
  - apply (proj2 (low_pass_weights_small_windows 0 (Fin (1 / 4)))). right; reflexivity.
Defined.

(** X2: For a window of at least 1, low_pass_weights returns window weights when
    window is odd and window - 1 weights when it is even. *)
Theorem low_pass_weights_tap_count (window : Z) (cutoff : float) (taps : vector) :
  (1 <= window)%Z ->
  low_pass_weights window cutoff = Ok taps ->
  Z.of_nat (length taps) = if Z.odd window then window else (window - 1)%Z.
Proof.
  intros Hw Ht. rewrite low_pass_weights_taps in Ht by exact Hw.
  injection Ht as <-. rewrite length_taps by exact Hw.
  pose proof (Z.div_pos (window - 1) 2 ltac:(lia) ltac:(lia)) as Hq.
  rewrite Z2Nat.id by lia.
  destruct (Z.odd window) eqn:Hodd.
  - apply Z.odd_spec in Hodd. destruct Hodd as [m ->].
    replace (2 * m + 1 - 1)%Z with (m * 2)%Z by lia. rewrite Z.div_mul by lia. lia.
  - assert (Hev : Z.even window = true) by (rewrite <- Z.negb_odd, Hodd; reflexivity).
    apply Z.even_spec in Hev. destruct Hev as [m ->].
    replace (2 * m - 1)%Z with (1 + (m - 1) * 2)%Z by lia.
    rewrite Z.div_add by lia. change (1 / 2)%Z with 0%Z. lia.
Qed.

Lemma low_pass_weights_tap_count_witness :
  exists taps,
    low_pass_weights 6 (Fin (1 / 4)) = Ok taps /\ Z.of_nat (length taps) = 5%Z.
Proof.
  pose proof (low_pass_weights_taps 6 (Fin (1 / 4)) ltac:(lia)) as H. cbv zeta in H.
  eexists. split; [exact H|].
  apply (low_pass_weights_tap_count 6 (Fin (1 / 4)) _ ltac:(lia) H).
Defined.

Lemma nth_taps_right (ff : vector) (c : float) (k : nat) :
  1 <= k <= length ff ->
  nth (length ff + k) (rev ff ++ c :: ff) fzero = nth (k - 1) ff fzero.
Proof.
  intros Hk. rewrite app_nth2 by (rewrite length_rev; lia).
  rewrite length_rev. replace (length ff + k - length ff) with (S (k - 1)) by lia.
  reflexivity.
Qed.

Lemma nth_taps_left (ff : vector) (c : float) (k : nat) :
  1 <= k <= length ff ->
  nth (length ff - k) (rev ff ++ c :: ff) fzero = nth (k - 1) ff fzero.
Proof.
  intros Hk. rewrite app_nth1 by (rewrite length_rev; lia).
  rewrite rev_nth by lia. f_equal. lia.
Qed.

Lemma nth_taps_centre (ff : vector) (c : float) :
  nth (length ff) (rev ff ++ c :: ff) fzero = c.
Proof.
  rewrite app_nth2 by (rewrite length_rev; lia).
  rewrite length_rev, Nat.sub_diag. reflexivity.
Qed.

Lemma taps_nth (window : Z) (cutoff : float) :
  (1 <= window)%Z ->
  let n := ((window - 1) / 2 + 1)%Z in
  exists taps,
    low_pass_weights window cutoff = Ok taps
    /\ nth (Z.to_nat (n - 1)) taps fzero = fmul (Fin 2) cutoff
    /\ forall k : Z, (1 <= k < n)%Z ->
         let tap := fmul (lanczos_firstfactor cutoff (of_int k)) (lanczos_sigma n (of_int k)) in
         nth (Z.to_nat (n - 1 - k)) taps fzero = tap
         /\ nth (Z.to_nat (n - 1 + k)) taps fzero = tap.
Proof.
  intros Hw n.
  pose proof (low_pass_weights_taps window cutoff Hw) as Ht. cbv zeta in Ht. fold n in Ht.
  set (ks := np_arange 1 n) in *.
  set (ff := map2 fmul (map (lanczos_firstfactor cutoff) ks) (map (lanczos_sigma n) ks)) in *.
  assert (Hn : (1 <= n)%Z) by (unfold n; pose proof (Z.div_pos (window - 1) 2); lia).
  assert (Hks : length ks = Z.to_nat (n - 1)) by (unfold ks; rewrite length_np_arange; lia).
  assert (Hff : length ff = Z.to_nat (n - 1))
    by (unfold ff; rewrite length_map2, !length_map; lia).
  exists (rev ff ++ fmul (Fin 2) cutoff :: ff). split; [exact Ht|]. split.
  - rewrite <- Hff. apply nth_taps_centre.
  - intros k Hk tap.
    assert (Hnth : nth (Z.to_nat k - 1) ff fzero = tap).
    { unfold ff.
      rewrite (nth_map2 fmul _ _ _ fzero fzero fzero) by (rewrite length_map; lia).
      rewrite (nth_indep (map (lanczos_firstfactor cutoff) ks) fzero
                 (lanczos_firstfactor cutoff fzero)) by (rewrite length_map; lia).
      rewrite (nth_indep (map (lanczos_sigma n) ks) fzero (lanczos_sigma n fzero))
        by (rewrite length_map; lia).
      rewrite !map_nth. unfold ks. rewrite nth_np_arange by lia.
      replace (1 + Z.of_nat (Z.to_nat k - 1))%Z with k by lia. reflexivity. }
    split.
    + replace (Z.to_nat (n - 1 - k)) with (length ff - Z.to_nat k) by lia.
      rewrite nth_taps_left by lia. exact Hnth.
    + replace (Z.to_nat (n - 1 + k)) with (length ff + Z.to_nat k) by lia.
      rewrite nth_taps_right by lia. exact Hnth.
Qed.

(** X3: For a window of at least 1 and n = (window - 1) // 2 + 1, the weight at
    index n - 1 of the returned array is 2 * cutoff, and for 1 <= k < n the
    weights at indices n - 1 - k and n - 1 + k both equal firstfactor(k) *
    sigma(k) = sin(2 pi cutoff k) / (pi k) * sin(pi k / n) * n / (pi k). *)
Theorem low_pass_weights_closed_form (window : Z) (cutoff : float) :
  (1 <= window)%Z ->
  let n := ((window - 1) / 2 + 1)%Z in
  exists taps,
    low_pass_weights window cutoff = Ok taps
    /\ nth (Z.to_nat (n - 1)) taps fzero = fmul (Fin 2) cutoff
    /\ forall k : Z, (1 <= k < n)%Z ->
         let tap := fmul (lanczos_firstfactor cutoff (of_int k)) (lanczos_sigma n (of_int k)) in
         nth (Z.to_nat (n - 1 - k)) taps fzero = tap
         /\ nth (Z.to_nat (n - 1 + k)) taps fzero = tap.
Proof. exact (taps_nth window cutoff). Qed.

Lemma low_pass_weights_closed_form_witness :
  exists taps,
    low_pass_weights 5 (Fin (1 / 4)) = Ok taps
    /\ nth 2 taps fzero = fmul (Fin 2) (Fin (1 / 4))
    /\ nth 0 taps fzero = nth 4 taps fzero.
Proof.
  destruct (low_pass_weights_closed_form 5 (Fin (1 / 4)) ltac:(lia))
    as (taps & Ht & Hc & Hk).
  exists taps. split; [exact Ht|]. split; [exact Hc|].
  destruct (Hk 2%Z ltac:(cbn; lia)) as [Hl Hr].
  cbv zeta in Hl, Hr. change (nth 0 taps fzero = nth 4 taps fzero).
  etransitivity; [exact Hl | symmetry; exact Hr].
Defined.

Lemma lanczos_tap_Fin (n k : Z) (cr : R) :
  (1 <= k)%Z -> (1 <= n)%Z ->
  fmul (lanczos_firstfactor (Fin cr) (of_int k)) (lanczos_sigma n (of_int k))
  = Fin (sin (2 * PI * cr * IZR k) / (PI * IZR k)
         * (sin (PI * IZR k / IZR n) * IZR n / (PI * IZR k)))%R.
Proof.
  intros Hk Hn.
  assert (HPI := PI_RGT_0).
  assert (Hkr : (1 <= IZR k)%R) by (apply IZR_le; exact Hk).
  assert (Hnr : (1 <= IZR n)%R) by (apply IZR_le; exact Hn).
  assert (Hpk : (PI * IZR k <> 0)%R) by (apply Rgt_not_eq, Rmult_lt_0_compat; lra).
  unfold lanczos_firstfactor, lanczos_sigma, np_pi, of_int. cbn [fmul fsin].
  rewrite !fdiv_Fin by lra. cbn [fsin fmul]. rewrite !fdiv_Fin by lra.
  reflexivity.
Qed.

(** X4: For an integer cutoff of at least 1, the weights filter_ts asks for,
    low_pass_weights(cutoff*2+1, 1./cutoff), are 2*cutoff+1 finite numbers
    whose first and last entries are exactly 0 (in exact arithmetic), since
    sin(2 pi k / cutoff) vanishes at k = cutoff. *)
Theorem filter_ts_taps_vanish_at_ends (cutoff : Z) :
  (1 <= cutoff)%Z ->
  exists taps,
    low_pass_weights (cutoff * 2 + 1) (fdiv (Fin 1) (of_int cutoff)) = Ok taps
    /\ length taps = Z.to_nat (2 * cutoff + 1)
    /\ nth 0 taps fzero = Fin 0
    /\ nth (Z.to_nat (2 * cutoff)) taps fzero = Fin 0
    /\ Forall is_finite taps.
Proof.
  intros Hc.
  assert (Hcr : (1 <= IZR cutoff)%R) by (apply IZR_le; exact Hc).
  assert (Hinv : fdiv (Fin 1) (of_int cutoff) = Fin (1 / IZR cutoff))
    by (unfold of_int; apply fdiv_Fin; lra).
  rewrite Hinv.
  destruct (taps_nth (cutoff * 2 + 1) (Fin (1 / IZR cutoff)) ltac:(lia))
    as (taps & Ht & Hcen & Hk).
  replace ((cutoff * 2 + 1 - 1) / 2 + 1)%Z with (cutoff + 1)%Z in *
    by (rewrite Z.add_simpl_r, Z.div_mul; lia).
  exists taps. split; [exact Ht|].
  pose proof (low_pass_weights_taps (cutoff * 2 + 1) (Fin (1 / IZR cutoff)) ltac:(lia)) as Ht'.
  cbv zeta in Ht'. rewrite Ht in Ht'. injection Ht' as Ht'.
  assert (Hlen : length taps = Z.to_nat (2 * cutoff + 1)).
  { rewrite Ht'. rewrite length_taps by lia.
    rewrite Z.add_simpl_r, Z.div_mul by lia. f_equal; lia. }
  split; [exact Hlen|].
  assert (Hend : fmul (lanczos_firstfactor (Fin (1 / IZR cutoff)) (of_int cutoff))
                      (lanczos_sigma (cutoff + 1) (of_int cutoff)) = Fin 0).
  { rewrite lanczos_tap_Fin by lia. f_equal.
    replace (2 * PI * (1 / IZR cutoff) * IZR cutoff)%R with (2 * PI)%R by (field; lra).
    rewrite sin_2PI. unfold Rdiv. ring. }
  destruct (Hk cutoff ltac:(lia)) as [Hl Hr]. cbv zeta in Hl, Hr.
  replace (cutoff + 1 - 1 - cutoff)%Z with 0%Z in Hl by lia.
  replace (cutoff + 1 - 1 + cutoff)%Z with (2 * cutoff)%Z in Hr by lia.
  split; [rewrite <- Hend; exact Hl|]. split; [rewrite <- Hend; exact Hr|].
  apply Forall_forall. intros t Hin.
  apply (In_nth _ _ fzero) in Hin as (i & Hi & <-).
  rewrite Hlen in Hi.
  destruct (Z.eq_dec (Z.of_nat i) cutoff) as [E|E].
  - replace i with (Z.to_nat (cutoff + 1 - 1)) by lia. rewrite Hcen. exact I.
  - destruct (Z_lt_le_dec (Z.of_nat i) cutoff) as [Hlt|Hge].
    + destruct (Hk (cutoff - Z.of_nat i)%Z ltac:(lia)) as [Hl' _]. cbv zeta in Hl'.
      replace (Z.to_nat (cutoff + 1 - 1 - (cutoff - Z.of_nat i))) with i in Hl' by lia.
      rewrite Hl', lanczos_tap_Fin by lia. exact I.
    + destruct (Hk (Z.of_nat i - cutoff)%Z ltac:(lia)) as [_ Hr']. cbv zeta in Hr'.
      replace (Z.to_nat (cutoff + 1 - 1 + (Z.of_nat i - cutoff))) with i in Hr' by lia.
      rewrite Hr', lanczos_tap_Fin by lia. exact I.
Qed.

Lemma filter_ts_taps_vanish_at_ends_witness :
  exists taps,
    low_pass_weights 5 (fdiv (Fin 1) (of_int 2)) = Ok taps
    /\ length taps = 5
    /\ nth 0 taps fzero = Fin 0
    /\ nth 4 taps fzero = Fin 0
    /\ Forall is_finite taps.
Proof.
  apply (filter_ts_taps_vanish_at_ends 2). lia.
Defined.

(** ** The pads of [filter_padding] *)

Lemma nth_padded_left ft w l i :
  0 < w <= length l -> i < w ->
  nth i (padded ft w l) fzero
  = if String.eqb ft "mirror" then nth (w - 1 - i) l fzero
    else nth (length l - w + i) l fzero.
Proof.
  intros Hw Hi. unfold padded. destruct (String.eqb ft "mirror").
  - rewrite app_nth1 by (rewrite length_rev, length_firstn; lia).
    rewrite rev_nth by (rewrite length_firstn; lia).
    rewrite length_firstn, nth_firstn.
    replace (Nat.min w (length l) - S i) with (w - 1 - i) by lia.
    rewrite (proj2 (Nat.ltb_lt _ _)) by lia. reflexivity.
  - rewrite app_nth1 by (rewrite length_skipn; lia).
    rewrite nth_skipn. reflexivity.
Qed.

Lemma nth_padded_right ft w l i :
  0 < w <= length l -> i < w ->
  nth (w + length l + i) (padded ft w l) fzero
  = if String.eqb ft "mirror" then nth (length l - 1 - i) l fzero
    else nth i l fzero.
Proof.
  intros Hw Hi. unfold padded. destruct (String.eqb ft "mirror").
  - rewrite app_nth2 by (rewrite length_rev, length_firstn; lia).
    rewrite app_nth2 by (rewrite length_rev, length_firstn; lia).
    rewrite length_rev, length_firstn.
    replace (w + length l + i - Nat.min w (length l) - length l) with i by lia.
    rewrite rev_nth by (rewrite length_skipn; lia).
    rewrite length_skipn, nth_skipn. f_equal. lia.
  - rewrite app_nth2 by (rewrite length_skipn; lia).
    rewrite app_nth2 by (rewrite length_skipn; lia).
    rewrite length_skipn.
    replace (w + length l + i - (length l - (length l - w)) - length l) with i by lia.
    rewrite nth_firstn. rewrite (proj2 (Nat.ltb_lt _ _)) by lia. reflexivity.
Qed.

(** X5: Without detrending and for 0 < window <= len(ts), filter_padding fills
    the two pads as follows: with 'mirror', pad entry i is ts[window-1-i] on
    the left and ts[len(ts)-1-i] on the right (the end samples are repeated
    next to the series); with 'periodic', it is ts[len(ts)-window+i] on the
    left and ts[i] on the right. *)
Theorem filter_padding_ends `{NumLib} (ts : vector) (window : Z) (ftype : string)
    (detrend_poly : Z) :
  (0 < window <= Z.of_nat (length ts))%Z -> supported_padding ftype ->
  let w := Z.to_nat window in
  let n := length ts in
  exists ts_pad,
    filter_padding ts window ftype false detrend_poly = Ok ts_pad
    /\ forall i, i < w ->
         (ftype = "mirror"%string ->
            nth i ts_pad fzero = nth (w - 1 - i) ts fzero
            /\ nth (w + n + i) ts_pad fzero = nth (n - 1 - i) ts fzero)
         /\ (ftype = "periodic"%string ->
            nth i ts_pad fzero = nth (n - w + i) ts fzero
            /\ nth (w + n + i) ts_pad fzero = nth i ts fzero).
Proof.
  intros Hw Hft w n.
  replace window with (Z.of_nat w) by (unfold w; lia).
  rewrite filter_padding_eq by (auto; unfold w; lia).
  exists (padded ftype w ts). split; [reflexivity|].
  intros i Hi. unfold n.
  rewrite nth_padded_left, nth_padded_right by (unfold w in *; lia).
  split; intros ->; cbn [String.eqb Ascii.eqb Bool.eqb]; split; reflexivity.
Qed.

Lemma filter_padding_ends_witness :
  exists ts_pad,
    @filter_padding small_lib [Fin 1; Fin 2; Fin 4] 2 "mirror" false 1 = Ok ts_pad
    /\ nth 0 ts_pad fzero = Fin 2 /\ nth 1 ts_pad fzero = Fin 1
    /\ nth 5 ts_pad fzero = Fin 4 /\ nth 6 ts_pad fzero = Fin 2.
Proof.
  destruct (@filter_padding_ends small_lib [Fin 1; Fin 2; Fin 4] 2 "mirror" 1)
    as (ts_pad & Hp & Hi).
  - simpl; lia.
  - left; reflexivity.
  - exists ts_pad. split; [exact Hp|].
    destruct (Hi 0 ltac:(simpl; lia)) as [H0 _].
    destruct (Hi 1 ltac:(simpl; lia)) as [H1 _].
    destruct (H0 eq_refl) as [Ha Hb]. destruct (H1 eq_refl) as [Hc Hd].
    repeat split; assumption.
Defined.

(** X6: When the series has at least 2 samples but fewer than window, and ftype
    is 'mirror' or 'periodic' (and the polynomial fit, if requested,
    succeeds), filter_padding raises NumPy's ValueError 'could not broadcast
    input array' from the assignment of the pad; it has no check of its own
    for this case. *)
Theorem filter_padding_window_too_long `{NumLib} (ts : vector) (window : Z)
    (ftype : string) (detrend : bool) (detrend_poly : Z) :
  (2 <= length ts) -> (Z.of_nat (length ts) < window)%Z ->
  supported_padding ftype ->
  (detrend = true ->
   exists z, np_polyfit (np_arange 0 (Z.of_nat (length ts))) ts detrend_poly = Ok z) ->
  filter_padding ts window ftype detrend detrend_poly
  = Raise (ValueError "could not broadcast input array").
Proof. apply filter_padding_too_long. Qed.

Lemma filter_padding_window_too_long_witness :
  @filter_padding small_lib [Fin 1; Fin 2] 3 "periodic" false 1
  = Raise (ValueError "could not broadcast input array").
Proof.
  apply (@filter_padding_window_too_long small_lib [Fin 1; Fin 2] 3 "periodic" false 1).
  - simpl; lia.
  - simpl; lia.
  - right; reflexivity.
  - discriminate.
Defined.




Lemma Forall_firstn_keep {A} (P : A -> Prop) n l : Forall P l -> Forall P (firstn n l).
Proof.
  intros Hl. revert n. induction Hl as [|a l Ha _ IH]; intros [|n]; cbn [firstn];
    constructor; auto.
Qed.









(** ** [filter_ts] on a cutoff that is not positive *)

Lemma set_slice_empty_target (l v : vector) :
  2 <= length v ->
  set_slice l (Some 0%Z) (Some (- 0)%Z) v
  = Raise (ValueError "could not broadcast input array").
Proof.
  intros Hv. unfold set_slice. cbn [slice_start slice_stop Z.opp].
  rewrite slice_bound_nonneg by lia.
  apply assign_range_mismatch; cbn [Z.to_nat]; lia.
Qed.

Lemma filter_padding_zero_window `{NumLib} ts ft d dp :
  2 <= length ts -> raises (filter_padding ts 0 ft d dp).
Proof.
  intros Hlen. unfold filter_padding, np_zeros.
  rewrite (proj2 (Z.ltb_ge _ 0)) by lia. cbn [bind].
  destruct d.
  - destruct (np_polyfit _ ts dp) as [z|e]; cbn [bind]; [|eexists; reflexivity].
    rewrite set_slice_empty_target
      by (rewrite length_map2, length_map, length_np_arange; lia).
    eexists; reflexivity.
  - cbn [bind]. rewrite set_slice_empty_target by exact Hlen. eexists; reflexivity.
Qed.

(** X9: filter_ts does not validate cutoff: cutoff 0 raises ZeroDivisionError
    (from 1./cutoff) before any other work, a cutoff of -2 or less raises
    ValueError (negative dimensions are not allowed) from low_pass_weights,
    and cutoff -1 on a series of at least 2 samples raises too. *)
Theorem filter_ts_nonpositive_cutoff `{NumLib} (ts : vector) (cutoff : Z)
    (ftype ptype : string) (detrend : bool) (detrend_poly : Z) :
  (cutoff = 0%Z ->
     filter_ts ts cutoff ftype ptype detrend detrend_poly
     = Raise (ZeroDivisionError "float division by zero"))
  /\ ((cutoff <= -2)%Z ->
     filter_ts ts cutoff ftype ptype detrend detrend_poly
     = Raise (ValueError "negative dimensions are not allowed"))
  /\ (cutoff = (-1)%Z -> 2 <= length ts ->
     raises (filter_ts ts cutoff ftype ptype detrend detrend_poly)).
Proof.
  split; [|split].
  - intros ->. reflexivity.
  - intros Hc. unfold filter_ts.
    rewrite (proj2 (Z.eqb_neq cutoff 0)) by lia. cbn [bind].
    rewrite low_pass_weights_negative by lia. reflexivity.
  - intros -> Hlen. unfold filter_ts. cbn [Z.eqb bind].
    change (low_pass_weights (-1 * 2 + 1) (fdiv (Fin 1) (of_int (-1)))) with (@Ok vector []).
    cbn [bind length]. change (ceil_half 0) with 0%Z.
    apply bind_raises_l. apply filter_padding_zero_window. exact Hlen.
Qed.

Lemma filter_ts_nonpositive_cutoff_witness :
  @filter_ts small_lib [Fin 1; Fin 2; Fin 4] 0 "lanczos" "mirror" true 1
  = Raise (ZeroDivisionError "float division by zero")
  /\ @filter_ts small_lib [Fin 1; Fin 2; Fin 4] (-5) "lanczos" "mirror" true 1
     = Raise (ValueError "negative dimensions are not allowed")
  /\ raises (@filter_ts small_lib [Fin 1; Fin 2; Fin 4] (-1) "lanczos" "mirror" true 1).
Proof.
  split; [|split].
  - apply (proj1 (@filter_ts_nonpositive_cutoff small_lib [Fin 1; Fin 2; Fin 4] 0
                    "lanczos" "mirror" true 1)). reflexivity.
  - apply (proj1 (proj2 (@filter_ts_nonpositive_cutoff small_lib [Fin 1; Fin 2; Fin 4] (-5)
                    "lanczos" "mirror" true 1))). lia.
  - apply (proj2 (proj2 (@filter_ts_nonpositive_cutoff small_lib [Fin 1; Fin 2; Fin 4] (-1)
                    "lanczos" "mirror" true 1))); [reflexivity | simpl; lia].
Defined.

(** ** The weights of [lfca] *)

Lemma fold_Rplus_scal (a : R) (l : list R) (u : R) :
  fold_left Rplus (map (Rmult a) l) (a * u)%R = (a * fold_left Rplus l u)%R.
Proof.
  revert u. induction l as [|r l IH]; intros u; cbn [map fold_left]; [reflexivity|].
  rewrite <- Rmult_plus_distr_l. apply IH.
Qed.

Lemma scale_vector_rescaled (ws : list R) (a : R) :
  a <> 0%R -> fold_left Rplus ws 0%R <> 0%R ->
  scale_vector (map Fin (map (Rmult a) ws)) = scale_vector (map Fin ws).
Proof.
  intros Ha HS. unfold scale_vector. rewrite !np_sum_Fin.
  replace (fold_left Rplus (map (Rmult a) ws) 0%R)
    with (a * fold_left Rplus ws 0)%R
    by (rewrite <- fold_Rplus_scal, Rmult_0_r; reflexivity).
  set (S := fold_left Rplus ws 0%R) in *.
  rewrite !map_map. apply map_ext. intros w.
  rewrite !fdiv_Fin by (try apply Rmult_integral_contrapositive; auto).
  f_equal. f_equal. field. auto.
Qed.

(** X10: In exact arithmetic (no rounding, no overflow), lfca depends on the
    weights only up to a common factor: multiplying all (finite) weights by
    a nonzero number, when their sum is not zero, leaves the result of lfca
    unchanged, errors included. *)
Theorem lfca_weight_scaling `{NumLib} (x : ndarray) (cutoff truncation : Z)
    (ws : list R) (a : R) (kw : filter_kwargs) :
  a <> 0%R -> fold_left Rplus ws 0%R <> 0%R ->
  lfca x cutoff truncation (map Fin (map (Rmult a) ws)) kw
  = lfca x cutoff truncation (map Fin ws) kw.
Proof.
  intros Ha HS. unfold lfca. destruct x; try reflexivity.
  rewrite (scale_vector_rescaled ws a Ha HS). reflexivity.
Qed.

Lemma lfca_weight_scaling_witness :
  @lfca small_lib (Arr2 sample_data) 1 2 (map Fin (map (Rmult 10) [1; 3]%R)) default_kwargs
  = @lfca small_lib (Arr2 sample_data) 1 2 (map Fin [1; 3]%R) default_kwargs.
Proof.
  apply (@lfca_weight_scaling small_lib (Arr2 sample_data) 1 2 [1; 3]%R 10%R default_kwargs).
  - lra.
  - simpl. lra.
Defined.

Lemma rdot_self_sqrt (ws : list R) (S : R) :
  (0 < S)%R -> Forall (fun w => 0 <= w)%R ws ->
  let sr := map (fun w => sqrt (w / S)) ws in
  rdot sr sr = (fold_left Rplus ws 0 / S)%R.
Proof.
  intros HS Hpos sr. unfold sr. clear sr.
  induction Hpos as [|w ws Hw _ IH].
  - unfold rdot, map2. simpl. unfold Rdiv. ring.
  - cbn [map]. rewrite rdot_cons, IH. cbn [fold_left].
    rewrite (fold_Rplus_acc ws (0 + w)).
    rewrite sqrt_sqrt by (apply Rmult_le_pos; [lra | apply Rlt_le, Rinv_0_lt_compat; lra]).
    field. lra.
Qed.

(** X11: In exact arithmetic (no rounding, no overflow), for non-negative
    finite weights with a positive sum, the scale vector
    sqrt(weights / sum(weights)) has finite non-negative entries whose
    squares sum to 1. *)
Theorem scale_vector_normalised (ws : list R) :
  Forall (fun w => 0 <= w)%R ws -> (0 < fold_left Rplus ws 0)%R ->
  exists sr,
    scale_vector (map Fin ws) = map Fin sr
    /\ length sr = length ws
    /\ Forall (fun s => 0 <= s)%R sr
    /\ rdot sr sr = 1%R.
Proof.
  intros Hpos HS. set (S := fold_left Rplus ws 0%R) in *.
  exists (map (fun w => sqrt (w / S)) ws). split; [|split; [|split]].
  - unfold scale_vector. rewrite np_sum_Fin. fold S. rewrite !map_map.
    apply map_ext_in. intros w Hw. rewrite Forall_forall in Hpos. specialize (Hpos w Hw).
    rewrite fdiv_Fin by lra. apply fsqrt_Fin.
    apply Rmult_le_pos; [lra | apply Rlt_le, Rinv_0_lt_compat; lra].
  - apply length_map.
  - apply Forall_map, Forall_forall. intros w _. apply sqrt_pos.
  - rewrite (rdot_self_sqrt ws S HS Hpos). fold S. field. lra.
Qed.

Lemma scale_vector_normalised_witness :
  exists sr,
    scale_vector [Fin 1; Fin 0; Fin 1; Fin 1; Fin 1] = map Fin sr
    /\ length sr = 5
    /\ Forall (fun s => 0 <= s)%R sr
    /\ rdot sr sr = 1%R.
Proof.
  apply (scale_vector_normalised [1; 0; 1; 1; 1]%R).
  - repeat constructor; lra.
  - simpl. lra.
Defined.

(** ** Centering *)

Lemma mean_of_centered (x : matrix) (T N : nat) :
  has_shape x T N -> 0 < T -> finite_matrix x ->
  np_mean_axis0 (center x) = repeat (Fin 0) N.
Proof.
  intros Hx HT Hf.
  pose proof (center_shape x T N Hx HT) as Hc.
  apply (nth_ext _ _ fzero fzero).
  - unfold np_mean_axis0. rewrite length_map, length_seq, repeat_length.
    apply (ncols_shape Hc HT).
  - intros j Hj. unfold np_mean_axis0 in Hj.
    rewrite length_map, length_seq, (ncols_shape Hc HT) in Hj.
    rewrite nth_repeat.
    unfold np_mean_axis0 at 1. rewrite (ncols_shape Hc HT), nth_map_seq by exact Hj.
    rewrite (column_center x T N j Hx HT Hj).
    destruct (mean_entry_Fin x T N j Hx HT Hj Hf) as (col & -> & Hcl & ->).
    rewrite map_map. cbn [fsub fneg fadd].
    rewrite <- (map_map (fun r => (r + - (fold_left Rplus col 0%R / INR T))%R) Fin).
    rewrite nanmean_Fin, fold_Rplus_shift, length_map, Hcl. unfold of_nat.
    assert (HTr : INR T <> 0%R) by (apply not_0_INR; lia).
    rewrite fdiv_Fin by exact HTr. unfold fzero. f_equal. field. exact HTr.
Qed.

(** X12: After the centering step x - np.mean(x, axis=0) on a finite array with
    at least one row, every column mean is exactly 0 (in exact arithmetic). *)
Theorem center_zero_mean (x : matrix) (T N : nat) :
  has_shape x T N -> 0 < T -> finite_matrix x ->
  np_mean_axis0 (center x) = repeat (Fin 0) N.
Proof. apply mean_of_centered. Qed.

Lemma center_zero_mean_witness :
  np_mean_axis0 (center sample_data) = [Fin 0; Fin 0].
Proof.
  apply (center_zero_mean sample_data 3 2).
  - split; [reflexivity | repeat constructor].
  - lia.
  - repeat constructor.
Defined.

(** X13: In exact arithmetic (no rounding, no overflow), the centering step is
    idempotent on a finite array with at least one row: centering an
    already centered array changes nothing. *)
Theorem center_idempotent (x : matrix) (T N : nat) :
  has_shape x T N -> 0 < T -> finite_matrix x ->
  center (center x) = center x.
Proof.
  intros Hx HT Hf.
  pose proof (center_shape x T N Hx HT) as Hc.
  pose proof (finite_center x T N Hx HT Hf) as Hfc.
  unfold center at 1. rewrite (mean_of_centered x T N Hx HT Hf).
  rewrite <- (map_id (center x)) at 2. apply map_ext_in. intros row Hrow.
  destruct Hc as [_ Hr]. rewrite Forall_forall in Hr.
  unfold finite_matrix in Hfc. rewrite Forall_forall in Hfc.
  pose proof (Hfc row Hrow) as Hfr. pose proof (Hr row Hrow) as Hrl. clear -Hfr Hrl.
  subst N. unfold map2. induction Hfr as [|a row Ha _ IH]; [reflexivity|].
  cbn [length repeat combine map fst snd]. rewrite IH.
  destruct a; simpl in Ha; try tauto. unfold fsub. cbn [fneg fadd]. f_equal. f_equal. ring.
Qed.

Lemma center_idempotent_witness :
  center (center [[Fin 1; Fin 2]; [Fin 3; Fin 4]; [Fin 5; Fin 9]])
  = center [[Fin 1; Fin 2]; [Fin 3; Fin 4]; [Fin 5; Fin 9]].
Proof.
  apply (center_idempotent [[Fin 1; Fin 2]; [Fin 3; Fin 4]; [Fin 5; Fin 9]] 3 2).
  - split; [reflexivity | repeat constructor].
  - lia.
  - repeat constructor.
Defined.

(** ** Shape errors and the reordering of the eigenvectors *)

Lemma broadcast2_mismatch f (u v : vector) :
  length u <> length v -> length u <> 1 -> length v <> 1 ->
  broadcast2 f u v = Raise (ValueError "operands could not be broadcast together").
Proof.
  intros H1 H2 H3. unfold broadcast2. rewrite (proj2 (Nat.eqb_neq _ _) H1).
  destruct u as [|a [|]], v as [|b [|]]; simpl in *; try reflexivity; lia.
Qed.

(** X14: If the number of weights differs from the number of columns of x and
    neither is 1, lfca raises NumPy's ValueError 'operands could not be
    broadcast together' at x * scale.T, before the EOF solver is called. *)
Theorem lfca_weight_length_mismatch `{NumLib} (x : matrix) (T N : nat)
    (cutoff truncation : Z) (weights : vector) (kw : filter_kwargs) :
  has_shape x T N -> 0 < T ->
  length weights <> N -> N <> 1 -> length weights <> 1 ->
  lfca (Arr2 x) cutoff truncation weights kw
  = Raise (ValueError "operands could not be broadcast together").
Proof.
  intros Hx HT Hw HN Hw1. unfold lfca.
  pose proof (center_shape x T N Hx HT) as [Hl Hr].
  destruct (center x) as [|row rows]; [simpl in Hl; lia|].
  inversion Hr as [|? ? Hrow _]; subst.
  cbn [mapM]. rewrite broadcast2_mismatch; rewrite ?length_scale_vector; auto.
Qed.

Lemma lfca_weight_length_mismatch_witness :
  @lfca small_lib (Arr2 [[Fin 1; Fin 2; Fin 3]; [Fin 4; Fin 5; Fin 6]]) 1 1
     [Fin 1; Fin 1] default_kwargs
  = Raise (ValueError "operands could not be broadcast together").
Proof.
  apply (@lfca_weight_length_mismatch small_lib _ 2 3).
  - split; [reflexivity | repeat constructor].
  - lia.
  - simpl; lia.
  - lia.
  - simpl; lia.
Defined.

Lemma map_nth_seq (l : vector) : map (fun i => nth i l fzero) (seq 0 (length l)) = l.
Proof.
  apply (nth_ext _ _ fzero fzero).
  - rewrite length_map, length_seq. reflexivity.
  - intros i Hi. rewrite length_map, length_seq in Hi.
    apply (nth_map_seq (fun i => nth i l fzero)). exact Hi.
Qed.

(** X15: The reordering by eig_argsort only permutes: the returned eigenvalues
    are a permutation of those from eigh, and every row of the eigenvector
    matrix is reindexed by the same index array, so each returned row is a
    permutation of the original row. *)
Theorem sort_eig_permutes `{NumLib} (eig : vector) (eigv : matrix) (eig' : vector)
    (eigv' : matrix) :
  sort_eig eig eigv = Ok (eig', eigv') ->
  Permutation eig' eig
  /\ forall row, In row eigv -> length row = length eig ->
       In (map (fun i => nth i row fzero) (eig_argsort eig)) eigv'
       /\ Permutation (map (fun i => nth i row fzero) (eig_argsort eig)) row.
Proof.
  intros Hs. unfold sort_eig in Hs.
  rewrite take_idx_ok in Hs by apply eig_argsort_bound. cbn [bind] in Hs.
  apply bind_Ok in Hs as (v & Hv & [= <- <-]).
  split.
  - eapply Permutation_trans; [apply Permutation_map, eig_argsort_perm|].
    rewrite map_nth_seq. reflexivity.
  - intros row Hin Hlen. split.
    + unfold take_cols in Hv. clear -Hv Hin Hlen. revert v Hv.
      induction eigv as [|r0 m IH]; intros v Hv; [destruct Hin|].
      cbn [mapM] in Hv. apply bind_Ok in Hv as (r' & Hr' & Hv).
      apply bind_Ok in Hv as (rs & Hrs & [= <-]).
      destruct Hin as [-> | Hin].
      * left. rewrite take_idx_ok in Hr' by (rewrite Hlen; apply eig_argsort_bound).
        injection Hr' as <-. reflexivity.
      * right. apply (IH Hin rs Hrs).
    + eapply Permutation_trans; [apply Permutation_map, eig_argsort_perm|].
      rewrite <- Hlen, map_nth_seq. reflexivity.
Qed.

Lemma sort_eig_permutes_witness :
  exists eig' eigv',
    @sort_eig small_lib [Fin 1; Fin 3; Fin 2]
      [[Fin 1; Fin 0; Fin 0]; [Fin 0; Fin 1; Fin 0]; [Fin 0; Fin 0; Fin 1]] = Ok (eig', eigv')
    /\ Permutation eig' [Fin 1; Fin 3; Fin 2].
Proof.
  destruct (@sort_eig_ok small_lib [Fin 1; Fin 3; Fin 2]
      [[Fin 1; Fin 0; Fin 0]; [Fin 0; Fin 1; Fin 0]; [Fin 0; Fin 0; Fin 1]] 3) as [Hs _].
  - split; [reflexivity | repeat constructor].
  - do 2 eexists. split; [exact Hs|].
    exact (proj1 (@sort_eig_permutes small_lib _ _ _ _ Hs)).
Defined.

(** ** The sign loop *)

Lemma Rsign_opp x : Rsign (- x) = sign_opp (Rsign x).
Proof.
  unfold Rsign.
  destruct (Rlt_dec (- x) 0), (Rlt_dec x 0), (Rlt_dec 0 (- x)), (Rlt_dec 0 x);
    try reflexivity; exfalso; lra.
Qed.

Lemma sign_opp_involutive s : sign_opp (sign_opp s) = s.
Proof. destruct s; reflexivity. Qed.

Lemma fmul_fneg_fneg a b : fmul (fneg a) (fneg b) = fmul a b.
Proof.
  destruct a as [x| | |], b as [y| | |]; cbn [fneg fmul];
    rewrite ?Rsign_opp, ?sign_opp_involutive; try reflexivity.
  f_equal. ring.
Qed.

Lemma fneg_involutive a : fneg (fneg a) = a.
Proof. destruct a; cbn [fneg]; try reflexivity. f_equal. ring. Qed.

Lemma sign_step_flips scale lfps lfcs j lfps' lfcs' N T K :
  sign_step scale (lfps, lfcs) j = Ok (lfps', lfcs') ->
  has_shape lfps N K -> has_shape lfcs T K ->
  has_shape lfps' N K /\ has_shape lfcs' T K
  /\ forall j', flipped_together lfps lfcs lfps' lfcs' j'.
Proof.
  intros Hs Hl Hc. unfold sign_step in Hs.
  apply bind_Ok in Hs as (pj & Hpj & Hs).
  apply bind_Ok in Hs as (d & _ & Hs).
  unfold get_col in Hpj. destruct (Nat.ltb_spec j (ncols lfps)) as [Hj|]; [|discriminate].
  injection Hpj as <-.
  destruct (fltb d fzero).
  - apply bind_Ok in Hs as (l1 & Hset & Hs).
    apply bind_Ok in Hs as (cj & Hcj & Hs).
    apply bind_Ok in Hs as (c1 & Hsetc & Hs). injection Hs as <- <-.
    unfold get_col in Hcj. destruct (Nat.ltb_spec j (ncols lfcs)) as [Hjc|]; [|discriminate].
    injection Hcj as <-.
    assert (HN : 0 < N).
    { destruct Hl as [Hll _]. destruct lfps; [unfold ncols in Hj; simpl in Hj; lia | simpl in Hll; lia]. }
    assert (HT : 0 < T).
    { destruct Hc as [Hcl _]. destruct lfcs; [unfold ncols in Hjc; simpl in Hjc; lia | simpl in Hcl; lia]. }
    rewrite (ncols_shape Hl HN) in Hj.
    destruct (set_col_ok lfps N K j (map fneg (column j lfps)) Hl HN Hj
                ltac:(rewrite length_map, length_column; apply Hl))
      as (m1 & Hm1 & Hsh1 & Hcol1 & Hoth1).
    destruct (set_col_ok lfcs T K j (map fneg (column j lfcs)) Hc HT Hj
                ltac:(rewrite length_map, length_column; apply Hc))
      as (m2 & Hm2 & Hsh2 & Hcol2 & Hoth2).
    rewrite Hset in Hm1. injection Hm1 as <-.
    rewrite Hsetc in Hm2. injection Hm2 as <-.
    split; [exact Hsh1|]. split; [exact Hsh2|].
    intros j'. destruct (Nat.eq_dec j' j) as [-> | Hne].
    + right. split; assumption.
    + left. split; [apply Hoth1 | apply Hoth2]; exact Hne.
  - injection Hs as <- <-. split; [exact Hl|]. split; [exact Hc|].
    intros j'. left. split; reflexivity.
Qed.

Lemma sign_loop_flips scale js lfps lfcs lfps' lfcs' N T K :
  foldM (sign_step scale) js (lfps, lfcs) = Ok (lfps', lfcs') ->
  has_shape lfps N K -> has_shape lfcs T K ->
  has_shape lfps' N K /\ has_shape lfcs' T K
  /\ forall j', flipped_together lfps lfcs lfps' lfcs' j'.
Proof.
  revert lfps lfcs. induction js as [|j js IH]; intros lfps lfcs Hf Hl Hc; cbn [foldM] in Hf.
  - injection Hf as <- <-. split; [exact Hl|]. split; [exact Hc|].
    intros j'. left. split; reflexivity.
  - apply bind_Ok in Hf as ([l1 c1] & Hstep & Hf).
    destruct (sign_step_flips _ _ _ _ _ _ _ _ _ Hstep Hl Hc) as (Hl1 & Hc1 & H1).
    destruct (IH _ _ Hf Hl1 Hc1) as (Hl' & Hc' & H2).
    split; [exact Hl'|]. split; [exact Hc'|].
    intros j'. unfold flipped_together in *.
    destruct (H1 j') as [[E1 E2] | [E1 E2]], (H2 j') as [[E3 E4] | [E3 E4]];
      rewrite E3, E4, E1, E2.
    + left; split; reflexivity.
    + right; split; reflexivity.
    + right; split; reflexivity.
    + left. rewrite !map_map.
      split; rewrite <- (map_id (column j' _)) at 2; apply map_ext; intros; apply fneg_involutive.
Qed.

(** X16: The sign loop changes lfps[:, j] and lfcs[:, j] only together: after
    it, every product lfcs[t, j] * lfps[i, j] is what it was before, so the
    reconstruction from components and patterns is not affected by the sign
    choice. *)
Theorem sign_loop_keeps_products (scale : vector) (js : list nat)
    (lfps lfcs lfps' lfcs' : matrix) (N T K : nat) :
  has_shape lfps N K -> has_shape lfcs T K ->
  foldM (sign_step scale) js (lfps, lfcs) = Ok (lfps', lfcs') ->
  forall t i j, t < T -> i < N ->
    fmul (nth j (nth t lfcs' []) fzero) (nth j (nth i lfps' []) fzero)
    = fmul (nth j (nth t lfcs []) fzero) (nth j (nth i lfps []) fzero).
Proof.
  intros Hl Hc Hf t i j Ht Hi.
  destruct (sign_loop_flips _ _ _ _ _ _ _ _ _ Hf Hl Hc) as (Hl' & Hc' & Hflip).
  rewrite <- !nth_column by (rewrite ?(proj1 Hl), ?(proj1 Hc), ?(proj1 Hl'), ?(proj1 Hc'); lia).
  destruct (Hflip j) as [[E1 E2] | [E1 E2]]; rewrite E1, E2; [reflexivity|].
  rewrite (nth_indep (map fneg (column j lfcs)) fzero (fneg fzero))
    by (rewrite length_map, length_column, (proj1 Hc); lia).
  rewrite (nth_indep (map fneg (column j lfps)) fzero (fneg fzero))
    by (rewrite length_map, length_column, (proj1 Hl); lia).
  rewrite !map_nth. apply fmul_fneg_fneg.
Qed.

Lemma sign_loop_keeps_products_witness :
  exists lfps' lfcs',
    foldM (sign_step [Fin 1]) [0] ([[Fin (-1)]], [[Fin 2]; [Fin 3]]) = Ok (lfps', lfcs')
    /\ lfps' = [[fneg (Fin (-1))]] /\ lfcs' = [[fneg (Fin 2)]; [fneg (Fin 3)]]
    /\ forall t i j, t < 2 -> i < 1 ->
         fmul (nth j (nth t lfcs' []) fzero) (nth j (nth i lfps' []) fzero)
         = fmul (nth j (nth t [[Fin 2]; [Fin 3]] []) fzero)
                (nth j (nth i [[Fin (-1)]] []) fzero).
Proof.
  assert (Hf : foldM (sign_step [Fin 1]) [0] ([[Fin (-1)]], [[Fin 2]; [Fin 3]])
               = Ok ([[fneg (Fin (-1))]], [[fneg (Fin 2)]; [fneg (Fin 3)]])).
  { cbn [foldM]. unfold sign_step.
    change (get_col [[Fin (-1)]] 0) with (@Ok vector [Fin (-1)]). cbn [bind].
    change (np_dot [Fin (-1)] [Fin 1]) with (@Ok float (Fin (0 + -1 * 1))). cbn [bind].
    rewrite (proj2 (fltb_Fin_zero (0 + -1 * 1))) by lra. reflexivity. }
  do 2 eexists. split; [exact Hf|]. split; [reflexivity|]. split; [reflexivity|].
  apply (sign_loop_keeps_products [Fin 1] [0] [[Fin (-1)]] [[Fin 2]; [Fin 3]] _ _ 1 2 1).
  - split; [reflexivity | repeat constructor].
  - split; [reflexivity | repeat constructor].
  - exact Hf.
Defined.

(** ** The filtering loop *)

Lemma filter_loop_inv `{NumLib} cutoff kw pcs T K js pf pf' :
  has_shape pcs T K -> has_shape pf T K -> 0 < T ->
  (1 <= cutoff)%Z -> keeps_length -> NoDup js ->
  foldM (filter_step cutoff kw pcs) js pf = Ok pf' ->
  has_shape pf' T K
  /\ (forall i, In i js ->
        filter_ts (column i pcs) cutoff kw.(filter_type) kw.(padding_type)
          kw.(detrend) kw.(detrend_poly) = Ok (column i pf'))
  /\ (forall i, ~ In i js -> column i pf' = column i pf).
Proof.
  intros HP Hpf HT Hc Hkl Hnd. revert pf Hpf.
  induction Hnd as [|j js Hj Hnd IH]; intros pf Hpf Hf; cbn [foldM] in Hf.
  - injection Hf as <-. split; [exact Hpf|]. split; [intros i []|reflexivity].
  - apply bind_Ok in Hf as (pf1 & Hstep & Hf). unfold filter_step in Hstep.
    apply bind_Ok in Hstep as (pci & Hget & Hstep).
    apply bind_Ok in Hstep as (f & Hfilt & Hset).
    unfold get_col in Hget. destruct (Nat.ltb_spec j (ncols pcs)) as [HjK|]; [|discriminate].
    injection Hget as <-. rewrite (ncols_shape HP HT) in HjK.
    pose proof (filter_ts_length _ _ _ _ _ _ _ Hc Hkl Hfilt) as Hfl.
    rewrite length_column, (proj1 HP) in Hfl.
    destruct (set_col_ok pf T K j f Hpf HT HjK Hfl) as (m & Hm & Hsh & Hcol & Hoth).
    rewrite Hset in Hm. injection Hm as <-.
    destruct (IH pf1 Hsh Hf) as (Hsh' & Hin & Hout).
    split; [exact Hsh'|]. split.
    + intros i [<- | Hi]; [|apply Hin; exact Hi].
      rewrite (Hout j Hj), Hcol. exact Hfilt.
    + intros i Hni. rewrite Hout by (intros Hi; apply Hni; right; exact Hi).
      apply Hoth. intros ->. apply Hni. left; reflexivity.
Qed.

Lemma column_zeros_like (m : matrix) i :
  column i (map (map (fun _ => fzero)) m) = repeat fzero (length m).
Proof.
  unfold column. rewrite map_map. induction m as [|row m IH]; [reflexivity|].
  cbn [map length repeat]. rewrite IH. f_equal.
  clear. revert i. induction row as [|a row IHr]; intros [|i]; cbn [map nth]; auto.
Qed.

(** X17: After the filtering loop, pcs_filt has the shape of pcs; column i of
    pcs_filt for i < truncation is filter_ts applied to column i of pcs, and
    every column from truncation on is still zero. *)
Theorem filter_loop_columns `{NumLib} (cutoff : Z) (kw : filter_kwargs) (pcs pcs_filt : matrix)
    (T K : nat) (truncation : Z) :
  has_shape pcs T K -> 0 < T -> (1 <= cutoff)%Z -> keeps_length ->
  foldM (filter_step cutoff kw pcs) (range_nat truncation)
    (map (map (fun _ => fzero)) pcs) = Ok pcs_filt ->
  has_shape pcs_filt T K
  /\ (forall i, (Z.of_nat i < truncation)%Z ->
        filter_ts (column i pcs) cutoff kw.(filter_type) kw.(padding_type)
          kw.(detrend) kw.(detrend_poly) = Ok (column i pcs_filt))
  /\ (forall i, (truncation <= Z.of_nat i)%Z -> column i pcs_filt = repeat fzero T).
Proof.
  intros HP HT Hc Hkl Hf.
  assert (Hz : has_shape (map (map (fun _ => fzero)) pcs) T K).
  { destruct HP as [HPl HPr]. split; [rewrite length_map; exact HPl|].
    apply Forall_map. eapply Forall_impl; [|exact HPr].
    intros row Hrow. rewrite length_map. exact Hrow. }
  destruct (filter_loop_inv cutoff kw pcs T K _ _ _ HP Hz HT Hc Hkl (seq_NoDup _ _) Hf)
    as (Hsh & Hin & Hout).
  split; [exact Hsh|]. split.
  - intros i Hi. apply Hin. unfold range_nat. apply in_seq. lia.
  - intros i Hi. rewrite Hout.
    + rewrite column_zeros_like. f_equal. apply HP.
    + unfold range_nat. intros Hin'. apply in_seq in Hin'. lia.
Qed.

Lemma filter_loop_columns_witness :
  exists pcs_filt,
    foldM (@filter_step small_lib 1 default_kwargs sample_data) (range_nat 1)
      (map (map (fun _ => fzero)) sample_data) = Ok pcs_filt
    /\ @filter_ts small_lib (column 0 sample_data) 1 "lanczos" "mirror" true 1
       = Ok (column 0 pcs_filt)
    /\ column 1 pcs_filt = [fzero; fzero; fzero].
Proof.
  assert (Hs : has_shape sample_data 3 2) by (split; [reflexivity | repeat constructor]).
  assert (Hcalls : forall i, i < 2 ->
            @filter_calls_ok small_lib (column i sample_data) 1 "lanczos" "mirror" true 1).
  { intros i Hi. split.
    - intros _. apply (small_polyfit_ok (column i sample_data) 1).
      right. split; [reflexivity | rewrite length_column; simpl; lia].
    - intros taps ts_mirr _ _. split; [intros _; eexists; reflexivity | discriminate]. }
  destruct (@filter_loop_ok small_lib 1 default_kwargs sample_data 3 2 (seq 0 1)
              (map (map (fun _ => fzero)) sample_data)) as (pf & Hpf & _).
  - exact Hs.
  - split; [reflexivity | repeat constructor].
  - lia.
  - repeat constructor.
  - lia.
  - simpl; lia.
  - left; reflexivity.
  - left; reflexivity.
  - exact small_lib_keeps_length.
  - exact Hcalls.
  - exists pf. split; [exact Hpf|].
    destruct (@filter_loop_columns small_lib 1 default_kwargs sample_data pf 3 2 1 Hs
                ltac:(lia) ltac:(lia) small_lib_keeps_length Hpf) as (_ & Hin & Hout).
    split; [apply (Hin 0); simpl; lia | apply (Hout 1); simpl; lia].
Defined.

(** X18: lfca does not catch errors of filter_ts: when the weighting, the EOF
    solver and pcs succeed, truncation is at least 1 and pcs has a column,
    an error raised by filter_ts on the first principal component is the
    error raised by lfca. *)
Theorem lfca_filter_error `{NumLib} (x : matrix) (cutoff truncation : Z)
    (weights : vector) (kw : filter_kwargs) (xs : matrix) (s : eof_solver)
    (P : matrix) (e : exn) :
  mapM (fun row => broadcast2 fmul row (scale_vector weights)) (center x) = Ok xs ->
  Eof xs = Ok s -> eof_pcs s truncation = Ok P ->
  (1 <= truncation)%Z -> 0 < ncols P ->
  filter_ts (column 0 P) cutoff kw.(filter_type) kw.(padding_type)
    kw.(detrend) kw.(detrend_poly) = Raise e ->
  lfca (Arr2 x) cutoff truncation weights kw = Raise e.
Proof. apply lfca_filter_raises. Qed.

Lemma lfca_filter_error_witness :
  @lfca small_lib (Arr2 sample_data) 0 1 [Fin 1; Fin 1] default_kwargs
  = Raise (ZeroDivisionError "float division by zero").
Proof.
  destruct (small_lib_solves sample_data 3 2 1 [Fin 1; Fin 1] sample_data_shape eq_refl
              sample_data_finite)
    as (Hxs & _ & HEof & HP & _).
  - apply (finite_scale_vector [1; 1]%R). repeat constructor; lra.
  - lia.
  - lia.
  - lia.
  - apply (@lfca_filter_error small_lib sample_data 0 1 [Fin 1; Fin 1] default_kwargs
             _ _ _ _ Hxs HEof eq_refl).
    + lia.
    + change (Z.to_nat 1) with 1. rewrite (ncols_shape HP); lia.
    + reflexivity.
Defined.

(** ** Retained and discarded columns *)

Lemma feqb_zero_negb a : feqb_zero a = negb (fneb_zero a).
Proof. destruct a as [r| | |]; cbn; try reflexivity. destruct (Req_dec_T r 0); reflexivity. Qed.

Lemma fneb_zero_spec a : fneb_zero a = true <-> a <> Fin 0.
Proof.
  destruct a as [r| | |]; cbn; try (split; [discriminate | reflexivity]).
  destruct (Req_dec_T r 0) as [Hr | Hr].
  - subst r. split; [discriminate | congruence].
  - split; [intros _ E; injection E; exact Hr | reflexivity].
Qed.

Lemma feqb_zero_spec a : feqb_zero a = true <-> a = Fin 0.
Proof.
  rewrite feqb_zero_negb, negb_true_iff. split.
  - intros Hf. destruct (fneb_zero a) eqn:E; [discriminate|].
    destruct a as [r| | |]; cbn in E; try discriminate.
    destruct (Req_dec_T r 0) as [-> | Hr]; [reflexivity | discriminate].
  - intros ->. cbn. destruct (Req_dec_T 0 0); [reflexivity | congruence].
Qed.

Lemma filter_split_perm {A} (f : A -> bool) (l : list A) :
  Permutation (filter f l ++ filter (fun x => negb (f x)) l) l.
Proof.
  induction l as [|a l IH]; [constructor|]. cbn [filter].
  destruct (f a); cbn [negb app].
  - constructor. exact IH.
  - apply Permutation_sym, Permutation_cons_app, Permutation_sym. exact IH.
Qed.

Lemma np_where_partition (area_weights : vector) :
  let icol_ret := np_where fneb_zero area_weights in
  let icol_disc := np_where feqb_zero area_weights in
  Permutation (icol_ret ++ icol_disc) (seq 0 (length area_weights))
  /\ length icol_ret + length icol_disc = length area_weights
  /\ (forall i, In i icol_ret <->
        i < length area_weights /\ nth i area_weights fzero <> Fin 0)
  /\ (forall i, In i icol_disc <->
        i < length area_weights /\ nth i area_weights fzero = Fin 0).
Proof.
  intros icol_ret icol_disc.
  assert (Hp : Permutation (icol_ret ++ icol_disc) (seq 0 (length area_weights))).
  { unfold icol_ret, icol_disc, np_where.
    rewrite (filter_ext (fun i => feqb_zero (nth i area_weights fzero))
               (fun i => negb (fneb_zero (nth i area_weights fzero))))
      by (intros; apply feqb_zero_negb).
    apply (filter_split_perm (fun i => fneb_zero (nth i area_weights fzero))). }
  split; [exact Hp|]. split.
  - rewrite <- length_app, (Permutation_length Hp). apply length_seq.
  - split; intros i; unfold icol_ret, icol_disc, np_where; rewrite filter_In, in_seq;
      rewrite ?fneb_zero_spec, ?feqb_zero_spec; intuition lia.
Qed.

(** X19: icol_ret and icol_disc partition the columns: together they are a
    permutation of 0..nfeatures-1, their lengths add up to nfeatures,
    icol_ret holds exactly the positions whose weight is not 0 (nan
    included) and icol_disc exactly those whose weight equals 0. *)
Theorem masked_columns_partition (area_weights : vector) :
  let icol_ret := np_where fneb_zero area_weights in
  let icol_disc := np_where feqb_zero area_weights in
  Permutation (icol_ret ++ icol_disc) (seq 0 (length area_weights))
  /\ length icol_ret + length icol_disc = length area_weights
  /\ (forall i, In i icol_ret <->
        i < length area_weights /\ nth i area_weights fzero <> Fin 0)
  /\ (forall i, In i icol_disc <->
        i < length area_weights /\ nth i area_weights fzero = Fin 0).
Proof. apply np_where_partition. Qed.

Lemma take_where (test : float -> bool) (w : vector) :
  take_idx w (np_where test w) = Ok (filter test w).
Proof.
  rewrite take_idx_ok.
  2:{ apply Forall_forall. intros i Hi. unfold np_where in Hi.
      apply filter_In in Hi as [Hi _]. apply in_seq in Hi. lia. }
  f_equal. unfold np_where.
  assert (G : forall (pre : vector),
            map (fun i => nth i (pre ++ w) fzero)
              (filter (fun i => test (nth i (pre ++ w) fzero)) (seq (length pre) (length w)))
            = filter test w).
  { induction w as [|a w IH]; intros pre; [reflexivity|].
    cbn [length seq filter].
    assert (Ha : nth (length pre) (pre ++ a :: w) fzero = a)
      by (rewrite app_nth2, Nat.sub_diag by lia; reflexivity).
    rewrite Ha.
    specialize (IH (pre ++ [a])). rewrite <- app_assoc in IH. cbn [app] in IH.
    rewrite length_app in IH. cbn [length] in IH. rewrite Nat.add_1_r in IH.
    destruct (test a); cbn [map]; rewrite ?Ha, IH; reflexivity. }
  exact (G []).
Qed.

Lemma sum_drop_zeros (ws : list R) (u : R) :
  fold_left Rplus (filter (fun r => if Req_dec_T r 0 then false else true) ws) u
  = fold_left Rplus ws u.
Proof.
  revert u. induction ws as [|r ws IH]; intros u; [reflexivity|].
  cbn [filter fold_left]. destruct (Req_dec_T r 0) as [Hr | _].
  - subst r. rewrite IH. f_equal. ring.
  - cbn [fold_left]. apply IH.
Qed.

Lemma retained_reals (ws : list R) :
  Forall (fun w => 0 <= w)%R ws ->
  exists rs,
    filter fneb_zero (map Fin ws) = map Fin rs
    /\ Forall (fun w => 0 < w)%R rs
    /\ fold_left Rplus rs 0%R = fold_left Rplus ws 0%R.
Proof.
  intros Hpos.
  exists (filter (fun r => if Req_dec_T r 0 then false else true) ws).
  split; [|split].
  - clear. induction ws as [|r ws IH]; [reflexivity|].
    cbn [map filter fneb_zero]. destruct (Req_dec_T r 0); cbn [map]; rewrite IH; reflexivity.
  - apply Forall_forall. intros r Hr. apply filter_In in Hr as [Hin Hne].
    rewrite Forall_forall in Hpos. specialize (Hpos r Hin).
    destruct (Req_dec_T r 0); [discriminate | lra].
  - apply sum_drop_zeros.
Qed.

(** X20: For finite non-negative area weights, the weights kept by
    area_weights[icol_ret[0], :] are all strictly positive, and they have
    the same sum as the full weight vector. *)
Theorem retained_weights_positive (ws : list R) :
  Forall (fun w => 0 <= w)%R ws ->
  exists rs,
    take_idx (map Fin ws) (np_where fneb_zero (map Fin ws)) = Ok (map Fin rs)
    /\ Forall (fun w => 0 < w)%R rs
    /\ fold_left Rplus rs 0%R = fold_left Rplus ws 0%R.
Proof.
  intros Hpos. destruct (retained_reals ws Hpos) as (rs & Hrs & Hgt & Hsum).
  exists rs. rewrite take_where, Hrs. split; [reflexivity|]. split; assumption.
Qed.

Lemma retained_weights_positive_witness :
  exists rs,
    take_idx [Fin 1; Fin 0; Fin 3] (np_where fneb_zero [Fin 1; Fin 0; Fin 3]) = Ok (map Fin rs)
    /\ Forall (fun w => 0 < w)%R rs
    /\ fold_left Rplus rs 0%R = fold_left Rplus [1; 0; 3]%R 0%R.
Proof.
  apply (retained_weights_positive [1; 0; 3]%R). repeat constructor; lra.
Defined.

(** ** Putting back the missing columns *)

Lemma length_assign_at idx : forall v row,
  Forall (fun i => i < length row) idx -> length (assign_at row idx v) = length row.
Proof.
  unfold assign_at. induction idx as [|i idx IH]; intros v row Hidx; [reflexivity|].
  destruct v as [|c v]; [reflexivity|]. cbn [combine fold_left fst snd].
  inversion Hidx as [|? ? Hi Hrest]; subst.
  rewrite IH; rewrite length_set_nth by exact Hi; [reflexivity | exact Hrest].
Qed.

Lemma nth_assign_at_other idx : forall v row j,
  Forall (fun i => i < length row) idx -> ~ In j idx ->
  nth j (assign_at row idx v) fzero = nth j row fzero.
Proof.
  unfold assign_at. induction idx as [|i idx IH]; intros v row j Hidx Hj; [reflexivity|].
  destruct v as [|c v]; [reflexivity|]. cbn [combine fold_left fst snd].
  inversion Hidx as [|? ? Hi Hrest]; subst.
  rewrite IH.
  - apply nth_set_nth_neq; [exact Hi|]. intros ->. apply Hj. left. reflexivity.
  - rewrite length_set_nth by exact Hi. exact Hrest.
  - intros Hin. apply Hj. right. exact Hin.
Qed.

Lemma nth_assign_at_hit idx : forall v row,
  NoDup idx -> length idx = length v -> Forall (fun i => i < length row) idx ->
  map (fun i => nth i (assign_at row idx v) fzero) idx = v.
Proof.
  induction idx as [|i idx IH]; intros v row Hnd Hlen Hidx.
  - destruct v; [reflexivity | discriminate].
  - destruct v as [|c v]; [discriminate|].
    inversion Hnd as [|? ? Hni Hnd']; subst.
    inversion Hidx as [|? ? Hi Hrest]; subst.
    assert (Hrest' : Forall (fun i0 => i0 < length (set_nth i c row)) idx)
      by (rewrite length_set_nth by exact Hi; exact Hrest).
    change (assign_at row (i :: idx) (c :: v)) with (assign_at (set_nth i c row) idx v).
    cbn [map]. f_equal.
    + rewrite nth_assign_at_other by assumption. apply nth_set_nth_eq. exact Hi.
    + apply IH; [exact Hnd' | cbn [length] in Hlen; lia | exact Hrest'].
Qed.

Lemma nan_matrix_shape n w : has_shape (nan_matrix n w) n w.
Proof.
  unfold nan_matrix. split; [apply repeat_length|].
  apply Forall_forall. intros row Hrow. apply repeat_spec in Hrow. subst row.
  apply repeat_length.
Qed.

Lemma set_cols_ok (a m : matrix) (idx : list nat) (k w : nat) :
  has_shape a k w -> has_shape m k (length idx) -> 0 < k ->
  Forall (fun i => i < w) idx ->
  set_cols a idx m = Ok (map2 (fun row v => assign_at row idx v) a m).
Proof.
  intros Ha [Hml Hmr] Hk Hidx. unfold set_cols, broadcast_rows.
  destruct Ha as [Hal Har]. unfold nrows. rewrite Hml, Hal, Nat.eqb_refl. cbn [bind].
  rewrite (mapM_ok _ (fun row => row)).
  2:{ intros row Hrow. rewrite Forall_forall in Hmr. unfold broadcast_entries.
      rewrite (Hmr row Hrow), Nat.eqb_refl. reflexivity. }
  rewrite map_id. cbn [bind].
  rewrite (ncols_shape (conj Hal Har) Hk).
  replace (forallb (fun i => Nat.ltb i w) idx) with true; [reflexivity|].
  symmetry. apply forallb_forall. intros i Hi. rewrite Forall_forall in Hidx.
  apply Nat.ltb_lt, Hidx, Hi.
Qed.

Lemma reinsert_rows (idx : list nat) (w : nat) :
  NoDup idx -> Forall (fun i => i < w) idx ->
  forall (m a : matrix),
    Forall (fun row => length row = length idx) m ->
    Forall (fun row => length row = w) a -> length a = length m ->
    let aug := map2 (fun row v => assign_at row idx v) a m in
    has_shape aug (length m) w
    /\ map (fun row => map (fun i => nth i row fzero) idx) aug = m
    /\ forall j, ~ In j idx -> column j aug = column j a.
Proof.
  intros Hnd Hidx. unfold map2.
  induction m as [|v m IH]; intros a Hm Ha Hlen.
  - destruct a; [|discriminate]. cbn. repeat split; constructor.
  - destruct a as [|row a]; [discriminate|].
    inversion Hm as [|? ? Hv Hm']; subst. inversion Ha as [|? ? Hrow Ha']; subst.
    cbn [length] in Hlen.
    destruct (IH a Hm' Ha' ltac:(lia)) as ((Hl & Hr) & Hback & Hother).
    cbn [combine map fst snd].
    assert (Hidx' : Forall (fun i => i < length row) idx).
    { eapply Forall_impl; [|exact Hidx]. cbn. intros; lia. }
    split; [split|split].
    + cbn [length]. rewrite Hl. reflexivity.
    + constructor; [|exact Hr]. rewrite length_assign_at by exact Hidx'. reflexivity.
    + rewrite nth_assign_at_hit by (try assumption; symmetry; exact Hv).
      rewrite Hback. reflexivity.
    + intros j Hj. unfold column in *. cbn [map]. rewrite (Hother j Hj).
      rewrite nth_assign_at_other by assumption. reflexivity.
Qed.

Lemma column_nan_matrix n w j : j < w -> column j (nan_matrix n w) = repeat NaN n.
Proof.
  intros Hj. unfold column, nan_matrix. induction n as [|n IH]; [reflexivity|].
  cbn [repeat map]. rewrite IH. f_equal. apply nth_repeat_lt. exact Hj.
Qed.

Lemma reinsert_ok (lfps : matrix) (idx : list nat) (k w : nat) :
  has_shape lfps k (length idx) -> 0 < k ->
  NoDup idx -> Forall (fun i => i < w) idx ->
  exists lfps_aug,
    set_cols (nan_matrix k w) idx lfps = Ok lfps_aug
    /\ has_shape lfps_aug k w
    /\ take_cols lfps_aug idx = Ok lfps
    /\ forall j, j < w -> ~ In j idx -> column j lfps_aug = repeat NaN k.
Proof.
  intros Hm Hk Hnd Hidx.
  rewrite (set_cols_ok _ _ _ k w (nan_matrix_shape k w) Hm Hk Hidx).
  destruct Hm as [Hml Hmr].
  destruct (reinsert_rows idx w Hnd Hidx lfps (nan_matrix k w) Hmr
              (proj2 (nan_matrix_shape k w))
              ltac:(rewrite Hml; apply (proj1 (nan_matrix_shape k w))))
    as (Hs & Hback & Hother).
  rewrite Hml in Hs.
  eexists. split; [reflexivity|]. split; [exact Hs|]. split.
  - rewrite (proj1 (take_cols_ok _ k w idx Hs Hidx)). rewrite Hback. reflexivity.
  - intros j Hj Hnin. rewrite (Hother j Hnin). apply column_nan_matrix. exact Hj.
Qed.

Lemma reinsert_masked (lfps : matrix) (area_weights : vector) (k : nat) :
  let icol_ret := np_where fneb_zero area_weights in
  let icol_disc := np_where feqb_zero area_weights in
  has_shape lfps k (length icol_ret) -> 0 < k ->
  exists lfps_aug,
    set_cols (nan_matrix (nrows lfps) (ncols lfps + length icol_disc)) icol_ret lfps
      = Ok lfps_aug
    /\ has_shape lfps_aug k (length area_weights)
    /\ take_cols lfps_aug icol_ret = Ok lfps
    /\ forall j, In j icol_disc -> column j lfps_aug = repeat NaN k.
Proof.
  intros icol_ret icol_disc Hm Hk.
  destruct (np_where_partition area_weights) as (Hp & Hlen & Hret & Hdisc).
  fold icol_ret icol_disc in Hp, Hlen, Hret, Hdisc.
  rewrite (ncols_shape Hm Hk). unfold nrows. rewrite (proj1 Hm), Hlen.
  assert (Hnd : NoDup icol_ret).
  { unfold icol_ret, np_where. apply NoDup_filter, seq_NoDup. }
  assert (Hidx : Forall (fun i => i < length area_weights) icol_ret).
  { apply Forall_forall. intros i Hi. apply Hret in Hi. tauto. }
  destruct (reinsert_ok lfps icol_ret k (length area_weights) Hm Hk Hnd Hidx)
    as (aug & Hset & Hs & Hback & Hother).
  exists aug. split; [exact Hset|]. split; [exact Hs|]. split; [exact Hback|].
  intros j Hj. apply Hdisc in Hj as [Hj Hz]. apply Hother; [exact Hj|].
  intros Hin. apply Hret in Hin as [_ Hnz]. contradiction.
Qed.

(** X21: Putting back the missing columns is a round trip: for patterns with one
    column per retained position, lfps_aug has one column per original
    position, lfps_aug[:, icol_ret[0]] equals lfps again, and every
    discarded column of lfps_aug is all nan. *)
Theorem reinsert_round_trip (lfps : matrix) (area_weights : vector) (k : nat) :
  let icol_ret := np_where fneb_zero area_weights in
  let icol_disc := np_where feqb_zero area_weights in
  has_shape lfps k (length icol_ret) -> 0 < k ->
  exists lfps_aug,
    set_cols (nan_matrix (nrows lfps) (ncols lfps + length icol_disc)) icol_ret lfps
      = Ok lfps_aug
    /\ has_shape lfps_aug k (length area_weights)
    /\ take_cols lfps_aug icol_ret = Ok lfps
    /\ forall j, In j icol_disc -> column j lfps_aug = repeat NaN k.
Proof. apply reinsert_masked. Qed.

Lemma reinsert_round_trip_witness :
  exists lfps_aug,
    set_cols (nan_matrix 2 (2 + 1)) [0; 2] [[Fin 1; Fin 2]; [Fin 3; Fin 4]] = Ok lfps_aug
    /\ has_shape lfps_aug 2 3
    /\ take_cols lfps_aug [0; 2] = Ok [[Fin 1; Fin 2]; [Fin 3; Fin 4]]
    /\ forall j, In j [1] -> column j lfps_aug = repeat NaN 2.
Proof.
  pose proof (reinsert_round_trip [[Fin 1; Fin 2]; [Fin 3; Fin 4]] [Fin 5; Fin 0; Fin 7] 2) as H.
  assert (E1 : np_where fneb_zero [Fin 5; Fin 0; Fin 7] = [0; 2]).
  { unfold np_where. cbn. repeat destruct (Req_dec_T _ _); try lra; reflexivity. }
  assert (E2 : np_where feqb_zero [Fin 5; Fin 0; Fin 7] = [1]).
  { unfold np_where. cbn. repeat destruct (Req_dec_T _ _); try lra; reflexivity. }
  cbv zeta in H. rewrite E1, E2 in H.
  apply H; [split; [reflexivity | repeat constructor] | lia].
Defined.

(** ** The forced response *)

Lemma slice_head {A} (l : list A) (n : Z) :
  (0 <= n)%Z -> slice l (Some 0%Z) (Some n) = firstn (Nat.min (Z.to_nat n) (length l)) l.
Proof.
  intros Hn. unfold slice, slice_start, slice_stop.
  rewrite (slice_bound_nonneg (length l) 0) by lia.
  rewrite (slice_bound_nonneg (length l) n) by exact Hn.
  change (Z.to_nat 0) with 0. cbn [Nat.min skipn]. rewrite Nat.sub_0_r. reflexivity.
Qed.

Lemma fold_fadd_nan (v : vector) : fold_left fadd v NaN = NaN.
Proof. induction v as [|a v IH]; [reflexivity|]. cbn [fold_left]. exact IH. Qed.

Lemma np_sum_repeat_nan n : 0 < n -> np_sum (repeat NaN n) = NaN.
Proof.
  intros Hn. destruct n as [|n]; [lia|]. unfold np_sum. cbn [repeat fold_left].
  change (fadd fzero NaN) with NaN. apply fold_fadd_nan.
Qed.

Lemma column_firstn j n m : column j (firstn n m) = firstn n (column j m).
Proof. unfold column. symmetry. apply firstn_map. Qed.

Lemma firstn_repeat {A} (a : A) n k : k <= n -> firstn k (repeat a n) = repeat a k.
Proof.
  revert n. induction k as [|k IH]; intros n Hk; [reflexivity|].
  destruct n as [|n]; [lia|]. cbn [repeat firstn]. rewrite IH by lia. reflexivity.
Qed.

Lemma forced_response_ok (lfcs lfps_aug : matrix) (T K W : nat) (N_LFC : Z) :
  has_shape lfcs T K -> has_shape lfps_aug K W ->
  0 < T -> 1 <= K -> (1 <= N_LFC)%Z ->
  exists X_forced,
    matmul (map (fun row => slice row (Some 0%Z) (Some N_LFC)) lfcs)
           (slice lfps_aug (Some 0%Z) (Some N_LFC)) = Ok X_forced
    /\ has_shape X_forced T W
    /\ forall j, j < W -> column j lfps_aug = repeat NaN K ->
                 column j X_forced = repeat NaN T.
Proof.
  intros Hc Hp HT HK HN.
  set (k := Nat.min (Z.to_nat N_LFC) K).
  assert (Hk : 0 < k) by (unfold k; lia).
  assert (Hkle : k <= K) by (unfold k; lia).
  assert (Ea : map (fun row => slice row (Some 0%Z) (Some N_LFC)) lfcs = map (firstn k) lfcs).
  { apply map_ext_in. intros row Hrow. rewrite slice_head by lia.
    destruct Hc as [_ Hr]. rewrite Forall_forall in Hr. rewrite (Hr row Hrow). reflexivity. }
  assert (Eb : slice lfps_aug (Some 0%Z) (Some N_LFC) = firstn k lfps_aug).
  { rewrite slice_head by lia. rewrite (proj1 Hp). reflexivity. }
  rewrite Ea, Eb.
  assert (Ha : has_shape (map (firstn k) lfcs) T k).
  { eapply has_shape_map_rows; [exact Hc|]. intros row Hrow. rewrite length_firstn. lia. }
  assert (Hb : has_shape (firstn k lfps_aug) k W).
  { destruct Hp as [Hl Hr]. split; [rewrite length_firstn; lia|].
    apply Forall_firstn_keep. exact Hr. }
  unfold matmul. rewrite (ncols_shape Ha HT), (ncols_shape Hb Hk).
  unfold nrows. rewrite (proj1 Hb), Nat.eqb_refl.
  eexists. split; [reflexivity|]. split.
  - eapply has_shape_map_rows; [exact Ha|].
    intros row _. rewrite length_map, length_seq. reflexivity.
  - intros j Hj Hnan. unfold column at 1. rewrite map_map.
    destruct Ha as [HaT Har]. rewrite <- HaT. rewrite <- (map_const NaN (map (firstn k) lfcs)).
    apply map_ext_in. intros row Hrow.
    rewrite nth_map_seq by exact Hj.
    rewrite column_firstn, Hnan, firstn_repeat by exact Hkle.
    rewrite Forall_forall in Har.
    rewrite map2_fmul_nan by (apply Har; exact Hrow).
    apply np_sum_repeat_nan. exact Hk.
Qed.

(** X22: For N_LFC >= 1, lfcs of shape (T, K) and lfps_aug of shape (K, W) with
    T, K >= 1, the product lfcs[:, 0:N_LFC] @ lfps_aug[0:N_LFC, :] succeeds
    (also when N_LFC exceeds K, by slice clipping), has shape (T, W), and
    every column that is all nan in lfps_aug is all nan in the product. *)
Theorem forced_response_masked (lfcs lfps_aug : matrix) (T K W : nat) (N_LFC : Z) :
  has_shape lfcs T K -> has_shape lfps_aug K W ->
  0 < T -> 1 <= K -> (1 <= N_LFC)%Z ->
  exists X_forced,
    matmul (map (fun row => slice row (Some 0%Z) (Some N_LFC)) lfcs)
           (slice lfps_aug (Some 0%Z) (Some N_LFC)) = Ok X_forced
    /\ has_shape X_forced T W
    /\ forall j, j < W -> column j lfps_aug = repeat NaN K ->
                 column j X_forced = repeat NaN T.
Proof. apply forced_response_ok. Qed.

Lemma forced_response_masked_witness :
  exists X_forced,
    matmul (map (fun row => slice row (Some 0%Z) (Some 1%Z)) [[Fin 1; Fin 2]; [Fin 3; Fin 4]])
           (slice [[Fin 5; NaN; Fin 6]; [Fin 7; NaN; Fin 8]] (Some 0%Z) (Some 1%Z)) = Ok X_forced
    /\ has_shape X_forced 2 3
    /\ forall j, j < 3 -> column j [[Fin 5; NaN; Fin 6]; [Fin 7; NaN; Fin 8]] = repeat NaN 2 ->
                 column j X_forced = repeat NaN 2.
Proof.
  apply (forced_response_masked [[Fin 1; Fin 2]; [Fin 3; Fin 4]]
           [[Fin 5; NaN; Fin 6]; [Fin 7; NaN; Fin 8]] 2 2 3 1);
    [ split; [reflexivity | repeat constructor]
    | split; [reflexivity | repeat constructor]
    | lia | lia | lia ].
Defined.

Lemma matmul_wide_rows (a b : matrix) (w : nat) : b <> [] -> matmul_wide a b w = matmul a b.
Proof. intros Hb. destruct b; [congruence | reflexivity]. Qed.

Lemma lfca_evaluation_ok `{NumLib} (x_all : matrix) (area_weights : vector)
    (T K : nat) (cutoff N_LFC : Z) :
  let n := length area_weights in
  let icol_ret := np_where fneb_zero area_weights in
  let n_ret := length icol_ret in
  has_shape x_all T n ->
  2 <= K -> K <= T -> K <= n_ret ->
  (1 <= cutoff)%Z -> (cutoff + 1 <= Z.of_nat T)%Z -> (1 <= N_LFC)%Z ->
  keeps_length ->
  (forall x, take_cols x_all icol_ret = Ok x ->
     library_calls_ok x T n_ret K cutoff (filter fneb_zero area_weights) default_kwargs) ->
  exists lfcs lfps lfps_aug X_forced,
    lfca_evaluation x_all area_weights cutoff (Z.of_nat K) N_LFC
      = Ok (lfcs, lfps_aug, X_forced)
    /\ has_shape lfcs T K /\ has_shape lfps_aug K n /\ has_shape X_forced T n
    /\ (x <- take_cols x_all icol_ret ;;
        lfca (Arr2 x) cutoff (Z.of_nat K)
             (filter fneb_zero area_weights) default_kwargs) = Ok (lfcs, lfps)
    /\ take_cols lfps_aug icol_ret = Ok lfps
    /\ forall j, j < n -> nth j area_weights fzero = Fin 0 ->
         column j lfps_aug = repeat NaN K /\ column j X_forced = repeat NaN T.
Proof.
  intros n icol_ret0 n_ret Hx HK2 HKT HKN Hc Hlen HN Hkl Hlib.
  assert (HK : 1 <= K) by lia.
  destruct (np_where_partition area_weights) as (_ & Hpl & Hret & Hdisc).
  subst icol_ret0.
  set (icol_ret := np_where fneb_zero area_weights) in *.
  set (icol_disc := np_where feqb_zero area_weights) in *.
  assert (Hidx : Forall (fun i => i < n) icol_ret).
  { apply Forall_forall. intros i Hi. apply Hret in Hi. tauto. }
  destruct (take_cols_ok x_all T n icol_ret Hx Hidx) as [Htake Hxs].
  fold n_ret in Hxs.
  unfold lfca_evaluation. fold icol_ret icol_disc.
  rewrite Htake. cbn [bind].
  unfold icol_ret at 1. rewrite take_where. fold icol_ret. cbn [bind].
  assert (Hwl : length (filter fneb_zero area_weights) = n_ret).
  { pose proof (take_where fneb_zero area_weights) as Hw. fold icol_ret in Hw.
    rewrite take_idx_ok in Hw by exact Hidx. injection Hw as Hw.
    rewrite <- Hw, length_map. reflexivity. }
  destruct (lfca_returns _ T n_ret K cutoff (filter fneb_zero area_weights) default_kwargs
              Hxs Hwl HK2 HKT HKN Hc Hlen (or_introl eq_refl) (or_introl eq_refl) Hkl
              (Hlib _ Htake))
    as (lfcs & lfps & Hrun & Hlc & Hlp).
  rewrite Hrun. cbn [bind].
  destruct (reinsert_masked lfps area_weights K Hlp ltac:(lia))
    as (aug & Hset & Hs & Hback & Hother).
  fold icol_ret icol_disc in Hset, Hback, Hother.
  rewrite Hset. cbn [bind].
  destruct (forced_response_ok lfcs aug T K n N_LFC Hlc Hs ltac:(lia) HK HN)
    as (Xf & HX & HXs & HXnan).
  rewrite matmul_wide_rows.
  2:{ rewrite slice_head by lia. intros E. apply (f_equal (@length vector)) in E.
      rewrite length_firstn, (proj1 Hs) in E. simpl in E. lia. }
  rewrite HX. cbn [bind].
  exists lfcs, lfps, aug, Xf.
  split; [reflexivity|]. split; [exact Hlc|]. split; [exact Hs|]. split; [exact HXs|].
  split; [reflexivity|]. split; [exact Hback|].
  intros j Hj Hz.
  assert (Hcol : column j aug = repeat NaN K).
  { apply Hother, Hdisc. split; assumption. }
  split; [exact Hcol | apply HXnan; assumption].
Qed.

(** X23: One pass of the evaluation loop with its default filter options, for
    N_LFC >= 1, a truncation K with 2 <= K <= min(T, number of retained
    columns), a cutoff of at least one time step with cutoff + 1 <= T,
    SciPy's filters keeping the length of their input, and library calls of
    the lfca run that succeed with their documented shapes: it returns lfcs
    of shape (T, K), lfps_aug of shape (K, nfeatures) and X_forced of shape
    (T, nfeatures); lfcs and the retained columns of lfps_aug are exactly
    the result of lfca on the retained columns with the nonzero weights;
    and at every position whose weight is 0 both lfps_aug and X_forced are
    nan in every row. *)
Theorem lfca_evaluation_masks_discarded `{NumLib} (x_all : matrix) (area_weights : vector)
    (T K : nat) (cutoff N_LFC : Z) :
  let n := length area_weights in
  let icol_ret := np_where fneb_zero area_weights in
  let n_ret := length icol_ret in
  has_shape x_all T n ->
  2 <= K -> K <= T -> K <= n_ret ->
  (1 <= cutoff)%Z -> (cutoff + 1 <= Z.of_nat T)%Z -> (1 <= N_LFC)%Z ->
  keeps_length ->
  (forall x, take_cols x_all icol_ret = Ok x ->
     library_calls_ok x T n_ret K cutoff (filter fneb_zero area_weights) default_kwargs) ->
  exists lfcs lfps lfps_aug X_forced,
    lfca_evaluation x_all area_weights cutoff (Z.of_nat K) N_LFC
      = Ok (lfcs, lfps_aug, X_forced)
    /\ has_shape lfcs T K /\ has_shape lfps_aug K n /\ has_shape X_forced T n
    /\ (x <- take_cols x_all icol_ret ;;
        lfca (Arr2 x) cutoff (Z.of_nat K)
             (filter fneb_zero area_weights) default_kwargs) = Ok (lfcs, lfps)
    /\ take_cols lfps_aug icol_ret = Ok lfps
    /\ forall j, j < n -> nth j area_weights fzero = Fin 0 ->
         column j lfps_aug = repeat NaN K /\ column j X_forced = repeat NaN T.
Proof. apply lfca_evaluation_ok. Qed.

Lemma where_sample_weights : np_where fneb_zero [Fin 1; Fin 0; Fin 3] = [0; 2].
Proof. unfold np_where. cbn. repeat destruct (Req_dec_T _ _); try lra; reflexivity. Qed.

Lemma filter_sample_weights : filter fneb_zero [Fin 1; Fin 0; Fin 3] = [Fin 1; Fin 3].
Proof. cbn. repeat destruct (Req_dec_T _ _); try lra; reflexivity. Qed.

Lemma sample_masked_calls_ok (x : matrix) :
  take_cols sample_masked [0; 2] = Ok x ->
  @library_calls_ok small_lib x 3 2 2 1 [Fin 1; Fin 3] default_kwargs.
Proof.
  intros Hx. change (take_cols sample_masked [0; 2]) with (Ok sample_data) in Hx.
  injection Hx as <-.
  apply small_lib_calls_ok;
    [ exact sample_data_shape | reflexivity | exact sample_data_finite
    | apply (finite_scale_vector [1; 3]%R); repeat constructor; lra
    | lia | lia | lia | reflexivity
    | intros _; right; split; [reflexivity | lia] ].
Qed.

Lemma lfca_evaluation_masks_discarded_witness :
  exists lfcs lfps lfps_aug X_forced,
    @lfca_evaluation small_lib sample_masked [Fin 1; Fin 0; Fin 3] 1 (Z.of_nat 2) 1
      = Ok (lfcs, lfps_aug, X_forced)
    /\ has_shape lfcs 3 2 /\ has_shape lfps_aug 2 3 /\ has_shape X_forced 3 3
    /\ (x <- take_cols sample_masked (np_where fneb_zero [Fin 1; Fin 0; Fin 3]) ;;
        @lfca small_lib (Arr2 x) 1 (Z.of_nat 2)
             (filter fneb_zero [Fin 1; Fin 0; Fin 3]) default_kwargs) = Ok (lfcs, lfps)
    /\ take_cols lfps_aug (np_where fneb_zero [Fin 1; Fin 0; Fin 3]) = Ok lfps
    /\ forall j, j < 3 -> nth j [Fin 1; Fin 0; Fin 3] fzero = Fin 0 ->
         column j lfps_aug = repeat NaN 2 /\ column j X_forced = repeat NaN 3.
Proof.
  apply (@lfca_evaluation_masks_discarded small_lib sample_masked
           [Fin 1; Fin 0; Fin 3] 3 2 1 1);
    rewrite ?where_sample_weights, ?filter_sample_weights.
  - split; [reflexivity | simpl; repeat constructor].
  - lia.
  - lia.
  - simpl; lia.
  - lia.
  - simpl; lia.
  - lia.
  - exact small_lib_keeps_length.
  - exact sample_masked_calls_ok.
Defined.

(** ** The layout of the area weights *)

Lemma nth_concat_rect (m : matrix) (n j i : nat) :
  Forall (fun r => length r = n) m -> j < length m -> i < n ->
  nth (j * n + i) (concat m) fzero = nth i (nth j m []) fzero.
Proof.
  intros Hm. revert j. induction Hm as [|r m Hr _ IH]; intros j Hj Hi; [simpl in Hj; lia|].
  cbn [concat]. destruct j as [|j].
  - cbn [nth Nat.mul Nat.add]. apply app_nth1. lia.
  - rewrite app_nth2 by (rewrite Hr; cbn; lia).
    replace (S j * n + i - length r) with (j * n + i) by (rewrite Hr; cbn; lia).
    cbn [nth]. apply IH; [simpl in Hj; lia | exact Hi].
Qed.

Lemma length_concat_rect (m : matrix) (n : nat) :
  Forall (fun r => length r = n) m -> length (concat m) = length m * n.
Proof.
  induction 1 as [|r m Hr _ IH]; [reflexivity|].
  cbn [concat length]. rewrite length_app, IH, Hr. cbn. reflexivity.
Qed.

Lemma nth_map_in {A B} (f : A -> B) (l : list A) (i : nat) (da : A) (db : B) :
  i < length l -> nth i (map f l) db = f (nth i l da).
Proof.
  intros Hi. rewrite (nth_indep _ db (f da)) by (rewrite length_map; exact Hi).
  apply map_nth.
Qed.

Lemma broadcast2_matrix_ok (f : float -> float -> float) (a b : matrix) (r c : nat) :
  has_shape a r c -> has_shape b r c ->
  broadcast2_matrix f a b = Ok (map2 (map2 f) a b)
  /\ has_shape (map2 (map2 f) a b) r c.
Proof.
  intros [Hal Har] [Hbl Hbr]. split.
  - unfold broadcast2_matrix, nrows. rewrite Hal, Hbl, Nat.eqb_refl.
    unfold map2 at 1. apply mapM_ok. intros [u v] Hp. cbn [fst snd].
    rewrite Forall_forall in Har, Hbr.
    unfold broadcast2.
    rewrite (Har u (in_combine_l _ _ _ _ Hp)), (Hbr v (in_combine_r _ _ _ _ Hp)), Nat.eqb_refl.
    reflexivity.
  - split; [rewrite length_map2; lia|].
    unfold map2 at 1. apply Forall_map, Forall_forall. intros [u v] Hp. cbn [fst snd].
    rewrite Forall_forall in Har, Hbr.
    rewrite length_map2, (Har u (in_combine_l _ _ _ _ Hp)), (Hbr v (in_combine_r _ _ _ _ Hp)).
    lia.
Qed.

Lemma nth_transpose (m : matrix) (r c j i : nat) :
  has_shape m r c -> 0 < r -> j < c -> i < r ->
  nth i (nth j (np_transpose m) []) fzero = nth j (nth i m []) fzero.
Proof.
  intros Hm Hr Hj Hi. unfold np_transpose. rewrite (ncols_shape Hm Hr).
  rewrite nth_map_seq by exact Hj. apply nth_column. rewrite (proj1 Hm). exact Hi.
Qed.

Lemma nth_ravel_F (m : matrix) (r c j i : nat) :
  has_shape m r c -> 0 < r -> j < c -> i < r ->
  nth (j * r + i) (ravel_F m) fzero = nth j (nth i m []) fzero.
Proof.
  intros Hm Hr Hj Hi. unfold ravel_F.
  pose proof (transpose_shape m r c Hm Hr) as [Htl Htr].
  rewrite (nth_concat_rect _ r j i Htr); [| | exact Hi].
  2:{ apply (Nat.lt_le_trans _ c); [exact Hj | apply Nat.eq_le_incl; symmetry; exact Htl]. }
  apply (nth_transpose m r c); assumption.
Qed.

Lemma area_weights_ok (missing_data_mask : matrix) (lat_axis lon_axis : vector)
    (nlat nlon : nat) :
  has_shape missing_data_mask nlat nlon ->
  length lat_axis = nlat -> length lon_axis = nlon -> 0 < nlat -> 0 < nlon ->
  exists w,
    masked_area_weights missing_data_mask lat_axis lon_axis nlat nlon = Ok w
    /\ length w = nlat * nlon
    /\ forall j i, j < nlat -> i < nlon ->
         nth (j * nlon + i) w fzero
         = fmul (fcos (fdiv (fmul (nth j lat_axis fzero) np_pi) (Fin 180)))
                (np_nan_to_num (Fin 0) (nth i (nth j missing_data_mask []) fzero)).
Proof.
  intros Hm Hlat Hlon Hnlat Hnlon.
  unfold masked_area_weights, np_meshgrid.
  set (g := fun v => fcos (fdiv (fmul v np_pi) (Fin 180))).
  set (mask := map (map (np_nan_to_num (Fin 0))) missing_data_mask).
  set (cosy := map (map g) (map (fun _ : float => lat_axis) lon_axis)).
  assert (Hmask : has_shape mask nlat nlon).
  { eapply has_shape_map_rows; [exact Hm|]. intros row Hrow. rewrite length_map. exact Hrow. }
  assert (HmT : has_shape (np_transpose mask) nlon nlat)
    by (apply transpose_shape; assumption).
  assert (Hcosy : has_shape cosy nlon nlat).
  { unfold cosy. split; [rewrite !length_map; exact Hlon|].
    apply Forall_map, Forall_map, Forall_forall. intros v _. rewrite length_map. exact Hlat. }
  destruct (broadcast2_matrix_ok fmul cosy (np_transpose mask) nlon nlat Hcosy HmT)
    as [-> Harea].
  cbn [bind]. set (area := map2 (map2 fmul) cosy (np_transpose mask)) in *.
  unfold np_reshape_F_column. rewrite (ncols_shape Harea Hnlon).
  unfold nrows. rewrite (proj1 Harea), (Nat.mul_comm nlon nlat), Nat.eqb_refl.
  eexists. split; [reflexivity|]. split.
  - unfold ravel_F. pose proof (transpose_shape area nlon nlat Harea Hnlon) as [Htl Htr].
    rewrite (length_concat_rect _ nlon Htr), Htl. reflexivity.
  - intros j i Hj Hi.
    rewrite (nth_ravel_F area nlon nlat j i Harea Hnlon Hj Hi).
    unfold area.
    rewrite (nth_map2 (map2 fmul) cosy (np_transpose mask) i [] [] [])
      by (rewrite ?(proj1 Hcosy), ?(proj1 HmT); exact Hi).
    assert (Hrow : nth i cosy [] = map g lat_axis).
    { unfold cosy. rewrite map_map.
      rewrite (nth_map_in _ lon_axis i fzero []) by (rewrite Hlon; exact Hi). reflexivity. }
    rewrite Hrow.
    assert (Hcol : length (nth i (np_transpose mask) []) = nlat).
    { destruct HmT as [HmTl HmTr]. rewrite Forall_forall in HmTr. apply HmTr, nth_In.
      rewrite HmTl. exact Hi. }
    rewrite (nth_map2 fmul (map g lat_axis) (nth i (np_transpose mask) []) j fzero fzero fzero)
      by (rewrite ?length_map, ?Hlat, ?Hcol; exact Hj).
    rewrite (nth_map_in g lat_axis j fzero fzero) by (rewrite Hlat; exact Hj).
    rewrite (nth_transpose mask nlat nlon i j Hmask Hnlat Hi Hj).
    unfold mask.
    rewrite (nth_map_in _ missing_data_mask j [] []) by (rewrite (proj1 Hm); exact Hj).
    rewrite (nth_map_in _ _ i fzero fzero).
    + reflexivity.
    + destruct Hm as [Hml Hmr]. rewrite Forall_forall in Hmr.
      rewrite (Hmr (nth j missing_data_mask [])); [exact Hi|].
      apply nth_In. rewrite Hml. exact Hj.
Qed.

Lemma nth_stack_lat_lon (sst : list matrix) (nlat nlon t j i : nat) :
  Forall (fun m => has_shape m nlat nlon) sst ->
  t < length sst -> j < nlat -> i < nlon ->
  nth (j * nlon + i) (nth t (stack_lat_lon sst) []) fzero
  = nth i (nth j (nth t sst []) []) fzero.
Proof.
  intros Hs Ht Hj Hi. unfold stack_lat_lon.
  rewrite (nth_map_in _ sst t [] []) by exact Ht.
  rewrite Forall_forall in Hs. destruct (Hs (nth t sst []) (nth_In _ _ Ht)) as [Hl Hr].
  apply nth_concat_rect; [exact Hr | rewrite Hl; exact Hj | exact Hi].
Qed.

(** X24: The weights and the data use the same flattening: area_weights has
    nlat*nlon entries and entry j*nlon+i is cos(lat[j]*pi/180) times the
    mask (nan replaced by 0) at (lat j, lon i), while column j*nlon+i of the
    stacked data is the grid cell (lat j, lon i). *)
Theorem area_weights_layout (missing_data_mask : matrix) (lat_axis lon_axis : vector)
    (sst_anomalies : list matrix) (nlat nlon : nat) :
  has_shape missing_data_mask nlat nlon ->
  length lat_axis = nlat -> length lon_axis = nlon -> 0 < nlat -> 0 < nlon ->
  Forall (fun m => has_shape m nlat nlon) sst_anomalies ->
  exists area_weights,
    masked_area_weights missing_data_mask lat_axis lon_axis nlat nlon = Ok area_weights
    /\ length area_weights = nlat * nlon
    /\ has_shape (stack_lat_lon sst_anomalies) (length sst_anomalies) (nlat * nlon)
    /\ forall j i, j < nlat -> i < nlon ->
         nth (j * nlon + i) area_weights fzero
         = fmul (fcos (fdiv (fmul (nth j lat_axis fzero) np_pi) (Fin 180)))
                (np_nan_to_num (Fin 0) (nth i (nth j missing_data_mask []) fzero))
         /\ forall t, t < length sst_anomalies ->
              nth (j * nlon + i) (nth t (stack_lat_lon sst_anomalies) []) fzero
              = nth i (nth j (nth t sst_anomalies []) []) fzero.
Proof.
  intros Hm Hlat Hlon Hnlat Hnlon Hs.
  destruct (area_weights_ok missing_data_mask lat_axis lon_axis nlat nlon
              Hm Hlat Hlon Hnlat Hnlon) as (w & Hw & Hlen & Hnth).
  exists w. split; [exact Hw|]. split; [exact Hlen|]. split.
  - unfold stack_lat_lon. split; [apply length_map|].
    apply Forall_map. eapply Forall_impl; [|exact Hs].
    intros m [Hl Hr]. rewrite (length_concat_rect m nlon Hr), Hl. reflexivity.
  - intros j i Hj Hi. split; [apply Hnth; assumption|].
    intros t Ht. apply (nth_stack_lat_lon sst_anomalies nlat nlon); assumption.
Qed.

Lemma area_weights_layout_witness :
  exists area_weights,
    masked_area_weights [[Fin 1; NaN]] [Fin 0] [Fin 0; Fin 180] 1 2 = Ok area_weights
    /\ length area_weights = 1 * 2
    /\ has_shape (stack_lat_lon [[[Fin 3; Fin 4]]]) (length [[[Fin 3; Fin 4]]]) (1 * 2)
    /\ forall j i, j < 1 -> i < 2 ->
         nth (j * 2 + i) area_weights fzero
         = fmul (fcos (fdiv (fmul (nth j [Fin 0] fzero) np_pi) (Fin 180)))
                (np_nan_to_num (Fin 0) (nth i (nth j [[Fin 1; NaN]] []) fzero))
         /\ forall t, t < length [[[Fin 3; Fin 4]]] ->
              nth (j * 2 + i) (nth t (stack_lat_lon [[[Fin 3; Fin 4]]]) []) fzero
              = nth i (nth j (nth t [[[Fin 3; Fin 4]]] []) []) fzero.
Proof.
  apply (area_weights_layout [[Fin 1; NaN]] [Fin 0] [Fin 0; Fin 180] [[[Fin 3; Fin 4]]] 1 2);
    [ split; [reflexivity | repeat constructor]
    | reflexivity | reflexivity | lia | lia
    | repeat constructor ].
Defined.

Lemma cos_latitude_pos (l : R) : (-90 < l < 90)%R -> (0 < cos (l * PI / 180))%R.
Proof.
  intros [Hlo Hhi]. pose proof PI_RGT_0 as Hpi.
  apply cos_gt_0.
  - apply Rmult_lt_reg_r with (r := (180 / PI)%R).
    + apply Rdiv_lt_0_compat; lra.
    + replace (- (PI / 2) * (180 / PI))%R with (-90)%R by (field; lra).
      replace (l * PI / 180 * (180 / PI))%R with l by (field; lra). exact Hlo.
  - apply Rmult_lt_reg_r with (r := (180 / PI)%R).
    + apply Rdiv_lt_0_compat; lra.
    + replace (PI / 2 * (180 / PI))%R with 90%R by (field; lra).
      replace (l * PI / 180 * (180 / PI))%R with l by (field; lra). exact Hhi.
Qed.

(** X25: With the mask built by np.where(np.isnan(tmp), np.nan, 1) and latitudes
    strictly between -90 and 90, the weight of a cell is 0 where tmp is nan
    and cos(lat*pi/180) elsewhere, so a column is retained (in icol_ret)
    exactly when its cell is not nan in tmp. *)
Theorem observed_cells_retained (tmp : matrix) (lats : list R) (lon_axis : vector)
    (nlat nlon : nat) :
  has_shape tmp nlat nlon ->
  length lats = nlat -> length lon_axis = nlon -> 0 < nlat -> 0 < nlon ->
  Forall (fun l => -90 < l < 90)%R lats ->
  exists area_weights,
    masked_area_weights (missing_mask_of tmp) (map Fin lats) lon_axis nlat nlon
      = Ok area_weights
    /\ forall j i, j < nlat -> i < nlon ->
         nth (j * nlon + i) area_weights fzero
         = (if np_isnan (nth i (nth j tmp []) fzero) then Fin 0
            else Fin (cos (nth j lats 0%R * PI / 180)))
         /\ (In (j * nlon + i) (np_where fneb_zero area_weights)
             <-> np_isnan (nth i (nth j tmp []) fzero) = false).
Proof.
  intros Htmp Hlat Hlon Hnlat Hnlon Hrange.
  assert (Hmask : has_shape (missing_mask_of tmp) nlat nlon).
  { unfold missing_mask_of. eapply has_shape_map_rows; [exact Htmp|].
    intros row Hrow. rewrite length_map. exact Hrow. }
  destruct (area_weights_ok (missing_mask_of tmp) (map Fin lats) lon_axis nlat nlon Hmask
              ltac:(rewrite length_map; exact Hlat) Hlon Hnlat Hnlon) as (w & Hw & Hlen & Hnth).
  exists w. split; [exact Hw|]. intros j i Hj Hi.
  assert (Hval : nth (j * nlon + i) w fzero
                 = if np_isnan (nth i (nth j tmp []) fzero) then Fin 0
                   else Fin (cos (nth j lats 0%R * PI / 180))).
  { rewrite (Hnth j i Hj Hi).
    rewrite (nth_map_in Fin lats j 0%R fzero) by (rewrite Hlat; exact Hj).
    unfold missing_mask_of.
    rewrite (nth_map_in _ tmp j [] []) by (rewrite (proj1 Htmp); exact Hj).
    rewrite (nth_map_in _ _ i fzero fzero).
    2:{ destruct Htmp as [Hl Hr]. rewrite Forall_forall in Hr.
        rewrite (Hr (nth j tmp [])); [exact Hi|]. apply nth_In. rewrite Hl. exact Hj. }
    unfold np_pi. cbn [fmul]. rewrite fdiv_Fin by lra. cbn [fcos].
    destruct (np_isnan (nth i (nth j tmp []) fzero)); cbn [np_nan_to_num fmul]; f_equal.
    - ring.
    - unfold Rdiv. ring. }
  split; [exact Hval|].
  destruct (np_where_partition w) as (_ & _ & Hret & _). rewrite Hret, Hval, Hlen.
  assert (Hk : j * nlon + i < nlat * nlon) by nia.
  destruct (np_isnan (nth i (nth j tmp []) fzero)).
  - split; [intros [_ Hne]; exfalso; apply Hne; reflexivity | discriminate].
  - split; [reflexivity|]. intros _. split; [exact Hk|].
    intros E. injection E as E.
    assert (Hl : (-90 < nth j lats 0 < 90)%R).
    { rewrite Forall_forall in Hrange. apply Hrange, nth_In. rewrite Hlat. exact Hj. }
    pose proof (cos_latitude_pos _ Hl). lra.
Qed.

Lemma observed_cells_retained_witness :
  exists area_weights,
    masked_area_weights (missing_mask_of [[Fin 2; NaN]]) (map Fin [45%R]) [Fin 0; Fin 180] 1 2
      = Ok area_weights
    /\ forall j i, j < 1 -> i < 2 ->
         nth (j * 2 + i) area_weights fzero
         = (if np_isnan (nth i (nth j [[Fin 2; NaN]] []) fzero) then Fin 0
            else Fin (cos (nth j [45%R] 0%R * PI / 180)))
         /\ (In (j * 2 + i) (np_where fneb_zero area_weights)
             <-> np_isnan (nth i (nth j [[Fin 2; NaN]] []) fzero) = false).
Proof.
  apply (observed_cells_retained [[Fin 2; NaN]] [45%R] [Fin 0; Fin 180] 1 2);
    [ split; [reflexivity | repeat constructor]
    | reflexivity | reflexivity | lia | lia
    | repeat constructor; lra ].
Defined.

(** X26: The map drawn for a pattern undoes the flattening: for a row of
    nlat*nlon values, map_plot has shape (nlat, nlon) and its entry (j, i)
    is entry j*nlon+i of the row, replaced by nan when its absolute value
    exceeds 1e5. *)
Theorem map_plot_layout (pattern_row : vector) (nlat nlon : nat) :
  length pattern_row = nlat * nlon -> 0 < nlat -> 0 < nlon ->
  exists map_rows,
    map_plot pattern_row nlat nlon = Ok map_rows
    /\ has_shape map_rows nlat nlon
    /\ forall j i, j < nlat -> i < nlon ->
         nth i (nth j map_rows []) fzero = blank_large (nth (j * nlon + i) pattern_row fzero).
Proof.
  intros Hlen Hnlat Hnlon. unfold map_plot, np_reshape_F.
  rewrite Hlen, (Nat.mul_comm nlat nlon), Nat.eqb_refl. cbn [bind].
  set (pattern := map (map blank_large)
                    (map (fun a => map (fun b => nth (a + nlon * b) pattern_row fzero)
                                       (seq 0 nlat)) (seq 0 nlon))).
  assert (Hp : has_shape pattern nlon nlat).
  { unfold pattern. split; [rewrite !length_map, length_seq; reflexivity|].
    apply Forall_map, Forall_map, Forall_forall. intros a _.
    rewrite !length_map, length_seq. reflexivity. }
  eexists. split; [reflexivity|]. split; [apply transpose_shape; assumption|].
  intros j i Hj Hi.
  rewrite (nth_transpose pattern nlon nlat j i Hp Hnlon Hj Hi).
  unfold pattern. rewrite map_map.
  rewrite nth_map_seq by exact Hi. rewrite map_map.
  rewrite nth_map_seq by exact Hj.
  f_equal. f_equal. lia.
Qed.

Lemma map_plot_layout_witness :
  exists map_rows,
    map_plot [Fin 1; Fin 2; Fin 3; Fin 4; Fin 5; Fin 6] 2 3 = Ok map_rows
    /\ has_shape map_rows 2 3
    /\ forall j i, j < 2 -> i < 3 ->
         nth i (nth j map_rows []) fzero
         = blank_large (nth (j * 3 + i) [Fin 1; Fin 2; Fin 3; Fin 4; Fin 5; Fin 6] fzero).
Proof.
  apply (map_plot_layout [Fin 1; Fin 2; Fin 3; Fin 4; Fin 5; Fin 6] 2 3);
    [reflexivity | lia | lia].
Defined.

(** ** Time axis, grid cell and file names *)

Lemma time_plot_entry (t : date) :
  fadd (of_int t.(year)) (fdiv (of_int t.(month)) (Fin 12))
  = Fin (IZR t.(year) + IZR t.(month) / 12).
Proof. unfold of_int. rewrite fdiv_Fin by lra. reflexivity. Qed.

Lemma time_plot_pair (a b : date) :
  valid_month a -> valid_month b -> date_lt a b ->
  (IZR a.(year) + IZR a.(month) / 12 < IZR b.(year) + IZR b.(month) / 12)%R.
Proof.
  intros [Ha1 Ha2] [Hb1 Hb2] Hlt.
  apply IZR_le in Ha1, Ha2, Hb1, Hb2.
  destruct Hlt as [Hy | [Hy Hm]].
  - assert (H1 : (a.(year) + 1 <= b.(year))%Z) by lia.
    apply IZR_le in H1. rewrite plus_IZR in H1. lra.
  - rewrite Hy. apply IZR_lt in Hm. lra.
Qed.

(** X27: For months numbered 1 to 12, time_plot is strictly increasing whenever
    the dates are in strictly increasing (year, month) order, and each value
    t.year + t.month/12 lies in (year, year+1]: December of a year is
    plotted at the next whole year. *)
Theorem time_plot_increasing (time : list date) :
  Forall valid_month time -> StronglySorted date_lt time ->
  StronglySorted (fun a b => fltb a b = true) (time_plot time)
  /\ Forall2 (fun t x => exists r, x = Fin r
                /\ (IZR t.(year) < r <= IZR t.(year) + 1)%R) time (time_plot time).
Proof.
  intros Hv Hs. split.
  - induction Hs as [|a l Hs IH Ha]; [constructor|].
    inversion Hv as [|? ? Hva Hvl]; subst.
    cbn [time_plot map]. constructor; [apply IH; exact Hvl|].
    apply Forall_map. rewrite Forall_forall in Ha, Hvl. apply Forall_forall.
    intros b Hb. rewrite !time_plot_entry. cbn [fltb].
    pose proof (time_plot_pair a b Hva (Hvl b Hb) (Ha b Hb)).
    destruct (Rlt_dec _ _); [reflexivity | contradiction].
  - clear Hs. induction Hv as [|a l [Ha1 Ha2] _ IH]; [constructor|].
    cbn [time_plot map]. constructor; [|exact IH].
    rewrite time_plot_entry. eexists. split; [reflexivity|].
    apply IZR_le in Ha1, Ha2. lra.
Qed.

Lemma time_plot_increasing_witness :
  StronglySorted (fun a b => fltb a b = true)
    (time_plot [ {| year := 2000; month := 12 |}; {| year := 2001; month := 1 |} ])
  /\ Forall2 (fun t x => exists r, x = Fin r
                /\ (IZR t.(year) < r <= IZR t.(year) + 1)%R)
       [ {| year := 2000; month := 12 |}; {| year := 2001; month := 1 |} ]
       (time_plot [ {| year := 2000; month := 12 |}; {| year := 2001; month := 1 |} ]).
Proof.
  apply (time_plot_increasing [ {| year := 2000; month := 12 |}; {| year := 2001; month := 1 |} ]).
  - repeat constructor; simpl; lia.
  - repeat constructor.
Defined.

(** X28: In the grid-cell plotting cell, for a variable other than 'tos' and any
    location other than 'Zurich' (so also 'Boulder'), the test reads the
    name ftype, which no cell binds, and raises NameError; the Boulder
    coordinates are selected only if a global ftype equal to 'Boulder'
    exists. *)
Theorem select_location_unbound_ftype (ncvar location : string) :
  ncvar <> "tos"%string -> location <> "Zurich"%string ->
  select_location None ncvar location = inl (NameError "name 'ftype' is not defined")
  /\ forall ftype coords,
       select_location ftype ncvar location = inr (Some coords) ->
       ftype = Some "Boulder"%string.
Proof.
  intros Hv Hl. unfold select_location.
  rewrite (proj2 (String.eqb_neq _ _) Hv), (proj2 (String.eqb_neq _ _) Hl).
  split; [reflexivity|].
  intros [f|] coords; [|discriminate].
  destruct (String.eqb f "Boulder") eqn:E; [|discriminate].
  intros _. apply String.eqb_eq in E. subst f. reflexivity.
Qed.

Lemma select_location_unbound_ftype_witness :
  select_location None "tas" "Boulder" = inl (NameError "name 'ftype' is not defined")
  /\ forall ftype coords,
       select_location ftype "tas" "Boulder" = inr (Some coords) ->
       ftype = Some "Boulder"%string.
Proof.
  apply (select_location_unbound_ftype "tas" "Boulder"); discriminate.
Defined.

Lemma split_on_nonempty sep s : split_on sep s <> [].
Proof.
  destruct s as [|c s]; cbn [split_on]; [discriminate|].
  destruct (Ascii.eqb c sep); [discriminate|].
  destruct (split_on sep s); discriminate.
Qed.

Lemma split_on_app sep d t :
  split_on sep (d ++ String sep t) = split_on sep d ++ split_on sep t.
Proof.
  induction d as [|c d IH]; cbn [append split_on].
  - rewrite Ascii.eqb_refl. reflexivity.
  - destruct (Ascii.eqb c sep); [rewrite IH; reflexivity|].
    rewrite IH. pose proof (split_on_nonempty sep d) as Hne.
    destruct (split_on sep d) as [|h tl]; [contradiction | reflexivity].
Qed.

Lemma split_on_absent sep s : has_char sep s = false -> split_on sep s = [s].
Proof.
  induction s as [|c s IH]; cbn [has_char split_on]; [reflexivity|].
  intros H. apply orb_false_iff in H as [Hc Hs]. rewrite Hc, (IH Hs). reflexivity.
Qed.

Lemma split_on_head sep p s :
  has_char sep p = false ->
  exists r tl, split_on sep (p ++ s) = (p ++ r)%string :: tl.
Proof.
  induction p as [|c p IH]; cbn [has_char append]; intros H.
  - pose proof (split_on_nonempty sep s) as Hne.
    destruct (split_on sep s) as [|h tl]; [contradiction|]. exists h, tl. reflexivity.
  - apply orb_false_iff in H as [Hc Hp]. destruct (IH Hp) as (r & tl & E).
    cbn [split_on]. rewrite Hc, E. exists r, tl. reflexivity.
Qed.

Lemma has_char_app c s t : has_char c (s ++ t) = has_char c s || has_char c t.
Proof.
  induction s as [|a s IH]; cbn [append has_char]; [reflexivity|].
  rewrite IH, orb_assoc. reflexivity.
Qed.

Lemma string_app_assoc (a b c : string) : ((a ++ b) ++ c = a ++ (b ++ c))%string.
Proof. induction a as [|x a IH]; cbn [append]; [reflexivity | rewrite IH; reflexivity]. Qed.

(** X29: The evaluation identifier is the third underscore-separated field of
    the file's base name up to its first dot: for a path dir/a_b_model.rest,
    where a, b and model contain no '/' or '_', model contains no '.', and
    rest contains no '/', the expression returns model. *)
Theorem model_of_filename_parses (dir a b model rest : string) :
  has_char (char_of "/") a = false -> has_char (char_of "_") a = false ->
  has_char (char_of "/") b = false -> has_char (char_of "_") b = false ->
  has_char (char_of "/") model = false -> has_char (char_of "_") model = false ->
  has_char (char_of ".") model = false ->
  has_char (char_of "/") rest = false ->
  model_of_filename (dir ++ "/" ++ a ++ "_" ++ b ++ "_" ++ model ++ "." ++ rest) = Ok model.
Proof.
  intros Ha1 Ha2 Hb1 Hb2 Hm1 Hm2 Hm3 Hr.
  unfold model_of_filename.
  set (base := (a ++ "_" ++ b ++ "_" ++ model ++ "." ++ rest)%string).
  change (dir ++ "/" ++ base)%string with (dir ++ String (char_of "/") base)%string.
  rewrite split_on_app.
  assert (Hbase : has_char (char_of "/") base = false).
  { unfold base. rewrite !has_char_app, Ha1, Hb1, Hm1, Hr. reflexivity. }
  rewrite (split_on_absent _ base Hbase), last_last.
  unfold base.
  change (a ++ "_" ++ b ++ "_" ++ model ++ "." ++ rest)%string
    with (a ++ String (char_of "_") (b ++ String (char_of "_") (model ++ "." ++ rest)))%string.
  rewrite !split_on_app, (split_on_absent _ a Ha2), (split_on_absent _ b Hb2).
  rewrite <- string_app_assoc.
  destruct (split_on_head (char_of "_") (model ++ ".") rest) as (r & tl & E).
  { rewrite has_char_app, Hm2. reflexivity. }
  rewrite E. cbn [app nth_error].
  rewrite string_app_assoc.
  change (model ++ "." ++ r)%string with (model ++ String (char_of ".") r)%string.
  rewrite split_on_app, (split_on_absent _ model Hm3). reflexivity.
Qed.

Lemma model_of_filename_parses_witness :
  model_of_filename ("/data/Evaluation-Tier2/Omon/tos" ++ "/" ++ "tos" ++ "_" ++ "mon" ++ "_"
                       ++ "2A" ++ "." ++ "190001-202212.nc") = Ok "2A"%string.
Proof.
  apply (model_of_filename_parses "/data/Evaluation-Tier2/Omon/tos" "tos" "mon" "2A"
           "190001-202212.nc"); reflexivity.
Defined.

(** ** The sign convention in the evaluation loop *)

(** X30: In exact arithmetic (no rounding, no overflow), the evaluation loop
    meets the condition under which the sign convention of lfca holds: for
    finite non-negative area weights (zeros at masked cells) and finite
    patterns and eigenvectors from the library calls of the run, a
    successful pass calls lfca with strictly positive weights only, the
    zero weights having been removed with their columns, and every returned
    pattern row has a non-negative dot product with the retained weights. *)
Theorem lfca_evaluation_sign_convention `{NumLib} (x_all : matrix) (ws : list R)
    (cutoff truncation N_LFC : Z) (lfcs lfps_aug X_forced : matrix) :
  (forall x, take_cols x_all (np_where fneb_zero (map Fin ws)) = Ok x ->
     finite_run x cutoff truncation (filter fneb_zero (map Fin ws)) default_kwargs) ->
  Forall (fun w => 0 <= w)%R ws ->
  lfca_evaluation x_all (map Fin ws) cutoff truncation N_LFC
    = Ok (lfcs, lfps_aug, X_forced) ->
  exists x rs lfps,
    take_cols x_all (np_where fneb_zero (map Fin ws)) = Ok x
    /\ filter fneb_zero (map Fin ws) = map Fin rs
    /\ Forall (fun w => 0 < w)%R rs
    /\ lfca (Arr2 x) cutoff truncation (map Fin rs) default_kwargs = Ok (lfcs, lfps)
    /\ forall row, In row lfps ->
         exists d, np_dot row (map Fin rs) = Ok (Fin d) /\ (0 <= d)%R.
Proof.
  intros Hfs Hnonneg Hrun.
  destruct (retained_reals ws Hnonneg) as (rs & Hrs & Hpos & _).
  unfold lfca_evaluation in Hrun.
  apply bind_Ok in Hrun as (x & Hx & Hrun).
  specialize (Hfs x Hx).
  rewrite take_where, Hrs in Hrun. cbn [bind] in Hrun. rewrite Hrs in Hfs.
  apply bind_Ok in Hrun as ([lfcs0 lfps] & Hlfca & Hrun).
  apply bind_Ok in Hrun as (aug & _ & Hrun).
  apply bind_Ok in Hrun as (Xf & _ & Hrun).
  injection Hrun as -> _ _.
  exists x, rs, lfps.
  split; [exact Hx|]. split; [exact Hrs|]. split; [exact Hpos|]. split; [exact Hlfca|].
  exact (lfca_rows_nonneg x cutoff truncation rs default_kwargs lfcs lfps Hfs Hpos Hlfca).
Qed.

Lemma sample_evaluation_ok :
  exists lfcs lfps_aug X_forced,
    @lfca_evaluation small_lib sample_masked (map Fin [1; 0; 3]%R) 1 2 1
      = Ok (lfcs, lfps_aug, X_forced).
Proof.
  destruct (@lfca_evaluation_ok small_lib sample_masked [Fin 1; Fin 0; Fin 3] 3 2 1 1)
    as (lfcs & lfps & aug & Xf & Hrun & _);
    rewrite ?where_sample_weights, ?filter_sample_weights;
    [ split; [reflexivity | simpl; repeat constructor]
    | lia | lia | simpl; lia | lia | simpl; lia | lia
    | exact small_lib_keeps_length
    | exact sample_masked_calls_ok
    | ].
  exists lfcs, aug, Xf. exact Hrun.
Qed.

Lemma lfca_evaluation_sign_convention_witness :
  exists lfcs lfps_aug X_forced,
    @lfca_evaluation small_lib sample_masked (map Fin [1; 0; 3]%R) 1 2 1
      = Ok (lfcs, lfps_aug, X_forced)
    /\ exists x rs lfps,
         take_cols sample_masked (np_where fneb_zero (map Fin [1; 0; 3]%R)) = Ok x
         /\ filter fneb_zero (map Fin [1; 0; 3]%R) = map Fin rs
         /\ Forall (fun w => 0 < w)%R rs
         /\ @lfca small_lib (Arr2 x) 1 2 (map Fin rs) default_kwargs = Ok (lfcs, lfps)
         /\ forall row, In row lfps ->
              exists d, np_dot row (map Fin rs) = Ok (Fin d) /\ (0 <= d)%R.
Proof.
  destruct sample_evaluation_ok as (lfcs & aug & Xf & Hrun).
  exists lfcs, aug, Xf. split; [exact Hrun|].
  apply (@lfca_evaluation_sign_convention small_lib sample_masked
           [1; 0; 3]%R 1%Z 2%Z 1%Z lfcs aug Xf).
  - intros x _. apply small_lib_finite_run.
  - repeat constructor; lra.
  - exact Hrun.
Defined.
